(** * tsFlow: a shallow embedding of the flow engine and its verification

    The definitions follow the three source files of the package
    [flow-engine]:

    - [state-machine.ts]  -> Module [StateMachine]
    - [storage.ts]        -> Module [Storage]
    - [flow-engine.ts]    -> Module [FlowEngine]

    and are followed by the vocabulary of the statements, example
    definitions, and the facts proved about each module
    ([StateMachineFacts], [StorageFacts], [FlowEngineFacts], then
    [StateMachineProperties], [StorageProperties], [FlowEngineProperties],
    and [Scenarios] for the statements on concrete flows).

    JavaScript objects that the code shares and mutates in place (flow-state
    objects, their [context], [history] and [compensations]) live in explicit
    heaps, and a spread copy is a new object holding the same references.
    User callbacks (guards, actions, hooks, validations, compensations) are
    functions on the context they are handed, which they may change before
    they return or raise.  Every callback invocation the claims speak of and
    every timer started by the code is recorded in an effect trace.
    An [async] function runs to completion before its caller goes on, except
    where the code starts several calls together: the region transitions of
    a broadcast are calls in flight, resumed turn by turn by the event loop.
    Strings are the bytes of their UTF-8 encoding.  Counts, indices and the
    numbers of a context are integers; the delays of the retry loop are
    doubles, multiplied as doubles are.  Dates are readings of a clock that
    only timers advance, by the time Node gives a timer. *)

From Stdlib Require Import ZArith Lia Ascii String SpecFloat.
From stdpp Require Import base option list strings gmap.

Open Scope string_scope.
Open Scope list_scope.
Open Scope Z_scope.

(** ** JavaScript helpers *)

(** The double-quote character, used in the error messages of the source. *)
Definition dq : string := String "034"%char EmptyString.

(** JavaScript truthiness of a string: every string but the empty one. *)
Definition truthy (s : string) : bool :=
  match s with EmptyString => false | _ => true end.

(** [x || d] on an optional string: [undefined] and the empty string yield [d]. *)
Definition strOr (x : option string) (d : string) : string :=
  match x with
  | Some s => if truthy s then s else d
  | None => d
  end.

(** [x || d] on an optional number: [undefined] and [0] yield [d]. *)
Definition numOr (x : option Z) (d : Z) : Z :=
  match x with
  | Some n => if n =? 0 then d else n
  | None => d
  end.

(** [s.endsWith(suffix)]. *)
Definition endsWith (s suffix : string) : bool :=
  let n := String.length s in
  let m := String.length suffix in
  (m <=? n)%nat && String.eqb (substring (n - m)%nat m s) suffix.

(** A JavaScript [Map] with string keys: an association list in insertion
    order, each key at most once; [set] on a present key keeps its place. *)
Fixpoint mapGet {V} (k : string) (m : list (string * V)) : option V :=
  match m with
  | [] => None
  | (k', v) :: rest => if String.eqb k' k then Some v else mapGet k rest
  end.

Fixpoint mapSet {V} (k : string) (v : V) (m : list (string * V))
  : list (string * V) :=
  match m with
  | [] => [(k, v)]
  | (k', v') :: rest =>
      if String.eqb k' k then (k, v) :: rest else (k', v') :: mapSet k v rest
  end.

Definition mapHas {V} (k : string) (m : list (string * V)) : bool :=
  match mapGet k m with Some _ => true | None => false end.

Definition mapDelete {V} (k : string) (m : list (string * V))
  : list (string * V) :=
  List.filter (fun kv => negb (String.eqb (fst kv) k)) m.

Definition mapValues {V} (m : list (string * V)) : list V := map snd m.

(** [arr.includes(x)] on an array of strings. *)
Definition includes (arr : list string) (x : string) : bool :=
  existsb (String.eqb x) arr.

(** [parseInt(s, 10)]: leading white space is skipped, an optional sign is
    read, then the longest run of decimal digits; [None] stands for [NaN].
    A string is the sequence of the bytes of its UTF-8 encoding, so the
    white space of JavaScript (tab, line feed, vertical tab, form feed,
    carriage return, space, U+00A0, U+1680, U+2000 to U+200A, U+2028,
    U+2029, U+202F, U+205F, U+3000, U+FEFF) takes one, two or three
    bytes.  The digits are read as the integer they write; the double the
    source gets is the nearest one, which is negative, or below the length
    of an array, exactly when the integer is. *)
Definition isSpace (c : ascii) : bool :=
  let n := nat_of_ascii c in
  ((n =? 32) || (9 <=? n) && (n <=? 13))%nat.

(** U+00A0 is the bytes C2 A0. *)
Definition isSpace2 (c1 c2 : ascii) : bool :=
  ((nat_of_ascii c1 =? 194) && (nat_of_ascii c2 =? 160))%nat.

(** U+1680 is E1 9A 80; U+2000 to U+200A, E2 80 80 to E2 80 8A; U+2028 and
    U+2029, E2 80 A8 and E2 80 A9; U+202F, E2 80 AF; U+205F, E2 81 9F;
    U+3000, E3 80 80; U+FEFF, EF BB BF. *)
Definition isSpace3 (c1 c2 c3 : ascii) : bool :=
  let n1 := nat_of_ascii c1 in
  let n2 := nat_of_ascii c2 in
  let n3 := nat_of_ascii c3 in
  ((n1 =? 225) && (n2 =? 154) && (n3 =? 128)
   || (n1 =? 226) && (n2 =? 128)
      && ((128 <=? n3) && (n3 <=? 138) || (n3 =? 168) || (n3 =? 169) || (n3 =? 175))
   || (n1 =? 226) && (n2 =? 129) && (n3 =? 159)
   || (n1 =? 227) && (n2 =? 128) && (n3 =? 128)
   || (n1 =? 239) && (n2 =? 187) && (n3 =? 191))%nat.

Definition digitOf (c : ascii) : option Z :=
  let n := nat_of_ascii c in
  if ((48 <=? n) && (n <=? 57))%nat then Some (Z.of_nat n - 48) else None.

Fixpoint skipSpaces (s : string) : string :=
  match s with
  | String c1 rest1 =>
      if isSpace c1 then skipSpaces rest1
      else
        match rest1 with
        | String c2 rest2 =>
            if isSpace2 c1 c2 then skipSpaces rest2
            else
              match rest2 with
              | String c3 rest3 =>
                  if isSpace3 c1 c2 c3 then skipSpaces rest3 else s
              | EmptyString => s
              end
        | EmptyString => s
        end
  | EmptyString => s
  end.

Fixpoint readDigits (s : string) (acc : option Z) : option Z :=
  match s with
  | String c rest =>
      match digitOf c with
      | Some d => readDigits rest (Some (10 * default 0 acc + d))
      | None => acc
      end
  | EmptyString => acc
  end.

Definition parseInt (s : string) : option Z :=
  match skipSpaces s with
  | String "-" rest => Z.opp <$> readDigits rest None
  | String "+" rest => readDigits rest None
  | rest => readDigits rest None
  end.

(** A number as the delays of the retry loop have it: a double, that is an
    IEEE 754 binary64 value. *)
Definition Number : Type := spec_float.

(** The double nearest to an integer. *)
Definition num (n : Z) : Number := binary_normalize 53 1024 n 0 false.

(** [x * y] *)
Definition times (x y : Number) : Number := SFmul 53 1024 x y.

(** [Math.pow(2, n)] for a whole [n]. *)
Definition pow2 (n : Z) : Number := SFldexp 53 1024 (num 1) n.

(** [x || d] on an optional number that need not be whole: [undefined],
    [0], [-0] and [NaN] yield [d]. *)
Definition numberOr (x : option Number) (d : Number) : Number :=
  match x with
  | Some (S754_zero _) => d
  | Some S754_nan => d
  | Some v => v
  | None => d
  end.

(** [Math.trunc(x)] for a finite [x]. *)
Definition truncate (x : Number) : Z :=
  match x with
  | S754_finite negative m e =>
      let whole := if 0 <=? e then Z.pos m * 2 ^ e else Z.pos m / 2 ^ (- e) in
      if negative then - whole else whole
  | _ => 0
  end.

(** The time a timer of Node takes: [setTimeout] reads a delay that is not
    between 1 and 2^31 - 1 as 1 ms, and drops the fraction of a
    millisecond. *)
Definition timerDuration (delay : Number) : Z :=
  if SFleb (num 1) delay && SFleb delay (num 2147483647) then truncate delay
  else 1.

(** Values stored in a flow context ([Record<string, any>]). *)
Inductive Value :=
| VNull
| VBool (b : bool)
| VNum (n : Z)
| VStr (s : string).

Abbreviation Context := (gmap string Value).

(** A user callback receives the context object, may mutate it, and either
    returns a value ([inl]) or raises; what it raises is kept as its message
    ([inr]), which is all the source ever reads from it. *)
Definition Callback (R : Type) : Type := Context -> Context * (R + string).

(** ** Compensation records (storage.ts) *)

Record CompensationRecord := {
  comp_state : string;
  comp_action : Callback unit;
  comp_timestamp : Z;
  comp_description : option string
}.

(** ** Observable effects *)

Inductive Effect :=
| EExit (state : string)                 (* state.onExit(context) *)
| EAction (event to : string)            (* transition.action(context) *)
| EValidate (state : string)             (* targetState.validation.validate(context) *)
| EEntry (state : string)                (* targetState.onEntry(context) *)
| EOnError (message : string)            (* config.onError(err, context) *)
| EDelay (ms : Number)                   (* setTimeout(resolve, ms) *)
| ECompensate (record : CompensationRecord) (* comp.action(context) *)
| EConsoleError (state message : string). (* console.error(...) *)

(** ** The effect monad

    A computation runs on a state, yields a result and the state it leaves
    behind.  A JavaScript exception keeps the mutations made before it was
    raised, so the state is returned on every outcome.  [Crash] is an outcome
    of the model only (a dangling reference, a loop out of fuel); no handler
    catches it. *)

Inductive Res (A : Type) :=
| Ok (a : A)
| Throw (message : string)
| Crash.
Arguments Ok {A} a.
Arguments Throw {A} message.
Arguments Crash {A}.

Definition M (S A : Type) : Type := S -> Res A * S.

Definition ret {S A} (a : A) : M S A := fun s => (Ok a, s).

Definition bind {S A B} (m : M S A) (k : A -> M S B) : M S B :=
  fun s =>
    match m s with
    | (Ok a, s') => k a s'
    | (Throw e, s') => (Throw e, s')
    | (Crash, s') => (Crash, s')
    end.

Definition throw {S A} (message : string) : M S A := fun s => (Throw message, s).

Definition crash {S A} : M S A := fun s => (Crash, s).

(** [try { m } catch (e) { h e }] *)
Definition catch {S A} (m : M S A) (h : string -> M S A) : M S A :=
  fun s =>
    match m s with
    | (Throw e, s') => h e s'
    | r => r
    end.

(** The outcome of [m] as a value: [inl] for a normal return, [inr] for the
    message of what was raised. *)
Definition outcomeOf {S A} (m : M S A) : M S (A + string) :=
  catch (bind m (fun a => ret (inl a))) (fun e => ret (inr e)).

Definition gets {S A} (f : S -> A) : M S A := fun s => (Ok (f s), s).

Definition modify {S} (f : S -> S) : M S unit := fun s => (Ok tt, f s).

Declare Scope monad_scope.
Delimit Scope monad_scope with monad.
Notation "x <- m ;; k" := (bind m (fun x => k))
  (at level 20, m at level 99, k at level 200, only parsing) : monad_scope.
Notation "m ;; k" := (bind m (fun _ => k))
  (at level 100, k at level 200, only parsing, right associativity) : monad_scope.
Open Scope monad_scope.

(** [for (const x of xs) { f x }] *)
Fixpoint forEach {S A} (f : A -> M S unit) (xs : list A) : M S unit :=
  match xs with
  | [] => ret tt
  | x :: rest => f x ;; forEach f rest
  end.

(** [xs.map(f)] for an effectful [f], left to right. *)
Fixpoint mapM {S A B} (f : A -> M S B) (xs : list A) : M S (list B) :=
  match xs with
  | [] => ret []
  | x :: rest => y <- f x ;; ys <- mapM f rest ;; ret (y :: ys)
  end.

(** [xs.filter(f)] for an effectful [f], left to right. *)
Fixpoint filterM {S A} (f : A -> M S bool) (xs : list A) : M S (list A) :=
  match xs with
  | [] => ret []
  | x :: rest =>
      keep <- f x ;;
      ys <- filterM f rest ;;
      ret (if keep then x :: ys else ys)
  end.

(** ** state-machine.ts *)

Module StateMachine.

(** [string | string[]]: a state name or the list of active region states. *)
Inductive StateRef :=
| Single (name : string)
| Multi (names : list string).

Inductive BackoffStrategy := Linear | Exponential.

(** [maxAttempts] counts attempts and is held as an integer; [delayMs] is
    any double. *)
Record RetryConfig := {
  maxAttempts : option Z;
  backoff : option BackoffStrategy;
  delayMs : option Number
}.

(** [{}], the retry configuration of a transition that declares none. *)
Definition noRetry : RetryConfig :=
  {| maxAttempts := None; backoff := None; delayMs := None |}.

Record Transition := {
  t_from : option string;
  t_event : string;
  t_to : string;
  t_guard : option (Callback bool);
  t_action : option (Callback unit);
  t_retry : option RetryConfig
}.

(** What a validation function returns: [boolean | string]. *)
Inductive ValidationResult :=
| VRBool (b : bool)
| VRString (s : string).

Record ValidationConfig := {
  validate : Callback ValidationResult;
  errorMessage : option string
}.

Inductive AtomicType := TAtomic | TFinal.

Record State := {
  s_name : string;
  s_type : option AtomicType;
  s_transitions : option (list Transition);
  s_onEntry : option (Callback unit);
  s_onExit : option (Callback unit);
  s_isFinal : option bool;
  s_validation : option ValidationConfig
}.

Record ParallelRegion := {
  r_name : string;
  r_initialState : string;
  r_states : list string
}.

Record ParallelState := {
  p_name : string;
  p_regions : list ParallelRegion;
  p_onEntry : option (Callback unit);
  p_onExit : option (Callback unit);
  p_transitions : option (list Transition)
}.

Record CompoundState := {
  c_name : string;
  c_initialState : string;
  c_states : list string;
  c_onEntry : option (Callback unit);
  c_onExit : option (Callback unit);
  c_isFinal : option bool
}.

(** [StateNode = State | ParallelState | CompoundState], told apart by the
    [type] field: ['parallel'], ['compound'], and for a [State] an absent
    type, ['atomic'] or ['final']. *)
Inductive StateNode :=
| Atomic (s : State)
| Parallel (p : ParallelState)
| Compound (c : CompoundState).

Record StateMachineConfig := {
  id : string;
  version : option string;
  initialState : string;
  states : gmap string StateNode;
  transitions : option (list Transition);
  onError : option (string -> Callback unit)
}.

Record TransitionResult := {
  success : bool;
  fromState : StateRef;
  toState : StateRef;
  event : string;
  error : option string
}.

Definition isParallelState (state : StateNode) : bool :=
  match state with Parallel _ => true | _ => false end.

Definition isCompoundState (state : StateNode) : bool :=
  match state with Compound _ => true | _ => false end.

(** [!('type' in state) || state.type === 'atomic'] *)
Definition isAtomicState (state : StateNode) : bool :=
  match state with
  | Atomic s =>
      match s_type s with
      | None => true
      | Some TAtomic => true
      | Some TFinal => false
      end
  | _ => false
  end.

Definition onExitOf (state : StateNode) : option (Callback unit) :=
  match state with
  | Atomic s => s_onExit s
  | Parallel p => p_onExit p
  | Compound c => c_onExit c
  end.

Definition onEntryOf (state : StateNode) : option (Callback unit) :=
  match state with
  | Atomic s => s_onEntry s
  | Parallel p => p_onEntry p
  | Compound c => c_onEntry c
  end.

(** ['validation' in targetState && targetState.validation] *)
Definition validationOf (state : StateNode) : option ValidationConfig :=
  match state with
  | Atomic s => s_validation s
  | _ => None
  end.

(** The state a [StateMachine] works on: the context object it was handed,
    the clock, and the trace of effects. *)
Record SMState := {
  sm_context : Context;
  sm_clock : Z;
  sm_trace : list Effect
}.

Definition emit (e : Effect) : M SMState unit :=
  modify (fun s => {| sm_context := sm_context s; sm_clock := sm_clock s;
                      sm_trace := sm_trace s ++ [e] |}).

(** [await f(context)] *)
Definition call {R} (f : Callback R) : M SMState R :=
  fun s =>
    let (c, out) := f (sm_context s) in
    let s' := {| sm_context := c; sm_clock := sm_clock s; sm_trace := sm_trace s |} in
    match out with
    | inl r => (Ok r, s')
    | inr e => (Throw e, s')
    end.

(** [await new Promise(resolve => setTimeout(resolve, ms))] *)
Definition sleep (ms : Number) : M SMState unit :=
  modify (fun s => {| sm_context := sm_context s;
                      sm_clock := sm_clock s + timerDuration ms;
                      sm_trace := sm_trace s ++ [EDelay ms] |}).

(** *** Calls in flight

    A call of an [async] function runs until its first [await], and from
    then on one turn at a time, whenever the event loop resumes it; between
    two turns the other calls in flight have theirs, on the same context
    object.  [Task] is a call between two turns: settled, waiting for a turn
    of the microtask queue, or waiting for a timer.  Callbacks are
    synchronous functions (a call returns or raises at once), so the code
    between two awaits is one step.  What is proved of calls in flight is
    proved for every state a call may be resumed on, hence for every order
    and number of turns the other calls take in between. *)

#[warnings="-register-all"]
Inductive Task (A : Type) : Type :=
| Settled (outcome : Res A)
| Awaiting (resume : SMState -> Task A * SMState)
| Sleeping (delay : Number) (resume : SMState -> Task A * SMState).
Arguments Settled {A} outcome.
Arguments Awaiting {A} resume.
Arguments Sleeping {A} delay resume.

(** A call that has not started yet: started on a state, it runs its first
    turn. *)
Definition Async (A : Type) : Type := SMState -> Task A * SMState.

(** A step without suspension. *)
Definition now {A} (m : M SMState A) : Async A :=
  fun s => let (r, s') := m s in (Settled r, s').

(** One turn of the microtask queue. *)
Definition yield : Async unit :=
  fun s => (Awaiting (fun s' => (Settled (Ok tt), s')), s).

(** The rest of a call once the task [t] has settled. *)
Fixpoint andThen {A B} (t : Task A) (k : Res A -> Async B) : Async B :=
  fun s =>
    match t with
    | Settled r => k r s
    | Awaiting resume =>
        (Awaiting (fun s' => let (t', s'') := resume s' in andThen t' k s''), s)
    | Sleeping delay resume =>
        (Sleeping delay (fun s' => let (t', s'') := resume s' in andThen t' k s''), s)
    end.

Definition bindA {A B} (m : Async A) (k : A -> Async B) : Async B :=
  fun s =>
    let (t, s') := m s in
    andThen t (fun r => match r with
                        | Ok a => k a
                        | Throw e => now (throw e)
                        | Crash => now crash
                        end) s'.

(** [try { m } catch (e) { h e }] *)
Definition catchA {A} (m : Async A) (h : string -> Async A) : Async A :=
  fun s =>
    let (t, s') := m s in
    andThen t (fun r => match r with
                        | Throw e => h e
                        | _ => now (fun s0 => (r, s0))
                        end) s'.

Declare Scope async_scope.
Delimit Scope async_scope with async.
Notation "x <- m ;; k" := (bindA m (fun x => k))
  (at level 20, m at level 99, k at level 200, only parsing) : async_scope.
Notation "m ;; k" := (bindA m (fun _ => k))
  (at level 100, k at level 200, only parsing, right associativity) : async_scope.

(** [await f(context)] for a callback [f]: the call; when it has returned,
    a turn of the microtask queue before its value is read; when it raised,
    no turn. *)
Definition await {A} (m : M SMState A) : Async A :=
  (r <- now m ;; yield ;; now (ret r))%async.

(** [await g(...)] for an [async] function [g]: the call as far as it runs;
    once it has settled, a turn of the microtask queue before its outcome,
    value or exception, is read. *)
Definition awaitAsync {A} (m : Async A) : Async A :=
  fun s =>
    let (t, s') := m s in
    andThen t (fun r => (yield ;; now (fun s0 => (r, s0)))%async) s'.

(** [await new Promise(resolve => setTimeout(resolve, ms))] *)
Definition sleepA (ms : Number) : Async unit :=
  fun s =>
    (Sleeping ms (fun s' => (Settled (Ok tt), s')),
     {| sm_context := sm_context s; sm_clock := sm_clock s;
        sm_trace := sm_trace s ++ [EDelay ms] |}).

Definition retA {A} (a : A) : Async A := now (ret a).

Definition throwA {A} (message : string) : Async A := now (throw message).

(** The outcome of [m] as a value, as [outcomeOf]. *)
Definition outcomeOfA {A} (m : Async A) : Async (A + string) :=
  catchA (a <- m ;; retA (inl a))%async (fun e => retA (inr e)).

(** A call run alone: every await is resumed at once, every timer is what
    advances the clock. *)
Fixpoint finish {A} (t : Task A) (s : SMState) : Res A * SMState :=
  match t with
  | Settled r => (r, s)
  | Awaiting resume => let (t', s') := resume s in finish t' s'
  | Sleeping delay resume =>
      let (t', s') :=
        resume {| sm_context := sm_context s;
                  sm_clock := sm_clock s + timerDuration delay;
                  sm_trace := sm_trace s |} in
      finish t' s'
  end.

Definition alone {A} (m : Async A) : M SMState A :=
  fun s => let (t, s') := m s in finish t s'.

(** *** The event loop

    The calls started together ([xs.map(x => f(x))]) are resumed by the event
    loop until all have settled: the microtask queue first, in the order the
    calls were suspended; once it is empty, the timer that is due first (of
    two due at the same time, the one set first), which moves the clock to
    its expiry. *)

(** A suspended call: its position among the calls, and what resumes it. *)
Definition Suspended (A : Type) : Type := nat * (SMState -> Task A * SMState).

Record Loop (A : Type) := {
  outcomes : list (option (Res A));
  microtasks : list (Suspended A);
  timers : list (Z * Suspended A)
}.
Arguments outcomes {A} _.
Arguments microtasks {A} _.
Arguments timers {A} _.

(** What becomes of call [i] at the end of a turn that left it as [t]. *)
Definition place {A} (i : nat) (t : Task A) (clock : Z) (loop : Loop A) : Loop A :=
  match t with
  | Settled r =>
      {| outcomes := <[i := Some r]> (outcomes loop);
         microtasks := microtasks loop; timers := timers loop |}
  | Awaiting resume =>
      {| outcomes := outcomes loop;
         microtasks := microtasks loop ++ [(i, resume)]; timers := timers loop |}
  | Sleeping delay resume =>
      {| outcomes := outcomes loop;
         microtasks := microtasks loop;
         timers := timers loop ++ [(clock + timerDuration delay, (i, resume))] |}
  end.

(** The calls are started one after the other, each running its first
    turn. *)
Fixpoint startAll {A} (calls : list (Async A)) (i : nat) (loop : Loop A)
    (s : SMState) : Loop A * SMState :=
  match calls with
  | [] => (loop, s)
  | call :: rest =>
      let (t, s') := call s in
      startAll rest (S i) (place i t (sm_clock s') loop) s'
  end.

(** The timer due first, and the others. *)
Fixpoint dueFirst {A} (pending : list (Z * Suspended A))
  : option ((Z * Suspended A) * list (Z * Suspended A)) :=
  match pending with
  | [] => None
  | timer :: rest =>
      match dueFirst rest with
      | Some (best, others) =>
          if fst best <? fst timer then Some (best, timer :: others)
          else Some (timer, rest)
      | None => Some (timer, [])
      end
  end.

(** The outcomes, once every call has one. *)
Fixpoint allSettled {A} (outcomes : list (option (Res A)))
  : option (list (Res A)) :=
  match outcomes with
  | [] => Some []
  | Some r :: rest =>
      match allSettled rest with
      | Some rs => Some (r :: rs)
      | None => None
      end
  | None :: _ => None
  end.

(** The turns of the event loop.  [fuel] bounds the turns of the model. *)
Fixpoint turns {A} (fuel : nat) (loop : Loop A) (s : SMState)
  : Res (list (Res A)) * SMState :=
  match microtasks loop with
  | (i, resume) :: queued =>
      match fuel with
      | O => (Crash, s)
      | S fuel' =>
          let (t, s') := resume s in
          turns fuel'
            (place i t (sm_clock s')
               {| outcomes := outcomes loop; microtasks := queued;
                  timers := timers loop |}) s'
      end
  | [] =>
      match dueFirst (timers loop) with
      | Some ((expiry, (i, resume)), others) =>
          match fuel with
          | O => (Crash, s)
          | S fuel' =>
              let (t, s') :=
                resume {| sm_context := sm_context s;
                          sm_clock := Z.max (sm_clock s) expiry;
                          sm_trace := sm_trace s |} in
              turns fuel'
                (place i t (sm_clock s')
                   {| outcomes := outcomes loop; microtasks := [];
                      timers := others |}) s'
          end
      | None =>
          match allSettled (outcomes loop) with
          | Some settled => (Ok settled, s)
          | None => (Crash, s)
          end
      end
  end.

(** The calls started together and run until all have settled: their
    outcomes, in the order of the calls. *)
Definition eventLoop {A} (fuel : nat) (calls : list (Async A))
  : M SMState (list (Res A)) :=
  fun s =>
    let (loop, s') :=
      startAll calls 0
        {| outcomes := replicate (length calls) None; microtasks := [];
           timers := [] |} s in
    turns fuel loop s'.

Section Machine.

Variable config : StateMachineConfig.

(** The constructor copies [config.states] into [stateMap]. *)
Definition stateMap : gmap string StateNode := states config.

Definition getInitialState : string := initialState config.

Definition getState (name : string) : option StateNode := stateMap !! name.

(** The test of [getTransitions] on a global transition:
    [stateName === t.from || stateName.endsWith(`.${t.from}`)]. *)
Definition appliesTo (stateName : string) (t : Transition) : bool :=
  match t_from t with
  | Some f => String.eqb stateName f || endsWith stateName ("." +:+ f)
  | None => endsWith stateName ".undefined"
  end.

Definition getTransitions (stateName : string) : list Transition :=
  match stateMap !! stateName with
  | None => []
  | Some state =>
      let stateLevel :=
        match state with
        | Atomic s =>
            if isAtomicState state then default [] (s_transitions s) else []
        | Parallel p => default [] (p_transitions p)
        | Compound _ => []
        end in
      let globalTransitions :=
        match transitions config with
        | Some ts => List.filter (appliesTo stateName) ts
        | None => []
        end in
      stateLevel ++ globalTransitions
  end.

(** The loop of [findTransition] over the candidates. *)
Fixpoint findIn (candidates : list Transition) (ev : string)
  : M SMState (option Transition) :=
  match candidates with
  | [] => ret None
  | transition :: rest =>
      if String.eqb (t_event transition) ev then
        match t_guard transition with
        | Some guard =>
            allowed <- catch (call guard) (fun _ => ret false) ;;
            if allowed then ret (Some transition) else findIn rest ev
        | None => ret (Some transition)
        end
      else findIn rest ev
  end.

Definition findTransition (currentState ev : string)
  : M SMState (option Transition) :=
  match stateMap !! currentState with
  | None => ret None
  | Some _ => findIn (getTransitions currentState) ev
  end.

Definition failure (currentState ev message : string) : TransitionResult :=
  {| success := false;
     fromState := Single currentState;
     toState := Single currentState;
     event := ev;
     error := Some message |}.

(** The body of the [try] block of one attempt: exit action, transition
    action, validation of the target state, entry action. *)
Definition attemptBody (state : StateNode) (transition : Transition)
    (currentState : string) : M SMState unit :=
  (match onExitOf state with
   | Some h => emit (EExit currentState) ;; call h
   | None => ret tt
   end) ;;
  (match t_action transition with
   | Some a => emit (EAction (t_event transition) (t_to transition)) ;; call a
   | None => ret tt
   end) ;;
  match stateMap !! t_to transition with
  | None => throw ("Target state " +:+ dq +:+ t_to transition +:+ dq +:+ " not found")
  | Some targetState =>
      (match validationOf targetState with
       | Some v =>
           emit (EValidate (t_to transition)) ;;
           validationResult <- call (validate v) ;;
           match validationResult with
           | VRBool true => ret tt
           | VRBool false =>
               throw (strOr (errorMessage v)
                        ("Validation failed for state " +:+ dq +:+ t_to transition +:+ dq))
           | VRString s => throw s
           end
       | None => ret tt
       end) ;;
      match onEntryOf targetState with
      | Some h => emit (EEntry (t_to transition)) ;; call h
      | None => ret tt
      end
  end.

(** The backoff delay computed after a failed attempt,
    [delayMs * Math.pow(2, attempt)] or [delayMs * (attempt + 1)]: a product
    of doubles. *)
Definition backoffDelay (strategy : BackoffStrategy) (delay : Number) (attempt : Z)
  : Number :=
  match strategy with
  | Exponential => times delay (pow2 attempt)
  | Linear => times delay (num (attempt + 1))
  end.

(** [for (let attempt = 0; attempt <= maxAttempts; attempt++)].  The loop
    leaves either by the [return] of a successful attempt ([inl]) or by its
    condition, with [lastError] ([inr]).  [fuel] bounds the iterations of the
    model; [executeTransition] supplies enough of it. *)
Fixpoint attemptLoop (state : StateNode) (transition : Transition)
    (currentState ev : string) (max : Z) (strategy : BackoffStrategy)
    (delay : Number)
    (fuel : nat) (attempt : Z) (lastError : option string)
  : M SMState (TransitionResult + option string) :=
  if attempt <=? max then
    match fuel with
    | O => crash
    | S fuel' =>
        outcome <- outcomeOf (attemptBody state transition currentState) ;;
        match outcome with
        | inl _ =>
            ret (inl {| success := true;
                        fromState := Single currentState;
                        toState := Single (t_to transition);
                        event := ev;
                        error := None |})
        | inr e =>
            (if attempt <? max
             then sleep (backoffDelay strategy delay attempt)
             else ret tt) ;;
            attemptLoop state transition currentState ev max strategy delay
              fuel' (attempt + 1) (Some e)
        end
    end
  else ret (inr lastError).

Definition executeTransition (currentState ev : string)
  : M SMState TransitionResult :=
  match stateMap !! currentState with
  | None =>
      ret (failure currentState ev
             ("State " +:+ dq +:+ currentState +:+ dq +:+ " not found"))
  | Some state =>
      found <- findTransition currentState ev ;;
      match found with
      | None =>
          ret (failure currentState ev
                 ("No valid transition for event " +:+ dq +:+ ev +:+ dq
                  +:+ " from state " +:+ dq +:+ currentState +:+ dq))
      | Some transition =>
          let retryConfig := default noRetry (t_retry transition) in
          let max := numOr (maxAttempts retryConfig) 0 in
          let strategy := default Linear (backoff retryConfig) in
          let delay := numberOr (delayMs retryConfig) (num 1000) in
          looped <- attemptLoop state transition currentState ev max strategy
                      delay (Z.to_nat (max + 1)) 0 None ;;
          match looped with
          | inl result => ret result
          | inr lastError =>
              let err := default "Unknown error during transition" lastError in
              (match onError config with
               | Some handler =>
                   catch (emit (EOnError err) ;; call (handler err))
                         (fun _ => ret tt)
               | None => ret tt
               end) ;;
              ret (failure currentState ev err)
          end
      end
  end.

Definition isFinalState (stateName : string) : bool :=
  match stateMap !! stateName with
  | None => false
  | Some state =>
      match state with
      | Atomic s =>
          match s_type s with
          | Some TFinal => true
          | _ => bool_decide (s_isFinal s = Some true)
          end
      | Compound c => bool_decide (c_isFinal c = Some true)
      | Parallel _ => false
      end
  end.

(** [this.stateMap.has(name)] *)
Definition hasState (name : string) : bool :=
  bool_decide (is_Some (stateMap !! name)).

(** The checks [validate] makes on one entry of [config.states]: the initial
    state and the children of a compound state, the initial state and the
    states of every region of a parallel state, the targets of the
    transitions of an atomic state. *)
Definition validateState {S} (name : string) (state : StateNode) : M S unit :=
  match state with
  | Compound c =>
      (if hasState (c_initialState c) then ret tt
       else throw ("Initial state " +:+ dq +:+ c_initialState c +:+ dq
                   +:+ " not found in compound state " +:+ dq +:+ name +:+ dq)) ;;
      forEach
        (fun childStateName =>
           if hasState childStateName then ret tt
           else throw ("Child state " +:+ dq +:+ childStateName +:+ dq
                       +:+ " not found in compound state " +:+ dq +:+ name +:+ dq))
        (c_states c)
  | Parallel p =>
      forEach
        (fun region =>
           (if hasState (r_initialState region) then ret tt
            else throw ("Initial state " +:+ dq +:+ r_initialState region +:+ dq
                        +:+ " not found in parallel region " +:+ dq
                        +:+ r_name region +:+ dq)) ;;
           forEach
             (fun childStateName =>
                if hasState childStateName then ret tt
                else throw ("State " +:+ dq +:+ childStateName +:+ dq
                            +:+ " not found in parallel region " +:+ dq
                            +:+ r_name region +:+ dq))
             (r_states region))
        (p_regions p)
  | Atomic s =>
      if isAtomicState state then
        forEach
          (fun transition =>
             if hasState (t_to transition) then ret tt
             else throw ("Transition target " +:+ dq +:+ t_to transition +:+ dq
                         +:+ " from state " +:+ dq +:+ name +:+ dq
                         +:+ " does not exist"))
          (default [] (s_transitions s))
      else ret tt
  end.

(** [validate()], which the constructor runs once [stateMap] is built.  The
    entries of [config.states] are visited in the order the map enumerates
    them; the order decides only which of several violations is reported. *)
Definition validate_ {S} : M S unit :=
  (if hasState (initialState config) then ret tt
   else throw ("Initial state " +:+ dq +:+ initialState config +:+ dq
               +:+ " not found in states")) ;;
  forEach
    (fun transition =>
       if hasState (t_to transition) then ret tt
       else throw ("Transition target " +:+ dq +:+ t_to transition +:+ dq
                   +:+ " does not exist"))
    (default [] (transitions config)) ;;
  forEach (fun entry => validateState (fst entry) (snd entry))
    (map_to_list (states config)).

End Machine.

(** *** The methods turn by turn

    [findTransition] and [executeTransition] once more, with the awaits of
    the source where they stand: what the event loop interleaves when
    several calls are in flight on one context.  Run alone, a call is the
    computation above. *)

Module Stepwise.
Section Machine.

Variable config : StateMachineConfig.

#[local] Open Scope async_scope.

Fixpoint findIn (candidates : list Transition) (ev : string)
  : Async (option Transition) :=
  match candidates with
  | [] => retA None
  | transition :: rest =>
      if String.eqb (t_event transition) ev then
        match t_guard transition with
        | Some guard =>
            allowed <- catchA (await (call guard)) (fun _ => retA false) ;;
            if allowed then retA (Some transition) else findIn rest ev
        | None => retA (Some transition)
        end
      else findIn rest ev
  end.

Definition findTransition (currentState ev : string)
  : Async (option Transition) :=
  match stateMap config !! currentState with
  | None => retA None
  | Some _ => findIn (getTransitions config currentState) ev
  end.

Definition attemptBody (state : StateNode) (transition : Transition)
    (currentState : string) : Async unit :=
  (match onExitOf state with
   | Some h => await (emit (EExit currentState) ;; call h)%monad
   | None => retA tt
   end) ;;
  (match t_action transition with
   | Some a =>
       await (emit (EAction (t_event transition) (t_to transition)) ;; call a)%monad
   | None => retA tt
   end) ;;
  match stateMap config !! t_to transition with
  | None => throwA ("Target state " +:+ dq +:+ t_to transition +:+ dq +:+ " not found")
  | Some targetState =>
      (match validationOf targetState with
       | Some v =>
           validationResult <-
             await (emit (EValidate (t_to transition)) ;; call (validate v))%monad ;;
           match validationResult with
           | VRBool true => retA tt
           | VRBool false =>
               throwA (strOr (errorMessage v)
                         ("Validation failed for state " +:+ dq +:+ t_to transition +:+ dq))
           | VRString s => throwA s
           end
       | None => retA tt
       end) ;;
      match onEntryOf targetState with
      | Some h => await (emit (EEntry (t_to transition)) ;; call h)%monad
      | None => retA tt
      end
  end.

Fixpoint attemptLoop (state : StateNode) (transition : Transition)
    (currentState ev : string) (max : Z) (strategy : BackoffStrategy)
    (delay : Number)
    (fuel : nat) (attempt : Z) (lastError : option string)
  : Async (TransitionResult + option string) :=
  if attempt <=? max then
    match fuel with
    | O => now crash
    | S fuel' =>
        outcome <- outcomeOfA (attemptBody state transition currentState) ;;
        match outcome with
        | inl _ =>
            retA (inl {| success := true;
                         fromState := Single currentState;
                         toState := Single (t_to transition);
                         event := ev;
                         error := None |})
        | inr e =>
            (if attempt <? max
             then sleepA (backoffDelay strategy delay attempt)
             else retA tt) ;;
            attemptLoop state transition currentState ev max strategy delay
              fuel' (attempt + 1) (Some e)
        end
    end
  else retA (inr lastError).

Definition executeTransition (currentState ev : string)
  : Async TransitionResult :=
  match stateMap config !! currentState with
  | None =>
      retA (failure currentState ev
              ("State " +:+ dq +:+ currentState +:+ dq +:+ " not found"))
  | Some state =>
      found <- awaitAsync (findTransition currentState ev) ;;
      match found with
      | None =>
          retA (failure currentState ev
                  ("No valid transition for event " +:+ dq +:+ ev +:+ dq
                   +:+ " from state " +:+ dq +:+ currentState +:+ dq))
      | Some transition =>
          let retryConfig := default noRetry (t_retry transition) in
          let max := numOr (maxAttempts retryConfig) 0 in
          let strategy := default Linear (backoff retryConfig) in
          let delay := numberOr (delayMs retryConfig) (num 1000) in
          looped <- attemptLoop state transition currentState ev max strategy
                      delay (Z.to_nat (max + 1)) 0 None ;;
          match looped with
          | inl result => retA result
          | inr lastError =>
              let err := default "Unknown error during transition" lastError in
              (match onError config with
               | Some handler =>
                   catchA (await (emit (EOnError err) ;; call (handler err))%monad)
                          (fun _ => retA tt)
               | None => retA tt
               end) ;;
              retA (failure currentState ev err)
          end
      end
  end.

(** The largest [maxAttempts] among the candidates. *)
Definition maxRetries (candidates : list Transition) : Z :=
  foldr (fun t acc => Z.max (numOr (maxAttempts (default noRetry (t_retry t))) 0) acc)
    0 candidates.

(** A number of turns no call of [executeTransition] on [stateName]
    exceeds: one for each guard, one for [findTransition], five for each
    attempt (four hooks and a timer), one for the error handler. *)
Definition turnsOf (stateName : string) : nat :=
  let candidates := getTransitions config stateName in
  (length candidates + 1 + Z.to_nat (maxRetries candidates + 1) * 5 + 1)%nat.

End Machine.
End Stepwise.

End StateMachine.

(** ** storage.ts *)

Module Storage.
Import StateMachine.

Inductive Status := Active | Completed | Failed | Paused | Compensating.

#[global] Instance Status_eq_dec : EqDecision Status.
Proof. solve_decision. Defined.

(** The string a status is in the source. *)
Definition statusName (s : Status) : string :=
  match s with
  | Active => "active"
  | Completed => "completed"
  | Failed => "failed"
  | Paused => "paused"
  | Compensating => "compensating"
  end.

Record HistoryEntry := {
  h_from : StateRef;
  h_to : StateRef;
  h_timestamp : Z;
  h_event : option string
}.

Record ErrorInfo := {
  e_message : string;
  e_state : StateRef;
  e_timestamp : Z
}.

(** A reference to a heap object. *)
Definition loc := nat.

(** The fields of a [FlowState] object.  [context], [history] and
    [compensations] hold references: the objects behind them are shared by
    every copy of the flow state made with a spread.  Arrays held in
    [currentState] are never updated in place by the source, which replaces
    them, so they are kept as values.  [subFlows] and [templateParams], which
    no operation modelled here reads, are left out. *)
Record FlowState := {
  flowId : string;
  flowDefinitionId : string;
  version : option string;
  currentState : StateRef;
  context : loc;
  createdAt : Z;
  updatedAt : Z;
  history : loc;
  status : Status;
  error : option ErrorInfo;
  compensations : option loc;
  parentFlowId : option string
}.

Definition setCurrentState (v : StateRef) (f : FlowState) : FlowState :=
  {| flowId := flowId f; flowDefinitionId := flowDefinitionId f;
     version := version f; currentState := v; context := context f;
     createdAt := createdAt f; updatedAt := updatedAt f; history := history f;
     status := status f; error := error f; compensations := compensations f;
     parentFlowId := parentFlowId f |}.

Definition setUpdatedAt (v : Z) (f : FlowState) : FlowState :=
  {| flowId := flowId f; flowDefinitionId := flowDefinitionId f;
     version := version f; currentState := currentState f; context := context f;
     createdAt := createdAt f; updatedAt := v; history := history f;
     status := status f; error := error f; compensations := compensations f;
     parentFlowId := parentFlowId f |}.

Definition setStatus (v : Status) (f : FlowState) : FlowState :=
  {| flowId := flowId f; flowDefinitionId := flowDefinitionId f;
     version := version f; currentState := currentState f; context := context f;
     createdAt := createdAt f; updatedAt := updatedAt f; history := history f;
     status := v; error := error f; compensations := compensations f;
     parentFlowId := parentFlowId f |}.

Definition setError (v : option ErrorInfo) (f : FlowState) : FlowState :=
  {| flowId := flowId f; flowDefinitionId := flowDefinitionId f;
     version := version f; currentState := currentState f; context := context f;
     createdAt := createdAt f; updatedAt := updatedAt f; history := history f;
     status := status f; error := v; compensations := compensations f;
     parentFlowId := parentFlowId f |}.

Definition setContext (v : loc) (f : FlowState) : FlowState :=
  {| flowId := flowId f; flowDefinitionId := flowDefinitionId f;
     version := version f; currentState := currentState f; context := v;
     createdAt := createdAt f; updatedAt := updatedAt f; history := history f;
     status := status f; error := error f; compensations := compensations f;
     parentFlowId := parentFlowId f |}.

Definition setCompensations (v : option loc) (f : FlowState) : FlowState :=
  {| flowId := flowId f; flowDefinitionId := flowDefinitionId f;
     version := version f; currentState := currentState f; context := context f;
     createdAt := createdAt f; updatedAt := updatedAt f; history := history f;
     status := status f; error := error f; compensations := v;
     parentFlowId := parentFlowId f |}.

(** The state of the program: the heaps of the objects the code shares, the
    two maps of [InMemoryStateStorage], the clock and the effect trace.
    [cells] holds local variables captured by closures. *)
Record World := {
  flows : list FlowState;
  contexts : list Context;
  histories : list (list HistoryEntry);
  compensationLists : list (list CompensationRecord);
  cells : list nat;
  states : list (string * loc);
  idempotencyKeys : gmap string string;
  clock : Z;
  trace : list Effect
}.

Definition setFlows (v : list FlowState) (w : World) : World :=
  {| flows := v; contexts := contexts w; histories := histories w;
     compensationLists := compensationLists w; cells := cells w;
     states := states w; idempotencyKeys := idempotencyKeys w;
     clock := clock w; trace := trace w |}.

Definition setContexts (v : list Context) (w : World) : World :=
  {| flows := flows w; contexts := v; histories := histories w;
     compensationLists := compensationLists w; cells := cells w;
     states := states w; idempotencyKeys := idempotencyKeys w;
     clock := clock w; trace := trace w |}.

Definition setHistories (v : list (list HistoryEntry)) (w : World) : World :=
  {| flows := flows w; contexts := contexts w; histories := v;
     compensationLists := compensationLists w; cells := cells w;
     states := states w; idempotencyKeys := idempotencyKeys w;
     clock := clock w; trace := trace w |}.

Definition setCompensationLists (v : list (list CompensationRecord)) (w : World)
  : World :=
  {| flows := flows w; contexts := contexts w; histories := histories w;
     compensationLists := v; cells := cells w;
     states := states w; idempotencyKeys := idempotencyKeys w;
     clock := clock w; trace := trace w |}.

Definition setCells (v : list nat) (w : World) : World :=
  {| flows := flows w; contexts := contexts w; histories := histories w;
     compensationLists := compensationLists w; cells := v;
     states := states w; idempotencyKeys := idempotencyKeys w;
     clock := clock w; trace := trace w |}.

Definition setStates (v : list (string * loc)) (w : World) : World :=
  {| flows := flows w; contexts := contexts w; histories := histories w;
     compensationLists := compensationLists w; cells := cells w;
     states := v; idempotencyKeys := idempotencyKeys w;
     clock := clock w; trace := trace w |}.

Definition setIdempotencyKeys (v : gmap string string) (w : World) : World :=
  {| flows := flows w; contexts := contexts w; histories := histories w;
     compensationLists := compensationLists w; cells := cells w;
     states := states w; idempotencyKeys := v;
     clock := clock w; trace := trace w |}.

Definition setClock (v : Z) (w : World) : World :=
  {| flows := flows w; contexts := contexts w; histories := histories w;
     compensationLists := compensationLists w; cells := cells w;
     states := states w; idempotencyKeys := idempotencyKeys w;
     clock := v; trace := trace w |}.

Definition setTrace (v : list Effect) (w : World) : World :=
  {| flows := flows w; contexts := contexts w; histories := histories w;
     compensationLists := compensationLists w; cells := cells w;
     states := states w; idempotencyKeys := idempotencyKeys w;
     clock := clock w; trace := v |}.

(** A heap of the world, given by its projection and its update. *)
Record Heap (A : Type) := {
  cellsOf : World -> list A;
  withCells : list A -> World -> World
}.
Arguments cellsOf {A} _ _.
Arguments withCells {A} _ _ _.

Definition flowsH : Heap FlowState := {| cellsOf := flows; withCells := setFlows |}.
Definition contextsH : Heap Context := {| cellsOf := contexts; withCells := setContexts |}.
Definition historiesH : Heap (list HistoryEntry) :=
  {| cellsOf := histories; withCells := setHistories |}.
Definition compensationsH : Heap (list CompensationRecord) :=
  {| cellsOf := compensationLists; withCells := setCompensationLists |}.
Definition cellsH : Heap nat := {| cellsOf := cells; withCells := setCells |}.

(** A new object. *)
Definition alloc {A} (h : Heap A) (x : A) : M World loc :=
  fun w => (Ok (length (cellsOf h w)), withCells h (cellsOf h w ++ [x]) w).

(** Reading through a reference. *)
Definition load {A} (h : Heap A) (l : loc) : M World A :=
  fun w =>
    match cellsOf h w !! l with
    | Some x => (Ok x, w)
    | None => (Crash, w)
    end.

(** Updating the object behind a reference in place. *)
Definition store {A} (h : Heap A) (l : loc) (x : A) : M World unit :=
  fun w =>
    match cellsOf h w !! l with
    | Some _ => (Ok tt, withCells h (<[l := x]> (cellsOf h w)) w)
    | None => (Crash, w)
    end.

Definition update {A} (h : Heap A) (l : loc) (f : A -> A) : M World unit :=
  x <- load h l ;; store h l (f x).

(** *** InMemoryStateStorage *)

(** [this.states.set(state.flowId, { ...state })] *)
Definition save (state : loc) : M World unit :=
  fs <- load flowsH state ;;
  copy <- alloc flowsH fs ;;
  modify (fun w => setStates (mapSet (flowId fs) copy (states w)) w).

(** [const state = this.states.get(flowId); return state ? { ...state } : null] *)
Definition get (flowId : string) : M World (option loc) :=
  stored <- gets (fun w => mapGet flowId (states w)) ;;
  match stored with
  | Some state =>
      fs <- load flowsH state ;;
      copy <- alloc flowsH fs ;;
      ret (Some copy)
  | None => ret None
  end.

Definition delete (flowId : string) : M World unit :=
  modify (fun w => setStates (mapDelete flowId (states w)) w).

Definition exists_ (flowId : string) : M World bool :=
  gets (fun w => mapHas flowId (states w)).

Record ListFilter := {
  f_status : option Status;
  f_flowDefinitionId : option string;
  f_version : option string;
  f_parentFlowId : option string;
  f_currentState : option StateRef
}.

(** The predicate of the [currentState] filter of [list]. *)
Definition currentStateMatches (targetState : StateRef) (s : FlowState) : bool :=
  match currentState s with
  | Multi current =>
      match targetState with
      | Multi targets => forallb (fun t => includes current t) targets
      | Single target => includes current target
      end
  | Single current =>
      match targetState with
      | Multi targets => includes targets current
      | Single target => String.eqb current target
      end
  end.

(** The filters of [list], applied one after the other to the stored values. *)
Definition applyFilter (filter : ListFilter) (sts : list FlowState)
  : list FlowState :=
  let sts :=
    match f_status filter with
    | Some st => List.filter (fun s => bool_decide (status s = st)) sts
    | None => sts
    end in
  let sts :=
    match f_flowDefinitionId filter with
    | Some d => if truthy d
                then List.filter (fun s => String.eqb (flowDefinitionId s) d) sts
                else sts
    | None => sts
    end in
  let sts :=
    match f_version filter with
    | Some v => if truthy v
                then List.filter (fun s => bool_decide (version s = Some v)) sts
                else sts
    | None => sts
    end in
  let sts :=
    match f_parentFlowId filter with
    | Some p => List.filter (fun s => bool_decide (parentFlowId s = Some p)) sts
    | None => sts
    end in
  match f_currentState filter with
  | Some targetState => List.filter (currentStateMatches targetState) sts
  | None => sts
  end.

(** [list(filter?)]: the stored objects in insertion order, filtered, each
    returned as a copy. *)
Definition list_ (filter : option ListFilter) : M World (list loc) :=
  stored <- gets (fun w => mapValues (states w)) ;;
  sts <- mapM (load flowsH) stored ;;
  let sts := match filter with Some f => applyFilter f sts | None => sts end in
  mapM (alloc flowsH) sts.

Definition hasIdempotencyKey (key : string) : M World bool :=
  gets (fun w => bool_decide (is_Some (idempotencyKeys w !! key))).

Definition saveIdempotencyKey (key flowId : string) : M World unit :=
  modify (fun w => setIdempotencyKeys (<[key := flowId]> (idempotencyKeys w)) w).

(** [return this.idempotencyKeys.get(key) || null] *)
Definition getFlowIdByIdempotencyKey (key : string) : M World (option string) :=
  gets (fun w =>
    match idempotencyKeys w !! key with
    | Some flowId => if truthy flowId then Some flowId else None
    | None => None
    end).

(** Strict equality of context values is decidable. *)
#[global] Instance Value_eq_dec : EqDecision Value.
Proof. solve_decision. Defined.

(** The test of [queryByContext] on one stored flow: no entry of the query
    differs from the context, [state.context[key] !== value]. *)
Definition contextMatches (contextQuery ctx : Context) : bool :=
  forallb (fun entry => bool_decide (ctx !! fst entry = Some (snd entry)))
    (map_to_list contextQuery).

Definition queryByContext (contextQuery : Context) : M World (list loc) :=
  stored <- gets (fun w => mapValues (states w)) ;;
  sts <- mapM (load flowsH) stored ;;
  matching <- filterM
                (fun state =>
                   ctx <- load contextsH (context state) ;;
                   ret (contextMatches contextQuery ctx))
                sts ;;
  mapM (alloc flowsH) matching.

Definition clear : M World unit :=
  modify (fun w => setIdempotencyKeys ∅ (setStates [] w)).

Definition size : M World nat :=
  gets (fun w => length (states w)).

End Storage.

(** ** flow-engine.ts *)

Module FlowEngine.
Import StateMachine Storage.

(** The options of [start].  [context] is the caller's object, which the new
    flow keeps as its own; [templateParams], copied into a field that
    [FlowState] does not carry here, is left out. *)
Record FlowStartOptions := {
  so_flowId : option string;
  so_context : option loc;
  so_parentFlowId : option string;
  so_idempotencyKey : option string
}.

Record FlowExecuteOptions := {
  o_event : string;
  o_data : option Context;
  o_targetRegion : option string;
  o_idempotencyKey : option string
}.

Record FlowExecutionResult := {
  res_success : bool;
  res_state : loc;
  res_transition : TransitionResult;
  res_compensated : option bool
}.

Record MiddlewareContext := {
  mc_flowId : string;
  mc_event : string;
  mc_flowState : loc;
  mc_options : FlowExecuteOptions;
  mc_startTime : Z
}.

(** A middleware receives its context and [next], and produces a result. *)
Definition Middleware : Type :=
  MiddlewareContext -> M World FlowExecutionResult -> M World FlowExecutionResult.

(** A [StateMachine] method running on the context object behind [c]: the
    object is mutated in place, the clock and the trace are those of the
    world. *)
Definition onContext {A} (c : loc) (m : M SMState A) : M World A :=
  fun w =>
    match contexts w !! c with
    | None => (Crash, w)
    | Some ctx =>
        let (r, s) := m {| sm_context := ctx; sm_clock := clock w;
                           sm_trace := trace w |} in
        (r, setTrace (sm_trace s)
              (setClock (sm_clock s)
                 (setContexts (<[c := sm_context s]> (contexts w)) w)))
    end.

Definition emitW (e : Effect) : M World unit :=
  modify (fun w => setTrace (trace w ++ [e]) w).

(** [flowState.compensations], an absent array read as an empty one. *)
Definition compensationsOf (fs : FlowState) : M World (list CompensationRecord) :=
  match compensations fs with
  | Some cl => load compensationsH cl
  | None => ret []
  end.

(** The assignment of [flowState.status] and [flowState.error] that ends
    every path of [compensate]. *)
Definition markFailed (flowState : loc) (message : string) : M World unit :=
  update flowsH flowState (setStatus Failed) ;;
  now <- gets clock ;;
  update flowsH flowState
    (fun f => setError (Some {| e_message := message;
                                e_state := currentState f;
                                e_timestamp := now |}) f).

(** [array.map((x, i) => f i x)] for an effectful [f]. *)
Fixpoint mapiM {St A B} (f : nat -> A -> M St B) (i : nat) (xs : list A)
  : M St (list B) :=
  match xs with
  | [] => ret []
  | x :: rest => y <- f i x ;; ys <- mapiM f (S i) rest ;; ret (y :: ys)
  end.

(** [new Set<string>()] with [add], kept in insertion order. *)
Definition setAdd (x : string) (set : list string) : list string :=
  if includes set x then set else set ++ [x].

(** What [Promise.all] rejects with, if it does: the first failure among
    the outcomes. *)
Fixpoint firstRaised (outcomes : list (unit + string)) : option string :=
  match outcomes with
  | [] => None
  | inr e :: _ => Some e
  | inl _ :: rest => firstRaised rest
  end.

(** What [Promise.all] makes of a settled call: its value, or what it
    raised. *)
Definition fulfilled {St A} (outcome : Res A) : M St A :=
  match outcome with
  | Ok a => ret a
  | Throw e => throw e
  | Crash => crash
  end.

Section Engine.

Variable config : StateMachineConfig.
Variable middlewares : list Middleware.

Definition isFlowComplete (flowState : loc) : M World bool :=
  fs <- load flowsH flowState ;;
  match currentState fs with
  | Multi regions => ret (forallb (isFinalState config) regions)
  | Single current => ret (isFinalState config current)
  end.

Definition recordCompensation (flowId : string) (action : Callback unit)
    (description : option string) : M World unit :=
  found <- Storage.get flowId ;;
  match found with
  | None => throw ("Flow with ID " +:+ dq +:+ flowId +:+ dq +:+ " not found")
  | Some flowState =>
      fs <- load flowsH flowState ;;
      (match compensations fs with
       | Some _ => ret tt
       | None =>
           fresh <- alloc compensationsH [] ;;
           update flowsH flowState (setCompensations (Some fresh))
       end) ;;
      fs <- load flowsH flowState ;;
      now <- gets clock ;;
      (match compensations fs with
       | Some cl =>
           update compensationsH cl (fun cs => cs ++ [
             {| comp_state :=
                  match currentState fs with
                  | Multi regions => String.concat "," regions
                  | Single current => current
                  end;
                comp_action := action;
                comp_timestamp := now;
                comp_description := description |}])
       | None => crash
       end) ;;
      save flowState
  end.

(** The body of the loop of [compensate]: the action of one record, its
    failure logged and dropped. *)
Definition runCompensation (flowState : loc) (comp : CompensationRecord)
  : M World unit :=
  catch
    (fs <- load flowsH flowState ;;
     onContext (context fs)
       (emit (ECompensate comp) ;; call (comp_action comp)))
    (fun compError => emitW (EConsoleError (comp_state comp) compError)).

Definition compensate (flowState : loc) (errorMessage : string) : M World bool :=
  fs <- load flowsH flowState ;;
  recorded <- compensationsOf fs ;;
  if (length recorded =? 0)%nat then
    markFailed flowState errorMessage ;;
    ret false
  else
    update flowsH flowState (setStatus Compensating) ;;
    save flowState ;;
    catch
      (fs <- load flowsH flowState ;;
       recorded <- compensationsOf fs ;;
       forEach (runCompensation flowState) (rev recorded) ;;
       markFailed flowState (errorMessage +:+ " (compensated)") ;;
       ret true)
      (fun e =>
         markFailed flowState ("Compensation failed: " +:+ e) ;;
         ret false).

(** The callback of the second [map] of [executeParallelTransition]: the new
    entry of region [i]. *)
Definition mergedRegion (transitions : list (option TransitionResult))
    (i : nat) (state : string) : M World string :=
  match transitions !! i with
  | Some (Some trans) =>
      if success trans then
        match toState trans with
        | Multi _ => throw "Nested parallel states not yet supported"
        | Single to => ret to
        end
      else ret state
  | _ => ret state
  end.

(** [t?.success] *)
Definition accepted (t : option TransitionResult) : bool :=
  match t with
  | Some trans => success trans
  | None => false
  end.

(** What [executeParallelTransition] does with the outcomes of a broadcast
    once [Promise.all] has resolved. *)
Definition mergeBroadcast (flowState : loc) (options : FlowExecuteOptions)
    (transitions : list (option TransitionResult)) : M World TransitionResult :=
  let successfulTransitions := List.filter accepted transitions in
  fs <- load flowsH flowState ;;
  if (length successfulTransitions =? 0)%nat then
    ret {| success := false;
           fromState := currentState fs;
           toState := currentState fs;
           event := o_event options;
           StateMachine.error := Some "No region accepted the event" |}
  else
    match currentState fs with
    | Single _ => crash
    | Multi current =>
        newStates <- mapiM (mergedRegion transitions) 0%nat current ;;
        ret {| success := true;
               fromState := currentState fs;
               toState := Multi newStates;
               event := o_event options;
               StateMachine.error := None |}
    end.

(** The transition of one region of a broadcast, with its
    [.catch(() => null)]: a call in flight. *)
Definition regionTransition (ev : string) (state : string)
  : Async (option TransitionResult) :=
  catchA (r <- Stepwise.executeTransition config state ev ;; retA (Some r))%async
         (fun _ => retA None).

(** Turns enough for the transitions of all regions. *)
Definition broadcastFuel (regions : list string) : nat :=
  foldr (fun state fuel => (Stepwise.turnsOf config state + fuel)%nat) 0%nat regions.

(** [await Promise.all(regions.map(state => ...))] on the context of the
    flow: the region transitions are started one after the other and run by
    the event loop until all have settled. *)
Definition regionTransitions (ev : string) (regions : list string)
  : M SMState (list (option TransitionResult)) :=
  settled <- eventLoop (broadcastFuel regions) (map (regionTransition ev) regions) ;;
  mapM fulfilled settled.

Definition executeParallelTransition (flowState : loc)
    (options : FlowExecuteOptions) : M World TransitionResult :=
  fs <- load flowsH flowState ;;
  match currentState fs with
  | Single _ => throw "Expected parallel state"
  | Multi regions =>
      match o_targetRegion options with
      | Some target =>
          match parseInt target with
          | None => throw ("Invalid region index: " +:+ target)
          | Some regionIndex =>
              if (regionIndex <? 0) || (Z.of_nat (length regions) <=? regionIndex)
              then throw ("Invalid region index: " +:+ target)
              else
                match regions !! Z.to_nat regionIndex with
                | None => crash
                | Some region =>
                    result <- onContext (context fs)
                                (executeTransition config region (o_event options)) ;;
                    if success result then
                      fs <- load flowsH flowState ;;
                      match toState result, currentState fs with
                      | Multi _, _ => throw "Nested parallel states not yet supported"
                      | Single to, Multi current =>
                          ret {| success := success result;
                                 fromState := currentState fs;
                                 toState := Multi (<[Z.to_nat regionIndex := to]> current);
                                 event := event result;
                                 StateMachine.error := StateMachine.error result |}
                      | Single _, Single _ => crash
                      end
                    else ret result
                end
          end
      | None =>
          transitions <- onContext (context fs)
                           (regionTransitions (o_event options) regions) ;;
          mergeBroadcast flowState options transitions
      end
  end.

(** The [try] block of [executeCore]; it yields the transition and the value
    of [compensated]. *)
Definition coreTry (flowState : loc) (options : FlowExecuteOptions)
  : M World (TransitionResult * bool) :=
  fs <- load flowsH flowState ;;
  transition <-
    match currentState fs with
    | Multi _ => executeParallelTransition flowState options
    | Single current =>
        onContext (context fs) (executeTransition config current (o_event options))
    end ;;
  now <- gets clock ;;
  update flowsH flowState (setUpdatedAt now) ;;
  if success transition then
    fs <- load flowsH flowState ;;
    update historiesH (history fs) (fun h => h ++ [
      {| h_from := fromState transition;
         h_to := toState transition;
         h_timestamp := now;
         h_event := Some (o_event options) |}]) ;;
    update flowsH flowState (setCurrentState (toState transition)) ;;
    complete <- isFlowComplete flowState ;;
    (if complete then update flowsH flowState (setStatus Completed) else ret tt) ;;
    ret (transition, false)
  else throw (strOr (StateMachine.error transition) "Transition failed").

(** The [catch] block of [executeCore]. *)
Definition coreCatch (flowState : loc) (options : FlowExecuteOptions)
    (message : string) : M World (TransitionResult * bool) :=
  compensated <- compensate flowState message ;;
  fs <- load flowsH flowState ;;
  ret ({| success := false;
          fromState := currentState fs;
          toState := currentState fs;
          event := o_event options;
          StateMachine.error := Some message |}, compensated).

Definition executeCore (flowId : string) (options : FlowExecuteOptions)
  : M World FlowExecutionResult :=
  found <- Storage.get flowId ;;
  match found with
  | None => throw ("Flow with ID " +:+ dq +:+ flowId +:+ dq +:+ " not found")
  | Some flowState =>
      fs <- load flowsH flowState ;;
      if negb (bool_decide (status fs = Active)) then
        throw ("Flow is not active. Current status: " +:+ statusName (status fs))
      else
        (match o_data options with
         | Some data => update contextsH (context fs) (fun ctx => data ∪ ctx)
         | None => ret tt
         end) ;;
        out <- catch (coreTry flowState options) (coreCatch flowState options) ;;
        save flowState ;;
        ret {| res_success := success (fst out);
               res_state := flowState;
               res_transition := fst out;
               res_compensated := Some (snd out) |}
  end.

(** [dispatch], the closure of [executeWithMiddleware]; [index] is the cell
    of the variable it captures.  [fuel] bounds the nesting of the model:
    every middleware entered has advanced [index], so as many levels as there
    are middlewares suffice. *)
Fixpoint dispatch (fuel : nat) (index : loc) (context : MiddlewareContext)
    (flowId : string) (options : FlowExecuteOptions)
  : M World FlowExecutionResult :=
  i <- load cellsH index ;;
  if (length middlewares <=? i)%nat then executeCore flowId options
  else
    match fuel with
    | O => crash
    | S fuel' =>
        store cellsH index (S i) ;;
        match middlewares !! i with
        | Some middleware =>
            middleware context (dispatch fuel' index context flowId options)
        | None => crash
        end
    end.

Definition executeWithMiddleware (flowId : string) (options : FlowExecuteOptions)
  : M World FlowExecutionResult :=
  found <- Storage.get flowId ;;
  match found with
  | None => throw ("Flow with ID " +:+ dq +:+ flowId +:+ dq +:+ " not found")
  | Some flowState =>
      startTime <- gets clock ;;
      let context := {| mc_flowId := flowId;
                        mc_event := o_event options;
                        mc_flowState := flowState;
                        mc_options := options;
                        mc_startTime := startTime |} in
      index <- alloc cellsH 0%nat ;;
      dispatch (length middlewares) index context flowId options
  end.

(** The idempotency check that opens [execute]: [Some result] when it
    returns the no-op result, [None] when execution goes on. *)
Definition idempotencyGuard (flowId : string) (options : FlowExecuteOptions)
  : M World (option FlowExecutionResult) :=
  match o_idempotencyKey options with
  | Some key =>
      if truthy key then
        existingFlowId <- getFlowIdByIdempotencyKey key ;;
        match existingFlowId with
        | Some _ =>
            found <- Storage.get flowId ;;
            match found with
            | Some flowState =>
                fs <- load flowsH flowState ;;
                ret (Some {| res_success := true;
                             res_state := flowState;
                             res_transition :=
                               {| success := true;
                                  fromState := currentState fs;
                                  toState := currentState fs;
                                  event := o_event options;
                                  StateMachine.error := None |};
                             res_compensated := None |})
            | None => ret None
            end
        | None =>
            saveIdempotencyKey key flowId ;;
            ret None
        end
      else ret None
  | None => ret None
  end.

Definition execute (flowId : string) (options : FlowExecuteOptions)
  : M World FlowExecutionResult :=
  early <- idempotencyGuard flowId options ;;
  match early with
  | Some result => ret result
  | None =>
      if (0 <? length middlewares)%nat
      then executeWithMiddleware flowId options
      else executeCore flowId options
  end.

Definition pause (flowId : string) : M World loc :=
  found <- Storage.get flowId ;;
  match found with
  | None => throw ("Flow with ID " +:+ dq +:+ flowId +:+ dq +:+ " not found")
  | Some flowState =>
      fs <- load flowsH flowState ;;
      if negb (bool_decide (status fs = Active)) then
        throw ("Cannot pause flow. Current status: " +:+ statusName (status fs))
      else
        update flowsH flowState (setStatus Paused) ;;
        now <- gets clock ;;
        update flowsH flowState (setUpdatedAt now) ;;
        save flowState ;;
        ret flowState
  end.

Definition resume (flowId : string) : M World loc :=
  found <- Storage.get flowId ;;
  match found with
  | None => throw ("Flow with ID " +:+ dq +:+ flowId +:+ dq +:+ " not found")
  | Some flowState =>
      fs <- load flowsH flowState ;;
      if negb (bool_decide (status fs = Paused)) then
        throw ("Cannot resume flow. Current status: " +:+ statusName (status fs))
      else
        update flowsH flowState (setStatus Active) ;;
        now <- gets clock ;;
        update flowsH flowState (setUpdatedAt now) ;;
        save flowState ;;
        ret flowState
  end.

Definition cancel (flowId : string) (triggerCompensation : bool) : M World loc :=
  found <- Storage.get flowId ;;
  match found with
  | None => throw ("Flow with ID " +:+ dq +:+ flowId +:+ dq +:+ " not found")
  | Some flowState =>
      fs <- load flowsH flowState ;;
      if bool_decide (status fs = Completed) then
        throw "Cannot cancel completed flow"
      else
        (if triggerCompensation then
           compensate flowState "Flow cancelled by user" ;; ret tt
         else markFailed flowState "Flow cancelled by user") ;;
        now <- gets clock ;;
        update flowsH flowState (setUpdatedAt now) ;;
        save flowState ;;
        ret flowState
  end.

(** The entry action of the state [stateName], run on the context behind
    [c]: [const s = getState(stateName); if (s?.onEntry) await s.onEntry(context)]. *)
Definition enter (c : loc) (stateName : string) : M World unit :=
  match getState config stateName with
  | Some s =>
      match onEntryOf s with
      | Some h => onContext c (emit (EEntry stateName) ;; call h)
      | None => ret tt
      end
  | None => ret tt
  end.

(** The [currentState] a new flow starts in: the initial states of the
    regions when the initial state is parallel, the initial state otherwise. *)
Definition initialCurrentState : StateRef :=
  match getState config (getInitialState config) with
  | Some (Parallel p) => Multi (map r_initialState (p_regions p))
  | _ => Single (getInitialState config)
  end.

(** The [try] block of [start]: the entry action of the initial state, or
    those of the initial states of the regions.  The latter are all started,
    in region order, before [Promise.all] awaits them; it rejects with the
    first failure. *)
Definition enterInitial (current : StateRef) (c : loc) : M World unit :=
  match current with
  | Multi regions =>
      outcomes <- mapM (fun stateName => outcomeOf (enter c stateName)) regions ;;
      match firstRaised outcomes with
      | Some e => throw e
      | None => ret tt
      end
  | Single _ => enter c (getInitialState config)
  end.

(** [start(options)].  [uuid] is what [generateUUID()] returns when the
    options name no flow id.  The fields [subFlows] and [templateParams] of
    the new object are not part of [FlowState] here. *)
Definition start (uuid : string) (options : FlowStartOptions) : M World loc :=
  existingFlow <-
    match so_idempotencyKey options with
    | Some key =>
        if truthy key then
          existingFlowId <- getFlowIdByIdempotencyKey key ;;
          match existingFlowId with
          | Some existing => Storage.get existing
          | None => ret None
          end
        else ret None
    | None => ret None
    end ;;
  match existingFlow with
  | Some flowState => ret flowState
  | None =>
      let flowId := strOr (so_flowId options) uuid in
      let initialState := getInitialState config in
      now <- gets clock ;;
      taken <- exists_ flowId ;;
      if taken then
        throw ("Flow with ID " +:+ dq +:+ flowId +:+ dq +:+ " already exists")
      else
        (match so_idempotencyKey options with
         | Some key => if truthy key then saveIdempotencyKey key flowId else ret tt
         | None => ret tt
         end) ;;
        let current := initialCurrentState in
        context <- match so_context options with
                   | Some c => ret c
                   | None => alloc contextsH ∅
                   end ;;
        history <- alloc historiesH [] ;;
        compensations <- alloc compensationsH [] ;;
        flowState <- alloc flowsH
          {| flowId := flowId;
             flowDefinitionId := id config;
             version := Some (strOr (StateMachine.version config) "1.0.0");
             currentState := current;
             context := context;
             createdAt := now;
             updatedAt := now;
             history := history;
             status := Active;
             error := None;
             compensations := Some compensations;
             parentFlowId := so_parentFlowId options |} ;;
        catch (enterInitial current context)
              (fun message => markFailed flowState message) ;;
        complete <- isFlowComplete flowState ;;
        (if complete then update flowsH flowState (setStatus Completed) else ret tt) ;;
        save flowState ;;
        ret flowState
  end.

Definition getPossibleTransitions (flowId : string) : M World (list string) :=
  found <- Storage.get flowId ;;
  match found with
  | None => throw ("Flow with ID " +:+ dq +:+ flowId +:+ dq +:+ " not found")
  | Some flowState =>
      fs <- load flowsH flowState ;;
      match currentState fs with
      | Multi regions =>
          ret (fold_left
                 (fun allEvents state =>
                    fold_left (fun set t => setAdd (t_event t) set)
                      (getTransitions config state) allEvents)
                 regions [])
      | Single current =>
          ret (map t_event (getTransitions config current))
      end
  end.

End Engine.

End FlowEngine.

(** ** Reasoning about computations *)

(** [post m s Q]: running [m] on [s] ends in an outcome and a state that
    satisfy [Q]. *)
Definition post {S A} (m : M S A) (s : S) (Q : Res A -> S -> Prop) : Prop :=
  Q (m s).1 (m s).2.

Global Arguments post : simpl never.
Global Arguments bind : simpl never.
Global Arguments catch : simpl never.
Global Arguments Storage.get : simpl never.
Global Arguments Storage.save : simpl never.
Global Arguments Storage.load : simpl never.
Global Arguments Storage.store : simpl never.
Global Arguments Storage.update : simpl never.
Global Arguments Storage.alloc : simpl never.
Global Arguments Storage.list_ : simpl never.

(** ** Vocabulary of the statements *)

Section Vocabulary.
Import StateMachine Storage FlowEngine.

(** Projections of a trace. *)
Definition delaysOf (tr : list Effect) : list Number :=
  omap (fun e => match e with EDelay ms => Some ms | _ => None end) tr.

Definition onErrorsOf (tr : list Effect) : list string :=
  omap (fun e => match e with EOnError m => Some m | _ => None end) tr.

Definition compensatedIn (tr : list Effect) : list CompensationRecord :=
  omap (fun e => match e with ECompensate r => Some r | _ => None end) tr.

(** The hooks one attempt invokes when none of them raises, in order: exit
    action of the source state, transition action, validation and entry
    action of the target state. *)
Definition attemptSteps (state : StateNode) (t : Transition)
    (target : option StateNode) (cs : string) : list Effect :=
  match onExitOf state with Some _ => [EExit cs] | None => [] end
  ++ match t_action t with
     | Some _ => [EAction (t_event t) (t_to t)]
     | None => []
     end
  ++ match target with
     | Some node =>
         match validationOf node with
         | Some _ => [EValidate (t_to t)]
         | None => []
         end
         ++ match onEntryOf node with
            | Some _ => [EEntry (t_to t)]
            | None => []
            end
     | None => []
     end.

(** The trace of the retry loop in the words of the specification, from
    attempt [i] on, with [k] retries.  A successful attempt runs all of
    [steps]; a failed one runs them up to the one that raised, the first one
    at least when there is any; a failed attempt that is retried is followed
    by the delay [delayAfter i], then by the next attempt. *)
Inductive RetryTrace (steps : list Effect) (delayAfter : Z -> Number)
  : Z -> nat -> bool -> list Effect -> Prop :=
| rt_success i :
    RetryTrace steps delayAfter i 0 true steps
| rt_failure i a :
    a `prefix_of` steps -> (a = [] -> steps = []) ->
    RetryTrace steps delayAfter i 0 false a
| rt_retry i k ok a rest :
    a `prefix_of` steps -> (a = [] -> steps = []) ->
    RetryTrace steps delayAfter (i + 1) k ok rest ->
    RetryTrace steps delayAfter i (S k) ok (a ++ EDelay (delayAfter i) :: rest).

(** A callback that returns whatever the context; one that raises whatever
    the context. *)
Definition Returns {R} (f : Callback R) : Prop :=
  forall c, exists r, (f c).2 = inl r.

Definition Raises {R} (f : Callback R) : Prop :=
  forall c, exists e, (f c).2 = inr e.

(** No step of an attempt of [t] from [state] can raise: the hooks return,
    the target is declared and its validation passes. *)
Definition Unfailing (config : StateMachineConfig) (state : StateNode)
    (t : Transition) : Prop :=
  (forall h, onExitOf state = Some h -> Returns h) /\
  (forall a, t_action t = Some a -> Returns a) /\
  exists target, stateMap config !! t_to t = Some target /\
    (forall v, validationOf target = Some v ->
       forall c, (validate v c).2 = inl (VRBool true)) /\
    (forall h, onEntryOf target = Some h -> Returns h).

(** Some step of every attempt of [t] from [state] raises: a hook that
    always raises, a validation that never passes, or an undeclared
    target. *)
Definition Failing (config : StateMachineConfig) (state : StateNode)
    (t : Transition) : Prop :=
  (exists h, onExitOf state = Some h /\ Raises h) \/
  (exists a, t_action t = Some a /\ Raises a) \/
  stateMap config !! t_to t = None \/
  (exists target v, stateMap config !! t_to t = Some target /\
     validationOf target = Some v /\
     forall c, (validate v c).2 <> inl (VRBool true)) \/
  (exists target h, stateMap config !! t_to t = Some target /\
     onEntryOf target = Some h /\ Raises h).

(** The result of a successful attempt of [executeTransition]. *)
Definition successResult (t : Transition) (cs ev : string) : TransitionResult :=
  {| success := true; fromState := Single cs; toState := Single (t_to t);
     event := ev; StateMachine.error := None |}.



(** The flow stored under an id: the fields of the stored object. *)
Definition storedFlow (w : World) (id : string) : option FlowState :=
  l ← mapGet id (states w); flows w !! l.

(** No entry of the store is a dangling reference. *)
Definition storeValid (w : World) : Prop :=
  Forall (fun entry => is_Some (flows w !! snd entry)) (states w).

(** The active state names of a flow. *)
Definition activeStates (s : StateRef) : list string :=
  match s with
  | Single name => [name]
  | Multi names => names
  end.

(** The stored flow objects, in the order of [list]. *)
Definition storedList (w : World) : list FlowState :=
  omap (fun l => flows w !! l) (mapValues (states w)).

(** A filter on [currentState] alone. *)
Definition currentStateOnly (target : StateRef) : ListFilter :=
  {| f_status := None; f_flowDefinitionId := None; f_version := None;
     f_parentFlowId := None; f_currentState := Some target |}.

(** Whatever the states it is resumed on, a call settles within [n] turns,
    and its outcome is in [Q]. *)
Inductive Within {A} (Q : Res A -> Prop) : nat -> Task A -> Prop :=
| within_settled n r :
    Q r -> Within Q n (Settled r)
| within_awaiting n resume :
    (forall s, Within Q n (resume s).1) -> Within Q (S n) (Awaiting resume)
| within_sleeping n delay resume :
    (forall s, Within Q n (resume s).1) -> Within Q (S n) (Sleeping delay resume).

Definition WithinA {A} (Q : Res A -> Prop) (n : nat) (m : Async A) : Prop :=
  forall s, Within Q n (m s).1.

(** The suspended calls of a queue and the turns all of them have left
    together, the turn that resumes each included; [Q i] is what call [i]
    settles with, [n] the number of calls. *)
Inductive Budget {A} (Q : nat -> Res A -> Prop) (n : nat)
  : list (Suspended A) -> nat -> Prop :=
| budget_nil :
    Budget Q n [] 0
| budget_cons i resume b rest total :
    (i < n)%nat -> (forall s, Within (Q i) b (resume s).1) ->
    Budget Q n rest total ->
    Budget Q n ((i, resume) :: rest) (S b + total).

(** What the event loop keeps between two turns, once the first [started]
    of the [n] calls have been started: the calls that have settled did so
    with an outcome in [Q]; the other started ones are suspended, in the
    microtask queue or on a timer, and [fuel] turns are enough for them. *)
Definition LoopInv {A} (Q : nat -> Res A -> Prop) (n started fuel : nat)
    (loop : Loop A) : Prop :=
  length (outcomes loop) = n /\
  (forall (i : nat) r, outcomes loop !! i = Some (Some r) -> Q i r) /\
  (forall i : nat, (i < started)%nat -> outcomes loop !! i = Some None ->
     i ∈ map fst (microtasks loop) \/
     i ∈ map (fun timer => fst (snd timer)) (timers loop)) /\
  exists queued pending,
    Budget Q n (microtasks loop) queued /\
    Budget Q n (map snd (timers loop)) pending /\
    (queued + pending <= fuel)%nat.


(** The outcome of a transition attempted on the state [cs] for the event
    [ev]: it names that state and that event; a success leads to the target
    of one of the candidates of the state for the event, a declared state;
    a failure stays and carries an error. *)
Definition Attempted (config : StateMachineConfig) (ev cs : string)
    (res : TransitionResult) : Prop :=
  fromState res = Single cs /\ event res = ev /\
  exists to, toState res = Single to /\
    (success res = true ->
       exists t, t ∈ getTransitions config cs /\ t_event t = ev /\ t_to t = to /\
                 is_Some (stateMap config !! to)) /\
    (success res = false -> to = cs /\ is_Some (StateMachine.error res)).

(** No candidate of the state is for the event. *)
Definition NoCandidate (config : StateMachineConfig) (ev cs : string) : Prop :=
  forall t, t ∈ getTransitions config cs -> t_event t <> ev.

(** [t] is the first candidate of the state for the event and nothing can
    keep it from being taken: it has no guard and no action, its retry
    policy does not rule out the first attempt, the state has no exit
    action, and the target is declared, without validation or entry
    action. *)
Definition Unconditional (config : StateMachineConfig) (ev cs : string)
    (t : Transition) : Prop :=
  (exists state, stateMap config !! cs = Some state /\ onExitOf state = None) /\
  (exists skipped rest,
     getTransitions config cs = skipped ++ t :: rest /\
     forall u, u ∈ skipped -> t_event u <> ev) /\
  t_event t = ev /\ t_guard t = None /\ t_action t = None /\
  0 <= numOr (maxAttempts (default noRetry (t_retry t))) 0 /\
  exists target, stateMap config !! t_to t = Some target /\
    validationOf target = None /\ onEntryOf target = None.

(** What the transition of a region of a broadcast settles with: the
    outcome of an attempt on the state of the region, a refusal when the
    state has no candidate for the event, the move to its target when a
    transition is there that nothing can keep from being taken. *)
Definition settlesWith (config : StateMachineConfig) (ev region : string)
    (r : Res (option TransitionResult)) : Prop :=
  exists res, r = Ok (Some res) /\ Attempted config ev region res /\
    (NoCandidate config ev region -> success res = false) /\
    (forall t, Unconditional config ev region t -> res = successResult t region ev).


(** The new entry of region [i], as [mergedRegion] computes it. *)
Definition mergedEntry (transitions : list (option TransitionResult))
    (i : nat) (state : string) : string :=
  match transitions !! i with
  | Some (Some trans) =>
      if success trans then
        match toState trans with
        | Single to => to
        | Multi _ => state
        end
      else state
  | _ => state
  end.

(** [Extends w w']: from [w] to [w'] the idempotency keys are untouched, the
    heap of flow objects has not shrunk, and every flow stored under a valid
    reference is still stored under a valid reference. *)
Definition Extends (w w' : World) : Prop :=
  idempotencyKeys w' = idempotencyKeys w /\
  (length (flows w) <= length (flows w'))%nat /\
  (forall id l, mapGet id (states w) = Some l -> (l < length (flows w))%nat ->
     exists l', mapGet id (states w') = Some l' /\ (l' < length (flows w'))%nat).

(** A computation that only extends the world, whatever its outcome. *)
Definition Frame {A} (m : M World A) : Prop :=
  forall w, Extends w (m w).2.

(** Middlewares that only extend the world whenever [next] does: they leave
    the key bindings and the stored flows in place. *)
Definition MiddlewareFrame (middlewares : list Middleware) : Prop :=
  forall mw, mw ∈ middlewares ->
    forall context next, Frame next -> Frame (mw context next).

(** What the claims observe of a stored flow. *)
Record FlowView := {
  v_currentState : StateRef;
  v_history : list HistoryEntry;
  v_context : Context;
  v_status : Status
}.

Definition flowView (w : World) (id : string) : option FlowView :=
  fs ← storedFlow w id;
  h ← histories w !! history fs;
  c ← contexts w !! context fs;
  Some {| v_currentState := currentState fs; v_history := h;
          v_context := c; v_status := status fs |}.

(** The result [execute] returns for a key that is already bound. *)
Definition noopResult (options : FlowExecuteOptions) (snapshot : loc)
    (current : StateRef) : FlowExecutionResult :=
  {| res_success := true;
     res_state := snapshot;
     res_transition := {| success := true;
                          fromState := current;
                          toState := current;
                          event := o_event options;
                          StateMachine.error := None |};
     res_compensated := None |}.

(** An outcome that is the no-op success of a replay. *)
Definition isNoop (options : FlowExecuteOptions) (current : StateRef)
    (r : Res FlowExecutionResult) : Prop :=
  exists res, r = Ok res /\ res_success res = true /\
    res_transition res = {| success := true; fromState := current;
                            toState := current; event := o_event options;
                            StateMachine.error := None |}.

(** [n] calls of [execute] in a row, each on the world the previous one left;
    a call that raises does not stop the caller. *)
Fixpoint repeatExecute (config : StateMachineConfig)
    (middlewares : list Middleware) (flowId : string)
    (options : FlowExecuteOptions) (n : nat) (w : World)
  : list (Res FlowExecutionResult) * World :=
  match n with
  | O => ([], w)
  | S n' =>
      let (r, w1) := execute config middlewares flowId options w in
      let (rs, w2) := repeatExecute config middlewares flowId options n' w1 in
      (r :: rs, w2)
  end.

(** A check: a computation that leaves the state alone, returns when [P]
    holds and raises when it does not. *)
Definition Decides {S} (m : M S unit) (P : Prop) : Prop :=
  forall s, (P /\ m s = (Ok tt, s)) \/ (~ P /\ exists e, m s = (Throw e, s)).

(** A state name that [config.states] declares. *)
Definition Declared (config : StateMachineConfig) (name : string) : Prop :=
  is_Some (StateMachine.states config !! name).

(** What the constructor of [StateMachine] asks of one state: a compound
    state names declared states as its initial state and children; every
    region of a parallel state names declared states as its initial state
    and members; the transitions an atomic state carries lead to declared
    states.  Nothing is asked of a state of type ['final'], nor of the
    transitions a parallel state carries. *)
Definition WellFormedState (config : StateMachineConfig) (state : StateNode)
  : Prop :=
  match state with
  | Compound c =>
      Declared config (c_initialState c) /\ Forall (Declared config) (c_states c)
  | Parallel p =>
      Forall (fun region =>
                Declared config (r_initialState region) /\
                Forall (Declared config) (r_states region))
             (p_regions p)
  | Atomic st =>
      match s_type st with
      | Some TFinal => True
      | _ => Forall (fun t => Declared config (t_to t)) (default [] (s_transitions st))
      end
  end.

Definition WellFormed (config : StateMachineConfig) : Prop :=
  Declared config (initialState config) /\
  Forall (fun t => Declared config (t_to t)) (default [] (transitions config)) /\
  forall name state,
    StateMachine.states config !! name = Some state -> WellFormedState config state.

(** The criteria a filter of [list] names, taken together: the status; the
    definition id and the version, unless they are the empty string; the
    parent flow id; the current state. *)
Definition satisfies (filter : ListFilter) (s : FlowState) : bool :=
  match f_status filter with
  | Some st => bool_decide (status s = st)
  | None => true
  end
  && match f_flowDefinitionId filter with
     | Some d => negb (truthy d) || String.eqb (flowDefinitionId s) d
     | None => true
     end
  && match f_version filter with
     | Some v => negb (truthy v) || bool_decide (Storage.version s = Some v)
     | None => true
     end
  && match f_parentFlowId filter with
     | Some p => bool_decide (parentFlowId s = Some p)
     | None => true
     end
  && match f_currentState filter with
     | Some target => currentStateMatches target s
     | None => true
     end.

(** A stored flow whose context holds every entry of the query. *)
Definition queryHolds (w : World) (contextQuery : Context) (fs : FlowState)
  : bool :=
  match contexts w !! context fs with
  | Some ctx => contextMatches contextQuery ctx
  | None => false
  end.

(** What an operation on one flow commits, from [w] to [w1]: the snapshot
    [a] it returns is a new object; it and the stored copy, another new
    object, hold the fields [fs']; the flows stored under other ids and the
    objects that existed before are as they were. *)
Definition Committed (w w1 : World) (a : loc) (fs' : FlowState) : Prop :=
  a = length (flows w) /\
  flows w1 !! a = Some fs' /\
  (exists copy, mapGet (flowId fs') (states w1) = Some copy /\ copy <> a /\
     (length (flows w) <= copy)%nat /\ flows w1 !! copy = Some fs') /\
  (forall id', id' <> flowId fs' -> mapGet id' (states w1) = mapGet id' (states w)) /\
  (forall i, (i < length (flows w))%nat -> flows w1 !! i = flows w !! i) /\
  idempotencyKeys w1 = idempotencyKeys w.

(** The heaps of contexts, histories and compensations, the clock and the
    trace are the same in [w] and [w1]. *)
Definition Quiet (w w1 : World) : Prop :=
  contexts w1 = contexts w /\ histories w1 = histories w /\
  compensationLists w1 = compensationLists w /\ trace w1 = trace w /\
  clock w1 = clock w.

(** The compensations recorded on a flow object, an absent array read as an
    empty one. *)
Definition recordedOn (w : World) (fs : FlowState)
    (recorded : list CompensationRecord) : Prop :=
  match compensations fs with
  | Some cl => compensationLists w !! cl = Some recorded
  | None => recorded = []
  end.

(** Every active state is final, as [isFlowComplete] asks. *)
Definition allFinal (config : StateMachineConfig) (current : StateRef) : bool :=
  forallb (isFinalState config) (activeStates current).

(** The context an event is handled on: the stored one, with the data of
    the options written over it. *)
Definition withData (options : FlowExecuteOptions) (ctx : Context) : Context :=
  match o_data options with
  | Some data => data ∪ ctx
  | None => ctx
  end.

(** The entry action of a state, if the machine declares the state and the
    state has one. *)
Definition entryActionOf (config : StateMachineConfig) (name : string)
  : option (Callback unit) :=
  state ← getState config name; onEntryOf state.

(** The entry actions invoked for a list of states: one for each state that
    has one, in the order of the list. *)
Definition entered (config : StateMachineConfig) (names : list string)
  : list Effect :=
  omap (fun name => match entryActionOf config name with
                    | Some _ => Some (EEntry name)
                    | None => None
                    end) names.

(** From [w] to [w'] hooks ran on the context object behind [c] and added
    [tr] to the trace; nothing else has changed. *)
Definition HooksRan (c : loc) (tr : list Effect) (w w' : World) : Prop :=
  (exists ctx', contexts w' = <[c := ctx']> (contexts w)) /\
  trace w' = trace w ++ tr /\
  flows w' = flows w /\ states w' = states w /\
  idempotencyKeys w' = idempotencyKeys w /\
  histories w' = histories w /\ compensationLists w' = compensationLists w /\
  clock w' = clock w /\ cells w' = cells w.

(** The flow id [start] gives the new flow. *)
Definition startId (uuid : string) (options : FlowStartOptions) : string :=
  strOr (so_flowId options) uuid.

(** A computation that neither reads nor writes the cells of closures: it
    runs the same whatever they hold, and leaves them as they are. *)
Definition CellFree {A} (m : M World A) : Prop :=
  forall c w, m (setCells c w) = ((m w).1, setCells c (m w).2).

(** A heap other than that of the cells. *)
Definition HeapApart {A} (h : Heap A) : Prop :=
  (forall c w, cellsOf h (setCells c w) = cellsOf h w) /\
  (forall c v w, withCells h v (setCells c w) = setCells c (withCells h v w)).

(** The world once hooks have run on the context object behind [c] and left
    the state [s]: what [onContext] writes back. *)
Definition written (c : loc) (s : SMState) (w : World) : World :=
  setTrace (sm_trace s)
    (setClock (sm_clock s) (setContexts (<[c := sm_context s]> (contexts w)) w)).



(** A middleware of the usual shape,
    [async (context, next) => { beforeNext(context); const result = await
    next(); return afterNext(context, result) }]: it awaits [next] once. *)
Record Wrapper := {
  beforeNext : MiddlewareContext -> M World unit;
  afterNext : MiddlewareContext -> FlowExecutionResult -> M World FlowExecutionResult
}.

Definition around (wrapper : Wrapper) : Middleware :=
  fun context next =>
    beforeNext wrapper context ;;
    result <- next ;;
    afterNext wrapper context result.

(** The wrappers nested around [core], the first of the list outermost. *)
Definition onion (wrappers : list Wrapper) (context : MiddlewareContext)
    (core : M World FlowExecutionResult) : M World FlowExecutionResult :=
  foldr (fun wrapper inner => around wrapper context inner) core wrappers.

End Vocabulary.

(** ** Example definitions and stores *)

Module Examples.
Import StateMachine Storage FlowEngine.

Definition transitionTo (ev to : string) : Transition :=
  {| t_from := None; t_event := ev; t_to := to; t_guard := None;
     t_action := None; t_retry := None |}.

Definition atomic (name : string) (ts : list Transition) : StateNode :=
  Atomic {| s_name := name; s_type := None; s_transitions := Some ts;
            s_onEntry := None; s_onExit := None; s_isFinal := None;
            s_validation := None |}.

Definition final (name : string) : StateNode :=
  Atomic {| s_name := name; s_type := Some TFinal; s_transitions := None;
            s_onEntry := None; s_onExit := None; s_isFinal := None;
            s_validation := None |}.

Definition machine (name initial : string) (nodes : list (string * StateNode))
  : StateMachineConfig :=
  {| id := name; StateMachine.version := None; initialState := initial;
     StateMachine.states := list_to_map nodes; transitions := None;
     onError := None |}.

(** The amount of an order, read from the context. *)
Definition amountBelow (limit : Z) : Callback bool :=
  fun c =>
    match c !! "amount" with
    | Some (VNum n) => (c, inl (n <? limit))
    | _ => (c, inr "amount is missing")
    end.

Definition guarded (ev to : string) (g : Callback bool) : Transition :=
  {| t_from := None; t_event := ev; t_to := to; t_guard := Some g;
     t_action := None; t_retry := None |}.

(** An order approval: [pending] has two transitions on [APPROVE], told apart
    by their guards. *)
Definition approveSmall : Transition :=
  guarded "APPROVE" "approved" (amountBelow 10000).

Definition approveLarge : Transition :=
  guarded "APPROVE" "manager-review"
    (fun c => let (c', r) := amountBelow 10000 c in
              (c', match r with inl b => inl (negb b) | inr e => inr e end)).

Definition approvalConfig : StateMachineConfig :=
  machine "order" "pending"
    [("pending", atomic "pending" [approveSmall; approveLarge]);
     ("approved", final "approved");
     ("manager-review", atomic "manager-review" [])].

(** Three steps in a row on the same event. *)
Definition stepsConfig : StateMachineConfig :=
  machine "steps" "a"
    [("a", atomic "a" [transitionTo "GO" "b"]);
     ("b", atomic "b" [transitionTo "GO" "c"]);
     ("c", atomic "c" [])].

(** A transition whose action always fails, retried once. *)
Definition failing : Callback unit := fun c => (c, inr "unavailable").

Definition retried (policy : RetryConfig) : Transition :=
  {| t_from := None; t_event := "CALL"; t_to := "done"; t_guard := None;
     t_action := Some failing; t_retry := Some policy |}.

Definition retryConfig (policy : RetryConfig) : StateMachineConfig :=
  machine "retry" "calling"
    [("calling", atomic "calling" [retried policy]);
     ("done", final "done")].

Definition zeroDelay : RetryConfig :=
  {| maxAttempts := Some 1; backoff := Some Linear; delayMs := Some (num 0) |}.

Definition exponentialTwice : RetryConfig :=
  {| maxAttempts := Some 2; backoff := Some Exponential; delayMs := Some (num 10) |}.

(** Two regions, one moved by [EVENT_A], the other by [EVENT_X]. *)
Definition regionsConfig : StateMachineConfig :=
  machine "regions" "a"
    [("a", atomic "a" [transitionTo "EVENT_A" "b"]);
     ("b", atomic "b" []);
     ("x", atomic "x" [transitionTo "EVENT_X" "y"]);
     ("y", atomic "y" [])].

Definition freshState : SMState :=
  {| sm_context := ∅; sm_clock := 0; sm_trace := [] |}.

(** A flow object whose context, history and compensations are the first
    objects of their heaps. *)
Definition flowAt (name : string) (current : StateRef) (st : Status) : FlowState :=
  {| flowId := name; flowDefinitionId := "demo"; version := Some "1.0.0";
     currentState := current; context := 0%nat; createdAt := 0; updatedAt := 0;
     history := 0%nat; status := st; error := None;
     compensations := Some 0%nat; parentFlowId := None |}.

(** A store holding one flow. *)
Definition worldWith (fs : FlowState) (ctx : Context)
    (recorded : list CompensationRecord) : World :=
  {| flows := [fs]; contexts := [ctx]; histories := [[]];
     compensationLists := [recorded]; cells := [];
     states := [(flowId fs, 0%nat)]; idempotencyKeys := ∅;
     clock := 0; trace := [] |}.

Definition emptyWorld : World :=
  {| flows := []; contexts := []; histories := []; compensationLists := [];
     cells := []; states := []; idempotencyKeys := ∅; clock := 0; trace := [] |}.

Definition pendingFlow : FlowState := flowAt "f1" (Single "pending") Active.

Definition pendingWorld : World :=
  worldWith pendingFlow {[ "amount" := VNum 15000 ]} [].

Definition pausedFlow : FlowState := flowAt "f1" (Single "a") Paused.

Definition pausedWorld : World := worldWith pausedFlow ∅ [].

Definition stepsFlow : FlowState := flowAt "f1" (Single "a") Active.

Definition stepsWorld : World := worldWith stepsFlow ∅ [].

Definition regionsFlow : FlowState := flowAt "f1" (Multi ["a"; "x"]) Active.

Definition regionsWorld : World := worldWith regionsFlow ∅ [].

(** Two recorded compensations; the first one recorded fails when run. *)
Definition undo (label : string) (fails : bool) : CompensationRecord :=
  {| comp_state := label;
     comp_action := fun c =>
       (<[label := VBool true]> c, if fails then inr "undo failed" else inl tt);
     comp_timestamp := 0;
     comp_description := Some label |}.

Definition sagaFlow : FlowState := flowAt "f1" (Single "step3") Active.

Definition sagaWorld : World :=
  worldWith sagaFlow ∅ [undo "u1" true; undo "u2" false].

Definition optionsFor (ev : string) (key : option string) : FlowExecuteOptions :=
  {| o_event := ev; o_data := None; o_targetRegion := None;
     o_idempotencyKey := key |}.

(** A middleware that hands over to [next] and returns its result. *)
Definition passThrough : Middleware :=
  fun _ next => result <- next ;; ret result.

(** A caller reads a flow, writes into the context of the snapshot it was
    given, and reads the flow again: the contexts seen by the two reads. *)
Definition readMutateRead (name key : string) (v : Value)
  : M World (option Context * option Context) :=
  first <- Storage.get name ;;
  match first with
  | None => ret (None, None)
  | Some a =>
      fa <- load flowsH a ;;
      before <- load contextsH (context fa) ;;
      update contextsH (context fa) (fun c => <[key := v]> c) ;;
      second <- Storage.get name ;;
      match second with
      | None => ret (Some before, None)
      | Some b =>
          fb <- load flowsH b ;;
          after <- load contextsH (context fb) ;;
          ret (Some before, Some after)
      end
  end.

(** A review step that refuses a context without a reviewer. *)
Definition needsReviewer : ValidationConfig :=
  {| validate := fun c =>
       (c, inl (VRBool (bool_decide (is_Some (c !! "reviewer")))));
     errorMessage := Some "reviewer is required" |}.

Definition reviewNode : StateNode :=
  Atomic {| s_name := "review"; s_type := None; s_transitions := Some [];
            s_onEntry := None; s_onExit := None; s_isFinal := None;
            s_validation := Some needsReviewer |}.

Definition reviewConfig : StateMachineConfig :=
  machine "review" "draft"
    [("draft", atomic "draft" [transitionTo "SUBMIT" "review"]);
     ("review", reviewNode)].

(** An onboarding whose initial state greets the user on entry. *)
Definition welcome (fails : bool) : Callback unit :=
  fun c => (<["welcomed" := VBool true]> c,
            if fails then inr "mail server down" else inl tt).

Definition invited (fails : bool) : StateNode :=
  Atomic {| s_name := "invited"; s_type := None;
            s_transitions := Some [transitionTo "ACCEPT" "joined"];
            s_onEntry := Some (welcome fails); s_onExit := None;
            s_isFinal := None; s_validation := None |}.

Definition onboardingConfig (fails : bool) : StateMachineConfig :=
  machine "onboarding" "invited"
    [("invited", invited fails); ("joined", final "joined")].

Definition startOptions (name key : option string) : FlowStartOptions :=
  {| so_flowId := name; so_context := None; so_parentFlowId := None;
     so_idempotencyKey := key |}.

(** An event aimed at one region of a parallel flow. *)
Definition regionOptions (ev target : string) : FlowExecuteOptions :=
  {| o_event := ev; o_data := None; o_targetRegion := Some target;
     o_idempotencyKey := None |}.

(** Two regions that meet on the context: the action of the first raises a
    flag, the guard of the second reads it. *)
Definition raiseFlag : Callback unit :=
  fun c => (<["flag" := VBool true]> c, inl tt).

Definition flagRaised : Callback bool :=
  fun c => (c, inl (bool_decide (c !! "flag" = Some (VBool true)))).

Definition racingConfig : StateMachineConfig :=
  machine "racing" "a"
    [("a", atomic "a" [{| t_from := None; t_event := "GO"; t_to := "b";
                          t_guard := None; t_action := Some raiseFlag;
                          t_retry := None |}]);
     ("b", atomic "b" []);
     ("x", atomic "x" [guarded "GO" "y" flagRaised]);
     ("y", atomic "y" [])].



(** A middleware that lets one event through and rejects the others. *)
Definition only (ev : string) : Wrapper :=
  {| beforeNext := fun context =>
       if String.eqb (mc_event context) ev then ret tt
       else throw "event not allowed";
     afterNext := fun _ result => ret result |}.

(** A middleware that writes to the console before and after the rest of the
    chain. *)
Definition logged (label : string) : Wrapper :=
  {| beforeNext := fun context => emitW (EConsoleError label (mc_event context));
     afterNext := fun _ result => emitW (EConsoleError label "done") ;; ret result |}.

End Examples.

(** * Verification *)

(** ** Rules for computations *)

Module Reasoning.

Lemma bind_ok {S A B} (m : M S A) (k : A -> M S B) s a s1 :
  m s = (Ok a, s1) -> bind m k s = k a s1.
Proof. intros H. unfold bind. by rewrite H. Qed.

Lemma post_intro {S A} (m : M S A) s r s' (Q : Res A -> S -> Prop) :
  m s = (r, s') -> Q r s' -> post m s Q.
Proof. unfold post. by intros ->. Qed.

Lemma post_run {S A} (m : M S A) s (Q : Res A -> S -> Prop) :
  post m s Q -> exists r s', m s = (r, s') /\ Q r s'.
Proof. intros H. exists (m s).1, (m s).2. split; [by destruct (m s)|done]. Qed.

Lemma post_mono {S A} (m : M S A) s (Q Q' : Res A -> S -> Prop) :
  post m s Q -> (forall r s', Q r s' -> Q' r s') -> post m s Q'.
Proof. unfold post. auto. Qed.

Lemma post_ret {S A} (a : A) (s : S) Q : Q (Ok a) s -> post (ret a) s Q.
Proof. done. Qed.

Lemma post_throw {S A} e (s : S) (Q : Res A -> S -> Prop) :
  Q (Throw e) s -> post (throw e) s Q.
Proof. done. Qed.

Lemma post_bind {S A B} (m : M S A) (k : A -> M S B) s Q :
  post m s (fun r s' =>
    match r with
    | Ok a => post (k a) s' Q
    | Throw e => Q (Throw e) s'
    | Crash => Q Crash s'
    end) ->
  post (bind m k) s Q.
Proof. unfold post, bind. by destruct (m s) as [[a|e|] s']. Qed.

Lemma post_catch {S A} (m : M S A) (h : string -> M S A) s Q :
  post m s (fun r s' =>
    match r with
    | Throw e => post (h e) s' Q
    | _ => Q r s'
    end) ->
  post (catch m h) s Q.
Proof. unfold post, catch. by destruct (m s) as [[a|e|] s']. Qed.

Lemma post_outcomeOf {S A} (m : M S A) s (Q : Res (A + string) -> S -> Prop) :
  post m s (fun r s' =>
    match r with
    | Ok a => Q (Ok (inl a)) s'
    | Throw e => Q (Ok (inr e)) s'
    | Crash => Q Crash s'
    end) ->
  post (outcomeOf m) s Q.
Proof. unfold post, outcomeOf, catch, bind, ret. by destruct (m s) as [[a|e|] s']. Qed.

Lemma post_modify {S} (f : S -> S) s Q : Q (Ok tt) (f s) -> post (modify f) s Q.
Proof. done. Qed.

Lemma post_gets {S A} (f : S -> A) s Q : Q (Ok (f s)) s -> post (gets f) s Q.
Proof. done. Qed.

Lemma lookup_snoc {A} (l : list A) x : (l ++ [x]) !! length l = Some x.
Proof. by apply list_lookup_middle. Qed.

End Reasoning.

(** ** The state machine *)

Module StateMachineFacts.
Import StateMachine Reasoning.

Lemma post_call {R} (f : Callback R) s (Q : Res R -> SMState -> Prop) :
  (forall c out, f (sm_context s) = (c, out) ->
     Q (match out with inl r => Ok r | inr e => Throw e end)
       {| sm_context := c; sm_clock := sm_clock s; sm_trace := sm_trace s |}) ->
  post (call f) s Q.
Proof.
  intros H. unfold post, call. specialize (H (f (sm_context s)).1 (f (sm_context s)).2).
  destruct (f (sm_context s)) as [c [r|e]]; by apply H.
Qed.

Lemma post_emit e s (Q : Res unit -> SMState -> Prop) :
  Q (Ok tt) {| sm_context := sm_context s; sm_clock := sm_clock s;
               sm_trace := sm_trace s ++ [e] |} ->
  post (emit e) s Q.
Proof. done. Qed.

Lemma post_sleep ms s (Q : Res unit -> SMState -> Prop) :
  Q (Ok tt) {| sm_context := sm_context s; sm_clock := sm_clock s + timerDuration ms;
               sm_trace := sm_trace s ++ [EDelay ms] |} ->
  post (sleep ms) s Q.
Proof. done. Qed.

(** One step of a state-machine computation: the rule of its head operation,
    or the case analysis it branches on. *)
Ltac post_step :=
  cbn beta iota;
  lazymatch goal with
  | |- post (bind _ _) _ _ => apply post_bind
  | |- post (catch _ _) _ _ => apply post_catch
  | |- post (outcomeOf _) _ _ => apply post_outcomeOf
  | |- post (ret _) _ _ => apply post_ret
  | |- post (throw _) _ _ => apply post_throw
  | |- post (emit _) _ _ => apply post_emit
  | |- post (sleep _) _ _ => apply post_sleep
  | |- post (modify _) _ _ => apply post_modify
  | |- post (gets _) _ _ => apply post_gets
  | |- post (call _) _ _ => apply post_call; intros ? [?|?] ?
  | |- post (match ?x with _ => _ end) _ _ => destruct x eqn:?
  | |- post (if ?x then _ else _) _ _ => destruct x eqn:?
  end; cbn beta iota.

Lemma delaysOf_app a b : delaysOf (a ++ b) = delaysOf a ++ delaysOf b.
Proof. apply omap_app. Qed.

Lemma onErrorsOf_app a b : onErrorsOf (a ++ b) = onErrorsOf a ++ onErrorsOf b.
Proof. apply omap_app. Qed.

Lemma attemptSteps_quiet state t target cs :
  delaysOf (attemptSteps state t target cs) = [] /\
  onErrorsOf (attemptSteps state t target cs) = [].
Proof.
  unfold attemptSteps.
  destruct (onExitOf state), (t_action t), target as [node|];
    try destruct (validationOf node); try destruct (onEntryOf node); done.
Qed.

Lemma prefix_quiet a steps :
  a `prefix_of` steps -> delaysOf steps = [] -> onErrorsOf steps = [] ->
  delaysOf a = [] /\ onErrorsOf a = [].
Proof.
  intros [rest ->]. rewrite delaysOf_app, onErrorsOf_app.
  intros [? _]%app_eq_nil [? _]%app_eq_nil. done.
Qed.

(** The delays of a retry trace are those of its [k] retries, in order, and
    it holds no call of the error handler. *)
Lemma RetryTrace_delays steps delayAfter i k ok tr :
  delaysOf steps = [] -> onErrorsOf steps = [] ->
  RetryTrace steps delayAfter i k ok tr ->
  delaysOf tr = map (fun j => delayAfter (i + Z.of_nat j)) (seq 0 k) /\
  onErrorsOf tr = [].
Proof.
  intros Hd He. induction 1 as [i|i a Hpre _|i k ok a rest Hpre _ _ [IHd IHe]].
  - done.
  - by apply prefix_quiet with steps.
  - destruct (prefix_quiet a steps Hpre Hd He) as [Hda Hea].
    rewrite delaysOf_app, onErrorsOf_app, Hda, Hea. cbn.
    fold (delaysOf rest) (onErrorsOf rest). rewrite IHd, IHe. split; [|done].
    f_equal; [f_equal; lia|].
    rewrite <- seq_shift, map_map. apply map_ext. intros j. f_equal. lia.
Qed.

Section Proofs.
Variable config : StateMachineConfig.

Lemma findIn_returns cands ev s :
  post (findIn cands ev) s (fun r s' =>
    exists o, r = Ok o /\ sm_trace s' = sm_trace s /\ sm_clock s' = sm_clock s).
Proof.
  revert s. induction cands as [|t rest IH]; intros s; simpl.
  - apply post_ret. by exists None.
  - repeat post_step; try (by eexists); try apply IH.
    all: eapply post_mono; [apply IH|]; cbn; intros r s' (o & -> & ? & ?); eauto.
Qed.

Lemma findTransition_returns cs ev s :
  post (findTransition config cs ev) s (fun r s' =>
    exists o, r = Ok o /\ sm_trace s' = sm_trace s /\ sm_clock s' = sm_clock s).
Proof.
  unfold findTransition. destruct (stateMap config !! cs).
  - apply findIn_returns.
  - apply post_ret. by exists None.
Qed.

(** One attempt never crashes; it invokes the steps of the attempt up to the
    one that raises, all of them when it returns. *)
Lemma attemptBody_spec state t cs s :
  let steps := attemptSteps state t (stateMap config !! t_to t) cs in
  post (attemptBody config state t cs) s (fun r s' =>
    r <> Crash /\
    exists a, sm_trace s' = sm_trace s ++ a /\
      a `prefix_of` steps /\ (a = [] -> steps = []) /\
      (forall u, r = Ok u -> a = steps)).
Proof.
  unfold attemptBody, attemptSteps.
  repeat post_step; simpl.
  all: split; [done|].
  all: repeat match goal with H : ?x = _ |- context [?x] => rewrite H end; simpl.
  all: rewrite <- ?app_assoc; simpl.
  all: first [ eexists; split; [reflexivity|]
             | exists []; rewrite app_nil_r; split; [reflexivity|] ].
  all: split; [by eexists|]; split; [done|]; by intros ? [=].
Qed.

Section Loop.
Variables (state : StateNode) (t : Transition) (cs ev : string).
Variables (max : Z) (strategy : BackoffStrategy) (delay : Number).

Lemma attemptLoop_spec fuel a last s :
  0 <= a -> a <= max -> (Z.to_nat (max - a + 1) <= fuel)%nat ->
  post (attemptLoop config state t cs ev max strategy delay fuel a last) s (fun r s' =>
    exists out (k : nat) tr,
      r = Ok out /\ sm_trace s' = sm_trace s ++ tr /\
      a + Z.of_nat k <= max /\
      RetryTrace (attemptSteps state t (stateMap config !! t_to t) cs)
        (backoffDelay strategy delay) a k
        (match out with inl _ => true | inr _ => false end) tr /\
      match out with
      | inl res => res = successResult t cs ev
      | inr e => a + Z.of_nat k = max /\ is_Some e
      end).
Proof.
  revert a last s. induction fuel as [|fuel IH]; intros a last s Ha Hmax Hfuel.
  - lia.
  - simpl. destruct (Z.leb_spec a max); [|lia].
    do 2 post_step.
    eapply post_mono; [apply attemptBody_spec|]. cbn.
    intros r s1 (Hnc & tr & Htr & Hpre & Hne & Hall).
    destruct r as [[]|e|]; [| |done].
    + apply post_ret. exists (inl (successResult t cs ev)), 0%nat, tr.
      split; [done|]. split; [done|]. split; [lia|]. split; [|done].
      rewrite (Hall tt eq_refl). constructor.
    + destruct (Z.ltb_spec a max).
      * do 2 post_step.
        eapply post_mono; [apply (IH (a + 1)); lia|]. cbn.
        intros r s2 (out & k & tr2 & -> & Htr2 & Hk & Hrt & Hout).
        exists out, (S k), (tr ++ EDelay (backoffDelay strategy delay a) :: tr2).
        split; [done|]. split.
        { rewrite Htr2. cbn. rewrite Htr. by rewrite <- !app_assoc. }
        split; [lia|]. split; [by constructor|].
        destruct out; [done|]. destruct Hout. split; [lia|done].
      * do 2 post_step.
        assert (Hnext : forall f l s0,
                  attemptLoop config state t cs ev max strategy delay f (a + 1) l s0
                  = (Ok (inr l), s0)).
        { intros f l s0. destruct f; simpl; destruct (Z.leb_spec (a + 1) max); try lia; done. }
        eapply post_intro; [apply Hnext|].
        exists (inr (Some e)), 0%nat, tr.
        split; [done|]. split; [done|]. split; [lia|]. split; [by constructor|].
        split; [lia|done].
Qed.

End Loop.

Lemma attemptLoop_past state t cs ev max strategy delay fuel a last s :
  max < a ->
  attemptLoop config state t cs ev max strategy delay fuel a last s = (Ok (inr last), s).
Proof. intros H. destruct fuel; simpl; destruct (Z.leb_spec a max); try lia; done. Qed.

Lemma onError_handler_post err s :
  post (match onError config with
        | Some handler => catch (emit (EOnError err) ;; call (handler err)) (fun _ => ret tt)
        | None => ret tt
        end) s (fun r s' =>
    r = Ok tt /\
    sm_trace s' = sm_trace s ++ match onError config with Some _ => [EOnError err] | None => [] end).
Proof.
  repeat post_step; simpl; split; try done; rewrite ?app_nil_r; try done.
  by destruct u.
Qed.

(** Every call of [executeTransition] returns, and what it returns has the
    source state as [fromState] and a single state as [toState]. *)
Lemma executeTransition_shape cs ev s :
  post (executeTransition config cs ev) s (fun r s' =>
    exists res, r = Ok res /\ fromState res = Single cs /\
      exists to, toState res = Single to /\ (success res = false -> to = cs)).
Proof.
  unfold executeTransition.
  destruct (stateMap config !! cs) as [state|] eqn:Hstate.
  2: { apply post_ret. eexists. split; [done|]. simpl. eauto. }
  post_step.
  eapply post_mono; [apply findTransition_returns|]. cbn.
  intros r s1 (o & -> & _ & _). destruct o as [t|].
  2: { apply post_ret. eexists. split; [done|]. simpl. eauto. }
  cbn zeta. set (max := numOr _ 0). set (strategy := default Linear _). set (delay := numberOr _ _).
  post_step.
  destruct (Z.le_gt_cases 0 max) as [Hmax|Hmax].
  - eapply post_mono; [apply attemptLoop_spec; lia|]. cbn.
    intros r s2 (out & k & tr & -> & _ & _ & _ & Hout).
    destruct out as [res|e].
    + subst res. apply post_ret. eexists. split; [done|]. simpl. split; [done|].
      eexists. split; [done|]. discriminate.
    + post_step. eapply post_mono; [apply onError_handler_post|]. cbn.
      intros r s3 [-> _]. apply post_ret. eexists. split; [done|]. simpl. eauto.
  - eapply post_intro; [apply attemptLoop_past; lia|]. cbn.
    post_step. eapply post_mono; [apply onError_handler_post|]. cbn.
    intros r s3 [-> _]. apply post_ret. eexists. split; [done|]. simpl. eauto.
Qed.

(** C2. [executeTransition] always returns an outcome, for the event it was
    given; when the outcome is a failure, its [fromState] and its [toState]
    are both the current state it was called with, and it carries an error,
    whatever the cause: unknown state, no matching transition, or retries
    exhausted. *)
Theorem executeTransition_failure_keeps_state cs ev s :
  exists r s',
    executeTransition config cs ev s = (Ok r, s') /\
    event r = ev /\
    (success r = false ->
       fromState r = Single cs /\ toState r = Single cs /\ is_Some (error r)).
Proof.
  cut (post (executeTransition config cs ev) s (fun r s' =>
         exists res, r = Ok res /\ event res = ev /\
           (success res = false ->
            fromState res = Single cs /\ toState res = Single cs /\ is_Some (error res)))).
  { intros H. apply post_run in H as (r & s' & E & res & -> & ?). eauto. }
  unfold executeTransition.
  destruct (stateMap config !! cs) as [state|] eqn:Hstate.
  2: { apply post_ret. eexists. split; [done|]. simpl. eauto. }
  post_step.
  eapply post_mono; [apply findTransition_returns|]. cbn.
  intros r s1 (o & -> & _ & _). destruct o as [t|].
  2: { apply post_ret. eexists. split; [done|]. simpl. eauto. }
  cbn zeta. set (max := numOr _ 0). set (strategy := default Linear _). set (delay := numberOr _ _).
  post_step.
  destruct (Z.le_gt_cases 0 max) as [Hmax|Hmax].
  - eapply post_mono; [apply attemptLoop_spec; lia|]. cbn.
    intros r s2 (out & k & tr & -> & _ & _ & _ & Hout).
    destruct out as [res|e].
    + subst res. apply post_ret. eexists. split; [done|]. simpl. split; [done|]. discriminate.
    + post_step. eapply post_mono; [apply onError_handler_post|]. cbn.
      intros r s3 [-> _]. apply post_ret. eexists. split; [done|]. simpl. eauto.
  - eapply post_intro; [apply attemptLoop_past; lia|]. cbn.
    post_step. eapply post_mono; [apply onError_handler_post|]. cbn.
    intros r s3 [-> _]. apply post_ret. eexists. split; [done|]. simpl. eauto.
Qed.









Lemma post_and {S A} (m : M S A) s (Q1 Q2 : Res A -> S -> Prop) :
  post m s Q1 -> post m s Q2 -> post m s (fun r s' => Q1 r s' /\ Q2 r s').
Proof. unfold post. done. Qed.

Lemma attemptBody_unfailing state t cs s :
  Unfailing config state t ->
  post (attemptBody config state t cs) s (fun r _ => r = Ok tt).
Proof.
  intros (Hexit & Haction & target & Htarget & Hval & Hentry).
  unfold attemptBody. rewrite Htarget.
  repeat post_step; simpl; try done.
  all: repeat match goal with
       | Hx : forall h, Some ?f = Some h -> Returns h, E : ?f ?c = (_, inr _) |- _ =>
           destruct (Hx f eq_refl c) as [? Hr]; rewrite E in Hr; discriminate Hr
       | Hx : forall v0, Some ?v = Some v0 -> forall c, (validate v0 c).2 = _,
         E : validate ?v ?c = (_, _) |- _ =>
           pose proof (Hx v eq_refl c) as Hr; rewrite E in Hr; simpl in Hr;
           discriminate Hr
       end.
  all: repeat match goal with u : unit |- _ => destruct u end; done.
Qed.

Lemma attemptBody_failing state t cs s :
  Failing config state t ->
  post (attemptBody config state t cs) s (fun r _ => exists e, r = Throw e).
Proof.
  intros Hfail. unfold attemptBody.
  destruct Hfail as [(h0 & Hh & Hr)|[(a0 & Ha & Hr)|[Hnone|[(tg & v0 & Htg & Hv & Hr)
                    |(tg & h0 & Htg & Hh & Hr)]]]].
  - rewrite Hh. repeat post_step; simpl; eauto;
    repeat match goal with
         | E : h0 ?c = (_, inl _) |- _ =>
             destruct (Hr c) as [? Hr']; rewrite E in Hr'; discriminate Hr'
         end.
  - rewrite Ha. repeat post_step; simpl; eauto;
    repeat match goal with
         | E : a0 ?c = (_, inl _) |- _ =>
             destruct (Hr c) as [? Hr']; rewrite E in Hr'; discriminate Hr'
         end.
  - rewrite Hnone. repeat post_step; simpl; eauto.
  - rewrite Htg, Hv. repeat post_step; simpl; eauto;
    repeat match goal with
         | E : validate v0 ?c = (_, inl (VRBool true)) |- _ =>
             destruct (Hr c); by rewrite E
         end.
  - rewrite Htg, Hh. repeat post_step; simpl; eauto;
    repeat match goal with
         | E : h0 ?c = (_, inl _) |- _ =>
             destruct (Hr c) as [? Hr']; rewrite E in Hr'; discriminate Hr'
         end.
Qed.

Lemma attemptLoop_tied state t cs ev max strategy delay fuel :
  forall a last s,
  0 <= a -> a <= max -> (Z.to_nat (max - a + 1) <= fuel)%nat ->
  post (attemptLoop config state t cs ev max strategy delay fuel a last) s (fun r s' =>
    (Unfailing config state t ->
       r = Ok (inl (successResult t cs ev)) /\
       sm_trace s' = sm_trace s
                     ++ attemptSteps state t (stateMap config !! t_to t) cs) /\
    (Failing config state t -> exists e, r = Ok (inr e))).
Proof.
  induction fuel as [|fuel IH]; intros a last s Ha Hmax Hfuel; [lia|].
  simpl. destruct (Z.leb_spec a max); [|lia].
  do 2 post_step.
  eapply post_mono.
  { apply post_and; [apply attemptBody_spec|].
    apply (post_and _ _ (fun r _ => Unfailing config state t -> r = Ok tt)
                        (fun r _ => Failing config state t -> exists e, r = Throw e)).
    - unfold post. intros Hu. by apply attemptBody_unfailing.
    - unfold post. intros Hf. by apply attemptBody_failing. }
  cbn. intros r s1 ((Hnc & tr & Htr & Hpre & Hne & Hall) & Hok & Hthrow).
  destruct r as [[]|e|]; [| |done].
  - apply post_ret. split.
    + intros _. split; [done|]. by rewrite Htr, (Hall tt eq_refl).
    + intros Hf. by destruct (Hthrow Hf).
  - assert (Unfailing config state t -> False) as Hnot.
    { intros Hu. by specialize (Hok Hu). }
    destruct (Z.ltb_spec a max).
    + do 2 post_step.
      eapply post_mono; [apply (IH (a + 1)); lia|]. cbn.
      intros r s2 [_ Hf]. split; [by intros Hu; destruct (Hnot Hu)|done].
    + do 2 post_step.
      eapply post_intro; [apply attemptLoop_past; lia|].
      split; [by intros Hu; destruct (Hnot Hu)|]. eauto.
Qed.

(** X28. The retry loop.  Let [t] be the transition selected for the event,
    with a retry policy whose [maxAttempts] (default 0) is not negative; its
    [delayMs] is read as the code reads it, zero, NaN and an absent value
    giving 1000.  [executeTransition] returns.  What it adds to the trace is
    a run of [k + 1] attempts, [k <= maxAttempts], followed by the call of
    the error handler if there is one.  Each attempt invokes exit action,
    transition action, validation and entry action in this order, up to the
    one that raises; attempt [i], when it fails and is retried, is followed
    by a timer whose delay is the product of doubles [delayMs * (i + 1)] for
    linear and [delayMs * Math.pow(2, i)] for exponential backoff.  On
    success the handler is not invoked.  On failure all [maxAttempts + 1]
    attempts were made and [onError], when registered, is invoked exactly
    once, after them, with the last error; the outcome is that failure even
    when the handler raises.  When no step of an attempt can raise, the
    first attempt succeeds; when some step of every attempt raises, or the
    target is not declared, the outcome is a failure. *)
Theorem retry_schedule cs ev s state t s1 :
  stateMap config !! cs = Some state ->
  findTransition config cs ev s = (Ok (Some t), s1) ->
  let policy := default noRetry (t_retry t) in
  let m := default 0 (maxAttempts policy) in
  let d := numberOr (delayMs policy) (num 1000) in
  let strategy := default Linear (backoff policy) in
  let delayAfter := fun i => match strategy with
                             | Linear => times d (num (i + 1))
                             | Exponential => times d (pow2 i)
                             end in
  0 <= m ->
  exists res s' (k : nat) attempts handler,
    executeTransition config cs ev s = (Ok res, s') /\
    sm_trace s' = sm_trace s1 ++ attempts ++ handler /\
    Z.of_nat k <= m /\
    RetryTrace (attemptSteps state t (stateMap config !! t_to t) cs)
      delayAfter 0 k (success res) attempts /\
    delaysOf (attempts ++ handler) =
      map (fun i => delayAfter (Z.of_nat i)) (seq 0 k) /\
    onErrorsOf attempts = [] /\
    (success res = true -> handler = []) /\
    (success res = false ->
       Z.of_nat k = m /\
       exists e, error res = Some e /\
         handler = match onError config with
                   | Some _ => [EOnError e]
                   | None => []
                   end) /\
    (Unfailing config state t -> success res = true /\ k = 0%nat) /\
    (Failing config state t -> success res = false).
Proof.
  intros Hstate Hfind policy m d strategy delayAfter Hm.
  cut (post (executeTransition config cs ev) s (fun r s' =>
    (exists res (k : nat) attempts handler, r = Ok res /\
     sm_trace s' = sm_trace s1 ++ attempts ++ handler /\
     Z.of_nat k <= m /\
     RetryTrace (attemptSteps state t (stateMap config !! t_to t) cs)
       delayAfter 0 k (success res) attempts /\
     delaysOf (attempts ++ handler) =
       map (fun i => delayAfter (Z.of_nat i)) (seq 0 k) /\
     onErrorsOf attempts = [] /\
     (success res = true -> handler = []) /\
     (success res = false ->
        Z.of_nat k = m /\
        exists e, error res = Some e /\
          handler = match onError config with
                    | Some _ => [EOnError e]
                    | None => []
                    end)) /\
    ((Unfailing config state t ->
        exists res, r = Ok res /\ success res = true /\
          sm_trace s' = sm_trace s1
                        ++ attemptSteps state t (stateMap config !! t_to t) cs) /\
     (Failing config state t -> exists res, r = Ok res /\ success res = false)))).
  { intros H. apply post_run in H
      as (r & s' & E & (res & k & tr & h & -> & Htr & Hk & Hrt & Hdel & Herr & Hs & Hf)
          & Hu & Hfl).
    exists res, s', k, tr, h. do 8 (split; [done|]). split.
    - intros H. destruct (Hu H) as (res' & [= <-] & Hsucc & Htr').
      split; [done|].
      rewrite Htr' in Htr. apply app_inv_head in Htr.
      destruct (attemptSteps_quiet state t (stateMap config !! t_to t) cs) as [Hqd _].
      rewrite <- Htr, Hqd in Hdel. by destruct k.
    - intros H. by destruct (Hfl H) as (res' & [= <-] & Hsucc). }
  assert (numOr (maxAttempts policy) 0 = m) as Hmax.
  { unfold m, numOr. destruct (maxAttempts policy) as [n|]; [|done]. simpl.
    destruct (Z.eqb_spec n 0); congruence. }
  assert (numberOr (delayMs policy) (num 1000) = d) as Hdelay by done.
  assert (forall i, backoffDelay strategy d i = delayAfter i) as Hback.
  { intros i. unfold backoffDelay, delayAfter. by destruct strategy. }
  apply post_and.
  - unfold executeTransition. rewrite Hstate.
    post_step. eapply post_intro; [exact Hfind|]. cbn beta iota zeta.
    fold policy. rewrite Hmax, Hdelay. fold strategy.
    post_step.
    eapply post_mono; [apply attemptLoop_spec; lia|]. cbn.
    intros r s2 (out & k & tr & -> & Htr & Hk & Hrt & Hout).
    assert (RetryTrace (attemptSteps state t (stateMap config !! t_to t) cs)
              delayAfter 0 k (match out with inl _ => true | inr _ => false end) tr)
      as Hrt'.
    { clear -Hrt Hback. induction Hrt; [constructor|by constructor|].
      rewrite Hback. by constructor. }
    destruct (attemptSteps_quiet state t (stateMap config !! t_to t) cs) as [Hqd Hqe].
    destruct (RetryTrace_delays _ _ _ _ _ _ Hqd Hqe Hrt') as [Hdel Herr].
    destruct out as [res|e].
    + subst res. apply post_ret. exists (successResult t cs ev), k, tr, [].
      rewrite app_nil_r. repeat split; try done; try lia.
    + destruct Hout as [Hkm [msg ->]]. post_step.
      eapply post_mono; [apply onError_handler_post|]. cbn.
      intros r s3 [-> Htr3]. apply post_ret.
      eexists _, k, tr, _. split; [done|]. split.
      { rewrite Htr3, Htr. by rewrite <- app_assoc. }
      split; [lia|]. split; [exact Hrt'|]. split.
      { rewrite delaysOf_app, Hdel. destruct (onError config); by rewrite app_nil_r. }
      split; [done|]. split; [done|].
      intros _. split; [lia|]. exists msg. done.
  - unfold executeTransition. rewrite Hstate.
    post_step. eapply post_intro; [exact Hfind|]. cbn beta iota zeta.
    fold policy. rewrite Hmax, Hdelay. fold strategy.
    post_step.
    eapply post_mono; [apply attemptLoop_tied; lia|]. cbn.
    intros r s2 [Hu Hf].
    destruct r as [[res|e]|e|].
    + apply post_ret. split.
      * intros H. destruct (Hu H) as [[= ->] Htr]. eexists. done.
      * intros H. by destruct (Hf H).
    + post_step. eapply post_mono; [apply onError_handler_post|]. cbn.
      intros r s3 [-> _]. apply post_ret. split.
      * intros H. by destruct (Hu H).
      * intros _. eexists. done.
    + split; [intros H; by destruct (Hu H)|intros H; by destruct (Hf H)].
    + split; [intros H; by destruct (Hu H)|intros H; by destruct (Hf H)].
Qed.

End Proofs.

(** ** Calls in flight *)

Lemma Within_mono {A} (Q Q' : Res A -> Prop) n n' t :
  Within Q n t -> (n <= n')%nat -> (forall r, Q r -> Q' r) -> Within Q' n' t.
Proof.
  intros H. revert n'. induction H as [n r Hr|n resume _ IH|n delay resume _ IH];
    intros n' Hn HQ.
  - constructor. by apply HQ.
  - destruct n' as [|n']; [lia|]. constructor. intros s. apply IH; [lia|done].
  - destruct n' as [|n']; [lia|]. constructor. intros s. apply IH; [lia|done].
Qed.

Lemma WithinA_mono {A} (Q Q' : Res A -> Prop) n n' (m : Async A) :
  WithinA Q n m -> (n <= n')%nat -> (forall r, Q r -> Q' r) -> WithinA Q' n' m.
Proof. intros H Hn HQ s. by eapply Within_mono. Qed.

Lemma Within_andThen {A B} (Q1 : Res A -> Prop) (Q2 : Res B -> Prop) n1 n2 t
    (k : Res A -> Async B) :
  Within Q1 n1 t -> (forall r, Q1 r -> WithinA Q2 n2 (k r)) ->
  forall s, Within Q2 (n1 + n2) (andThen t k s).1.
Proof.
  intros H Hk. induction H as [n r Hr|n resume _ IH|n delay resume _ IH]; intros s.
  - simpl. eapply Within_mono; [by apply Hk|lia|done].
  - simpl. constructor. intros s'. specialize (IH s').
    destruct (resume s') as [t' s'']. apply IH.
  - simpl. constructor. intros s'. specialize (IH s').
    destruct (resume s') as [t' s'']. apply IH.
Qed.

Lemma WithinA_now {A} (Q : Res A -> Prop) n (m : M SMState A) :
  (forall s, Q (m s).1) -> WithinA Q n (now m).
Proof.
  intros H s. unfold now. specialize (H s). destruct (m s) as [r s'].
  by constructor.
Qed.

Lemma WithinA_retA {A} (Q : Res A -> Prop) n (a : A) : Q (Ok a) -> WithinA Q n (retA a).
Proof. intros H. by apply WithinA_now. Qed.

Lemma WithinA_throwA {A} (Q : Res A -> Prop) n e : Q (Throw e) -> WithinA Q n (throwA e).
Proof. intros H. by apply WithinA_now. Qed.

Lemma WithinA_yield (Q : Res unit -> Prop) n : Q (Ok tt) -> WithinA Q (S n) yield.
Proof. intros H s. simpl. constructor. intros s'. by constructor. Qed.

Lemma WithinA_sleepA (Q : Res unit -> Prop) n delay :
  Q (Ok tt) -> WithinA Q (S n) (sleepA delay).
Proof. intros H s. simpl. constructor. intros s'. by constructor. Qed.

Lemma WithinA_bind {A B} (Q1 : Res A -> Prop) (Q2 : Res B -> Prop) n1 n2
    (m : Async A) (k : A -> Async B) :
  WithinA Q1 n1 m ->
  (forall a, Q1 (Ok a) -> WithinA Q2 n2 (k a)) ->
  (forall e, Q1 (Throw e) -> Q2 (Throw e)) ->
  (Q1 Crash -> Q2 Crash) ->
  WithinA Q2 (n1 + n2) (bindA m k).
Proof.
  intros Hm Hk He Hc s. unfold bindA. specialize (Hm s).
  destruct (m s) as [t s']. eapply Within_andThen; [exact Hm|].
  intros [a|e|] Hr.
  - by apply Hk.
  - apply WithinA_now. intros. by apply He.
  - apply WithinA_now. intros. by apply Hc.
Qed.

Lemma WithinA_catch {A} (Q1 Q2 : Res A -> Prop) n1 n2
    (m : Async A) (h : string -> Async A) :
  WithinA Q1 n1 m ->
  (forall e, Q1 (Throw e) -> WithinA Q2 n2 (h e)) ->
  (forall a, Q1 (Ok a) -> Q2 (Ok a)) ->
  (Q1 Crash -> Q2 Crash) ->
  WithinA Q2 (n1 + n2) (catchA m h).
Proof.
  intros Hm Hh Ha Hc s. unfold catchA. specialize (Hm s).
  destruct (m s) as [t s']. eapply Within_andThen; [exact Hm|].
  intros [a|e|] Hr.
  - apply WithinA_now. intros. by apply Ha.
  - by apply Hh.
  - apply WithinA_now. intros. by apply Hc.
Qed.

Lemma WithinA_await {A} (Q : Res A -> Prop) n (m : M SMState A) :
  (forall s, Q (m s).1) -> WithinA Q (S n) (await m).
Proof.
  intros H. unfold await.
  change (S n) with (0 + S n)%nat.
  apply (WithinA_bind Q); [by apply WithinA_now| |done|done].
  intros a Ha.
  replace (S n) with (1 + n)%nat by lia.
  apply (WithinA_bind (fun r => r = Ok tt)).
  - by apply WithinA_yield.
  - intros _ _. by apply WithinA_now.
  - by intros e [=].
  - by intros [=].
Qed.

Lemma WithinA_awaitAsync {A} (Q : Res A -> Prop) n (m : Async A) :
  WithinA Q n m -> WithinA Q (n + 1) (awaitAsync m).
Proof.
  intros Hm s. unfold awaitAsync. specialize (Hm s).
  destruct (m s) as [t s']. eapply Within_andThen; [exact Hm|].
  intros r Hr.
  change 1%nat with (1 + 0)%nat.
  apply (WithinA_bind (fun r => r = Ok tt)).
  - by apply WithinA_yield.
  - intros _ _. by apply WithinA_now.
  - by intros e [=].
  - by intros [=].
Qed.

Lemma WithinA_outcomeOfA {A} (Q : Res A -> Prop) (Q' : Res (A + string) -> Prop) n
    (m : Async A) :
  WithinA Q n m ->
  (forall a, Q (Ok a) -> Q' (Ok (inl a))) ->
  (forall e, Q (Throw e) -> Q' (Ok (inr e))) ->
  (Q Crash -> Q' Crash) ->
  WithinA Q' n (outcomeOfA m).
Proof.
  intros Hm Ha He Hc. unfold outcomeOfA.
  replace n with (n + 0 + 0)%nat by lia.
  apply (WithinA_catch
           (fun r => match r with
                     | Ok (inl a) => Q (Ok a)
                     | Ok (inr _) => False
                     | Throw e => Q (Throw e)
                     | Crash => Q Crash
                     end)).
  - apply (WithinA_bind Q); [done| |done|done].
    intros a HQ. by apply WithinA_retA.
  - intros e HQ. apply WithinA_retA. by apply He.
  - intros [a|e] HQ; [by apply Ha|done].
  - done.
Qed.

(** ** The event loop *)

Lemma Budget_app {A} (Q : nat -> Res A -> Prop) n l1 l2 t1 t2 :
  Budget Q n l1 t1 -> Budget Q n l2 t2 -> Budget Q n (l1 ++ l2) (t1 + t2).
Proof.
  induction 1 as [|i resume b rest total Hi Hw _ IH]; intros H2; [done|].
  simpl. replace (S (b + total + t2)) with (S b + (total + t2))%nat by lia.
  constructor; auto.
Qed.

Lemma place_inv {A} (Q : nat -> Res A -> Prop) n started started' fuel b i t
    clock (loop : Loop A) queued pending :
  (i < n)%nat -> Within (Q i) b t ->
  length (outcomes loop) = n ->
  (forall (j : nat) r, outcomes loop !! j = Some (Some r) -> Q j r) ->
  (forall j : nat, (j < started)%nat -> j <> i -> outcomes loop !! j = Some None ->
     j ∈ map fst (microtasks loop) \/
     j ∈ map (fun timer => fst (snd timer)) (timers loop)) ->
  (forall j : nat, (j < started')%nat -> (j < started)%nat \/ j = i) ->
  Budget Q n (microtasks loop) queued ->
  Budget Q n (map snd (timers loop)) pending ->
  (queued + pending + b <= fuel)%nat ->
  LoopInv Q n started' fuel (place i t clock loop).
Proof.
  intros Hi Hw Hlen Hdone Hsusp Hstarted Hq Hp Hfuel.
  assert (forall j : nat, j = i \/ j <> i) as Hdec by (intros; lia).
  destruct Hw as [b r Hr|b resume Hres|b delay resume Hres]; simpl.
  - split; [by simpl; rewrite length_insert|]. split; [|split].
    + intros j r' Hj. simpl in Hj. destruct (Hdec j) as [->|Hne].
      * rewrite list_lookup_insert_eq in Hj by lia. by simplify_eq.
      * rewrite list_lookup_insert_ne in Hj by done. by eapply Hdone.
    + intros j Hlt Hj. simpl in *. destruct (Hdec j) as [->|Hne].
      * rewrite list_lookup_insert_eq in Hj by lia. done.
      * rewrite list_lookup_insert_ne in Hj by done.
        apply Hsusp; [|done|done]. destruct (Hstarted j Hlt); [done|lia].
    + exists queued, pending. simpl. repeat split; [done|done|lia].
  - split; [done|]. split; [done|]. split.
    + intros j Hlt Hj. simpl in *. rewrite map_app, elem_of_app. simpl.
      destruct (Hdec j) as [->|Hne].
      * left. right. apply list_elem_of_singleton. done.
      * destruct (Hsusp j) as [H|H]; [|done|done|by left; left|by right].
        destruct (Hstarted j Hlt); [done|lia].
    + exists (queued + (S b + 0))%nat, pending. simpl. split; [|split; [done|lia]].
      apply Budget_app; [done|]. constructor; [done|done|constructor].
  - split; [done|]. split; [done|]. split.
    + intros j Hlt Hj. simpl in *. rewrite map_app, elem_of_app. simpl.
      destruct (Hdec j) as [->|Hne].
      * right. right. apply list_elem_of_singleton. done.
      * destruct (Hsusp j) as [H|H]; [|done|done|by left|by right; left].
        destruct (Hstarted j Hlt); [done|lia].
    + exists queued, (pending + (S b + 0))%nat. simpl. split; [done|]. split; [|lia].
      rewrite map_app. apply Budget_app; [done|]. constructor; [done|done|constructor].
Qed.

Lemma dueFirst_None {A} (pending : list (Z * Suspended A)) :
  dueFirst pending = None -> pending = [].
Proof.
  destruct pending as [|timer rest]; [done|]. simpl.
  destruct (dueFirst rest) as [[best others]|]; [|done].
  by destruct (fst best <? fst timer).
Qed.

Lemma dueFirst_budget {A} (Q : nat -> Res A -> Prop) n
    (pending : list (Z * Suspended A)) expiry i resume others total :
  dueFirst pending = Some ((expiry, (i, resume)), others) ->
  Budget Q n (map snd pending) total ->
  exists b rest, total = (S b + rest)%nat /\ (i < n)%nat /\
    (forall s, Within (Q i) b (resume s).1) /\
    Budget Q n (map snd others) rest.
Proof.
  revert expiry i resume others total.
  induction pending as [|[e [j res]] more IH]; intros expiry i resume others total;
    [done|].
  simpl. intros Hdue Hb. inversion Hb as [|j' res' b rest total' Hj Hw Hrest]; subst.
  destruct (dueFirst more) as [[[e' [i' resume']] others']|] eqn:Hmore.
  - simpl in Hdue. destruct (e' <? e).
    + simplify_eq. destruct (IH _ _ _ _ _ eq_refl Hrest) as (b' & rest' & -> & Hi & Hw' & Hb').
      exists b', (S b + rest')%nat. split; [lia|]. split; [done|]. split; [done|].
      simpl. by constructor.
    + simplify_eq. by exists b, total'.
  - simplify_eq. apply dueFirst_None in Hmore as ->. by exists b, total'.
Qed.

Lemma dueFirst_elem {A} (pending : list (Z * Suspended A)) best others (j : nat) :
  dueFirst pending = Some (best, others) ->
  j ∈ map (fun timer => fst (snd timer)) pending ->
  j = fst (snd best) \/ j ∈ map (fun timer => fst (snd timer)) others.
Proof.
  revert best others. induction pending as [|timer more IH]; intros best others; [done|].
  simpl. intros Hdue Hj.
  destruct (dueFirst more) as [[best' others']|] eqn:Hmore.
  - destruct (fst best' <? fst timer).
    + simplify_eq. apply elem_of_cons in Hj as [->|Hj].
      * right. simpl. by left.
      * destruct (IH _ _ eq_refl Hj) as [H|H]; [by left|]. right. simpl. by right.
    + simplify_eq. apply elem_of_cons in Hj as [->|Hj]; [by left|by right].
  - simplify_eq. apply dueFirst_None in Hmore as ->.
    apply elem_of_cons in Hj as [->|Hj]; [by left|by right].
Qed.

Lemma allSettled_spec {A} (outcomes : list (option (Res A))) :
  (forall i : nat, outcomes !! i <> Some None) ->
  exists settled, allSettled outcomes = Some settled /\
    length settled = length outcomes /\
    forall (i : nat) r, settled !! i = Some r -> outcomes !! i = Some (Some r).
Proof.
  induction outcomes as [|[r|] rest IH]; intros H.
  - by exists [].
  - destruct IH as (settled & Heq & Hlen & Hl).
    { intros i. apply (H (S i)). }
    exists (r :: settled). simpl. rewrite Heq. split; [done|]. split; [by rewrite Hlen|].
    intros [|i] r' Hi; simpl in *; [by simplify_eq|by apply Hl].
  - by destruct (H 0%nat).
Qed.

Lemma turns_spec {A} (Q : nat -> Res A -> Prop) n fuel (loop : Loop A) s :
  LoopInv Q n n fuel loop ->
  exists settled s', turns fuel loop s = (Ok settled, s') /\
    length settled = n /\
    forall (i : nat) r, settled !! i = Some r -> Q i r.
Proof.
  revert loop s. induction fuel as [|fuel IH]; intros loop s
    (Hlen & Hdone & Hsusp & queued & pending & Hq & Hp & Hfuel);
    pose proof (fun _ : unit => Hlen) as Hn; clear Hlen.
  - assert (queued = 0 /\ pending = 0)%nat as [-> ->] by lia.
    inversion Hq as [Hm|].
    destruct (timers loop) as [|timer more] eqn:Ht; [|inversion Hp].
    simpl. rewrite <- Hm, Ht. simpl.
    destruct (allSettled_spec (outcomes loop)) as (settled & -> & Hl & Hs).
    { intros i Hi. destruct (Hsusp i) as [H|H]; [|done| |].
      - apply lookup_lt_Some in Hi. rewrite (Hn tt) in Hi. lia.
      - try rewrite <- Hm in H. by apply elem_of_nil in H.
      - try rewrite Ht in H. by apply elem_of_nil in H. }
    exists settled, s. split; [done|]. split; [by rewrite Hl, (Hn tt)|].
    intros i r Hi. apply Hdone. by apply Hs.
  - simpl. destruct (microtasks loop) as [|[i resume] more] eqn:Hm.
    + destruct (dueFirst (timers loop)) as [[[expiry [i resume]] others]|] eqn:Hdue.
      * destruct (dueFirst_budget Q n _ _ _ _ _ _ Hdue Hp)
          as (b & rest & -> & Hi & Hw & Hrest).
        match goal with |- context [resume ?s0] => specialize (Hw s0);
          destruct (resume s0) as [t s'] end.
        apply IH. inversion Hq as [Hz|]. subst queued.
        eapply (place_inv Q n n n fuel b i t _ _ 0%nat rest); simpl;
          [exact Hi|exact Hw|apply (Hn tt)|exact Hdone| |intros; lia|constructor
          |exact Hrest|lia].
        intros j Hlt Hne Hj. destruct (Hsusp j Hlt Hj) as [H|H].
        -- by apply elem_of_nil in H.
        -- right. destruct (dueFirst_elem _ _ _ _ Hdue H) as [H'|H']; [done|done].
      * apply dueFirst_None in Hdue.
        destruct (allSettled_spec (outcomes loop)) as (settled & -> & Hl & Hs).
        { intros i Hi. destruct (Hsusp i) as [H|H]; [|done| |].
          - apply lookup_lt_Some in Hi. rewrite (Hn tt) in Hi. lia.
          - try rewrite Hm in H. by apply elem_of_nil in H.
          - try rewrite Hdue in H. by apply elem_of_nil in H. }
        exists settled, s. split; [done|]. split; [by rewrite Hl, (Hn tt)|].
        intros i r Hi. apply Hdone. by apply Hs.
    + inversion Hq as [|i' resume' b rest total Hi Hw Hrest Heq1 Heq2]. subst queued.
      clear Heq1.
      specialize (Hw s). destruct (resume s) as [t s'].
      apply IH.
      eapply (place_inv Q n n n fuel b i t _ _ total pending); simpl;
        [exact Hi|exact Hw|apply (Hn tt)|exact Hdone| |intros; lia|exact Hrest
        |exact Hp|lia].
      intros j Hlt Hne Hj. destruct (Hsusp j Hlt Hj) as [Hin|Hin]; [|by right].
      simpl in Hin. apply elem_of_cons in Hin as [->|Hin]; [done|by left].
Qed.

Lemma startAll_spec {A} (Q : nat -> Res A -> Prop) n (calls : list (Async A))
    budgets i fuel (loop : Loop A) s :
  (i + length calls = n)%nat ->
  Forall2 (fun call bi => WithinA (Q bi.1) bi.2 call) calls
    (imap (fun k b => ((i + k)%nat, b)) budgets) ->
  LoopInv Q n i fuel loop ->
  LoopInv Q n n (fuel + sum_list budgets) (startAll calls i loop s).1.
Proof.
  revert budgets i fuel loop s.
  induction calls as [|call rest IH]; intros budgets i fuel loop s Hn Hall Hinv.
  - simpl in *. apply Forall2_nil_inv_l in Hall. destruct budgets; [|done].
    simpl. assert (n = i) as -> by lia. replace (fuel + 0)%nat with fuel by lia. done.
  - destruct budgets as [|b budgets]; [by apply Forall2_cons_nil_inv in Hall|].
    simpl in Hall. apply Forall2_cons in Hall as [Hcall Hrest].
    simpl in Hcall. replace (i + 0)%nat with i in Hcall by lia.
    simpl. specialize (Hcall s). destruct (call s) as [t s'].
    replace (fuel + (b + sum_list budgets))%nat
      with ((fuel + b) + sum_list budgets)%nat by lia.
    apply IH; [simpl in Hn; lia| |].
    + erewrite imap_ext; [exact Hrest|]. intros k x _. simpl. f_equal. lia.
    + destruct Hinv as (Hlen & Hdone & Hsusp & queued & pending & Hq & Hp & Hfuel).
      eapply (place_inv Q n i (S i) (fuel + b) b i t _ _ queued pending); simpl;
        [simpl in Hn; lia|exact Hcall|exact Hlen|exact Hdone| |intros; lia|exact Hq
        |exact Hp|lia].
      intros j Hlt Hne Hj. by apply Hsusp.
Qed.

(** The calls started together all settle, each with an outcome it can
    settle with, whatever the turns the others take in between. *)
Lemma eventLoop_spec {A} (Q : nat -> Res A -> Prop) (calls : list (Async A))
    budgets fuel s :
  Forall2 (fun call bi => WithinA (Q bi.1) bi.2 call) calls
    (imap (fun k b => (k, b)) budgets) ->
  (sum_list budgets <= fuel)%nat ->
  exists settled s', eventLoop fuel calls s = (Ok settled, s') /\
    length settled = length calls /\
    forall (i : nat) r, settled !! i = Some r -> Q i r.
Proof.
  intros Hall Hfuel. unfold eventLoop.
  set (init := {| outcomes := replicate (length calls) None; microtasks := [];
                  timers := [] |}).
  assert (LoopInv Q (length calls) 0 0 init) as Hinit.
  { split; [by simpl; rewrite length_replicate|]. split; [|split].
    - intros i r Hi. simpl in Hi. apply lookup_replicate in Hi as [? _]. done.
    - intros i Hi. lia.
    - exists 0%nat, 0%nat. simpl. repeat split; [constructor|constructor|lia]. }
  pose proof (startAll_spec Q (length calls) calls budgets 0 0 init s eq_refl
                Hall Hinit) as Hstart.
  destruct (startAll calls 0 init s) as [loop s']. simpl in Hstart.
  apply (turns_spec Q).
  destruct Hstart as (H1 & H2 & H3 & queued & pending & Hq & Hp & Hle).
  repeat split; [done|done|done|]. exists queued, pending.
  repeat split; [done|done|lia].
Qed.

Lemma Within_both {A X} (P : X -> Prop) (Q : X -> Res A -> Prop) (Q' : Res A -> Prop)
    n (t : Task A) :
  Within Q' n t -> (forall x, P x -> exists n', Within (Q x) n' t) ->
  Within (fun r => Q' r /\ forall x, P x -> Q x r) n t.
Proof.
  induction 1 as [n r Hr|n resume _ IH|n delay resume _ IH]; intros Hx.
  - constructor. split; [done|]. intros x Px.
    destruct (Hx x Px) as [n' H]. by inversion H.
  - constructor. intros s. apply IH. intros x Px.
    destruct (Hx x Px) as [n' H]. inversion H; subst. eauto.
  - constructor. intros s. apply IH. intros x Px.
    destruct (Hx x Px) as [n' H]. inversion H; subst. eauto.
Qed.

(** ** The methods turn by turn *)

Lemma call_not_crash {R} (f : Callback R) s : (call f s).1 <> Crash.
Proof. unfold call. destruct (f (sm_context s)) as [c [r|e]]; done. Qed.

Lemma hook_not_crash {R} e (f : Callback R) s : ((emit e ;; call f) s).1 <> Crash.
Proof. unfold bind, emit, modify. simpl. apply call_not_crash. Qed.

Section Turns.
Variable config : StateMachineConfig.

Lemma findIn_within ev candidates :
  WithinA (fun r => r = Ok None \/
             exists t, r = Ok (Some t) /\ t ∈ candidates /\ t_event t = ev)
    (length candidates) (Stepwise.findIn candidates ev).
Proof.
  induction candidates as [|t rest IH]; simpl.
  - apply WithinA_retA. by left.
  - destruct (String.eqb (t_event t) ev) eqn:He.
    + apply String.eqb_eq in He. destruct (t_guard t) as [guard|].
      * change (S (length rest)) with (1 + 0 + length rest)%nat.
        apply (WithinA_bind (fun r => exists b : bool, r = Ok b)).
        -- apply (WithinA_catch (fun r => r <> Crash)).
           ++ apply WithinA_await. intros s. apply call_not_crash.
           ++ intros e _. apply WithinA_retA. eauto.
           ++ eauto.
           ++ done.
        -- intros [|] _.
           ++ apply WithinA_retA. right. exists t. split; [done|]. split; [by left|done].
           ++ eapply WithinA_mono; [exact IH|done|].
              intros r [->|(u & -> & Hu & Hev)]; [by left|].
              right. exists u. split; [done|]. split; [by right|done].
        -- by intros e [b [=]].
        -- by intros [b [=]].
      * apply WithinA_retA. right. exists t. split; [done|]. split; [by left|done].
    + eapply WithinA_mono; [exact IH|lia|].
      intros r [->|(u & -> & Hu & Hev)]; [by left|].
      right. exists u. split; [done|]. split; [by right|done].
Qed.

Lemma findIn_none ev candidates s :
  (forall t, t ∈ candidates -> t_event t <> ev) ->
  Stepwise.findIn candidates ev s = (Settled (Ok None), s).
Proof.
  induction candidates as [|t rest IH]; intros H; [done|]. simpl.
  destruct (String.eqb (t_event t) ev) eqn:He.
  - apply String.eqb_eq in He. destruct (H t); [by left|done].
  - apply IH. intros u Hu. apply H. by right.
Qed.

Lemma findIn_first ev skipped t rest s :
  (forall u, u ∈ skipped -> t_event u <> ev) ->
  t_event t = ev -> t_guard t = None ->
  Stepwise.findIn (skipped ++ t :: rest) ev s = (Settled (Ok (Some t)), s).
Proof.
  intros Hskip Hev Hg. induction skipped as [|u skipped IH]; simpl.
  - rewrite Hev, String.eqb_refl, Hg. done.
  - destruct (String.eqb (t_event u) ev) eqn:He.
    + apply String.eqb_eq in He. destruct (Hskip u); [by left|done].
    + apply IH. intros v Hv. apply Hskip. by right.
Qed.

Lemma attemptBody_within state t cs :
  WithinA (fun r => r <> Crash /\ (r = Ok tt -> is_Some (stateMap config !! t_to t)))
    4 (Stepwise.attemptBody config state t cs).
Proof.
  unfold Stepwise.attemptBody.
  change 4%nat with (1 + (1 + (1 + 1)))%nat.
  apply (WithinA_bind (fun r => r <> Crash)); [| |done|done].
  { destruct (onExitOf state) as [h|].
    - apply WithinA_await. intros s. apply hook_not_crash.
    - by apply WithinA_retA. }
  intros _ _.
  apply (WithinA_bind (fun r => r <> Crash)); [| |done|done].
  { destruct (t_action t) as [a|].
    - apply WithinA_await. intros s. apply hook_not_crash.
    - by apply WithinA_retA. }
  intros _ _.
  destruct (stateMap config !! t_to t) as [target|] eqn:Ht.
  - apply (WithinA_bind (fun r => r <> Crash)); [| |done|done].
    { destruct (validationOf target) as [v|].
      - change 1%nat with (1 + 0)%nat.
        apply (WithinA_bind (fun r => r <> Crash)); [| |done|done].
        + apply WithinA_await. intros s. apply hook_not_crash.
        + intros [[|]|msg] _; [by apply WithinA_retA|by apply WithinA_throwA
                                |by apply WithinA_throwA].
      - by apply WithinA_retA. }
    intros _ _. destruct (onEntryOf target) as [h|].
    + apply WithinA_await. intros s. split; [apply hook_not_crash|eauto].
    + apply WithinA_retA. eauto.
  - by apply WithinA_throwA.
Qed.

Lemma attemptLoop_within state t cs ev max strategy delay fuel :
  forall attempt lastError,
  (attempt <= max -> (Z.to_nat (max - attempt + 1) <= fuel)%nat) ->
  WithinA (fun r => exists out, r = Ok out /\
             forall res, out = inl res ->
               res = {| success := true; fromState := Single cs;
                        toState := Single (t_to t); event := ev;
                        StateMachine.error := None |} /\
               is_Some (stateMap config !! t_to t))
    (fuel * 5)
    (Stepwise.attemptLoop config state t cs ev max strategy delay fuel attempt
       lastError).
Proof.
  induction fuel as [|fuel IH]; intros attempt lastError Hfuel; simpl.
  - destruct (attempt <=? max) eqn:Hle.
    + apply Z.leb_le in Hle. specialize (Hfuel Hle). lia.
    + apply WithinA_retA. eexists. split; [done|]. by intros res [=].
  - destruct (attempt <=? max) eqn:Hle.
    + apply Z.leb_le in Hle.
      change (S (S (S (S (S (fuel * 5))))))%nat with (4 + (1 + fuel * 5))%nat.
      apply (WithinA_bind
               (fun r => exists o : unit + string, r = Ok o /\
                  (forall u, o = inl u -> is_Some (stateMap config !! t_to t)))).
      * eapply WithinA_outcomeOfA; [apply attemptBody_within| | |].
        -- intros [] [_ H]. eexists. split; [done|]. intros _ _. by apply H.
        -- intros e _. eexists. split; [done|]. by intros u [=].
        -- by intros [H _].
      * intros [u|e] (o & [= <-] & Ho).
        -- apply WithinA_retA. eexists. split; [done|]. intros res [= <-].
           split; [done|]. by eapply Ho.
        -- apply (WithinA_bind (fun r => r = Ok tt)).
           ++ destruct (attempt <? max); [by apply WithinA_sleepA|by apply WithinA_retA].
           ++ intros _ _. apply IH. intros H. specialize (Hfuel Hle). lia.
           ++ by intros e' [=].
           ++ by intros [=].
      * by intros e (o & [=] & _).
      * by intros (o & [=] & _).
    + apply WithinA_retA. eexists. split; [done|]. by intros res [=].
Qed.

Lemma maxRetries_ge candidates t :
  t ∈ candidates ->
  numOr (maxAttempts (default noRetry (t_retry t))) 0
    <= Stepwise.maxRetries candidates.
Proof.
  induction candidates as [|u rest IH]; intros Ht; [by apply elem_of_nil in Ht|].
  simpl. apply elem_of_cons in Ht as [->|Ht]; [lia|]. specialize (IH Ht). lia.
Qed.

Lemma maxRetries_nonneg candidates : 0 <= Stepwise.maxRetries candidates.
Proof. induction candidates as [|u rest IH]; simpl; lia. Qed.

(** Whatever the other calls in flight do to the context between its turns,
    a call of [executeTransition] settles, within [turnsOf] turns, and
    returns the outcome of an attempt on its state. *)
Lemma executeTransition_within cs ev :
  WithinA (fun r => exists res, r = Ok res /\ Attempted config ev cs res)
    (Stepwise.turnsOf config cs) (Stepwise.executeTransition config cs ev).
Proof.
  assert (forall msg, Attempted config ev cs (failure cs ev msg)) as Hfail.
  { intros msg. split; [done|]. split; [done|]. exists cs. split; [done|].
    split; [done|]. intros _. split; [done|]. simpl. eauto. }
  unfold Stepwise.executeTransition, Stepwise.turnsOf.
  destruct (stateMap config !! cs) as [state|] eqn:Hcs.
  - set (candidates := getTransitions config cs).
    replace (length candidates + 1 + Z.to_nat (Stepwise.maxRetries candidates + 1) * 5 + 1)%nat
      with ((length candidates + 1)
            + (Z.to_nat (Stepwise.maxRetries candidates + 1) * 5 + (1 + 0)))%nat by lia.
    apply (WithinA_bind (fun r => r = Ok None \/
             exists t, r = Ok (Some t) /\ t ∈ candidates /\ t_event t = ev)).
    + apply WithinA_awaitAsync. unfold Stepwise.findTransition. rewrite Hcs.
      apply findIn_within.
    + intros [t|] Hfound.
      * destruct Hfound as [[=]|(u & [= <-] & Hin & Hev)].
        apply (WithinA_bind (fun r => exists out, r = Ok out /\
                 forall res, out = inl res ->
                   res = {| success := true; fromState := Single cs;
                            toState := Single (t_to t); event := ev;
                            StateMachine.error := None |} /\
                   is_Some (stateMap config !! t_to t))).
        -- eapply WithinA_mono; [apply attemptLoop_within| |done].
           ++ intros _. apply Nat.eq_le_incl. f_equal. lia.
           ++ apply Nat.mul_le_mono_r.
              pose proof (maxRetries_ge candidates t Hin). lia.
        -- intros [res|lastError] (out & [= <-] & Hout).
           ++ apply WithinA_retA. exists res. split; [done|].
              destruct (Hout res eq_refl) as [-> Htarget].
              split; [done|]. split; [done|]. exists (t_to t). split; [done|].
              split; [|done]. intros _. exists t. done.
           ++ apply (WithinA_bind (fun r => r = Ok tt)).
              ** destruct (onError config) as [handler|].
                 --- change 1%nat with (1 + 0)%nat.
                     apply (WithinA_catch (fun r => r <> Crash)).
                     +++ apply WithinA_await. intros s. apply hook_not_crash.
                     +++ intros e _. by apply WithinA_retA.
                     +++ by intros [] _.
                     +++ done.
                 --- by apply WithinA_retA.
              ** intros _ _. apply WithinA_retA. eauto.
              ** by intros e [=].
              ** by intros [=].
        -- by intros e (out & [=] & _).
        -- by intros (out & [=] & _).
      * apply WithinA_retA. eauto.
    + by intros e [[=]|(t & [=] & _)].
    + by intros [[=]|(t & [=] & _)].
  - apply WithinA_retA. eauto.
Qed.

(** With no candidate for the event, the call is refused whatever happens
    between its turns. *)
Lemma executeTransition_refused cs ev :
  NoCandidate config ev cs ->
  WithinA (fun r => exists res, r = Ok res /\ success res = false)
    1 (Stepwise.executeTransition config cs ev).
Proof.
  intros Hno. unfold Stepwise.executeTransition.
  destruct (stateMap config !! cs) as [state|] eqn:Hcs.
  - change 1%nat with (0 + 1 + 0)%nat.
    apply (WithinA_bind (fun r => r = Ok None)).
    + apply WithinA_awaitAsync. intros s. unfold Stepwise.findTransition.
      rewrite Hcs, findIn_none by done. by constructor.
    + intros found [= ->]. apply WithinA_retA. eauto.
    + by intros e [=].
    + by intros [=].
  - apply WithinA_retA. eauto.
Qed.

(** A transition nothing can keep from being taken is taken whatever happens
    between the turns of the call. *)
Lemma executeTransition_taken cs ev t :
  Unconditional config ev cs t ->
  WithinA (fun r => r = Ok {| success := true; fromState := Single cs;
                              toState := Single (t_to t); event := ev;
                              StateMachine.error := None |})
    1 (Stepwise.executeTransition config cs ev).
Proof.
  intros ((state & Hcs & Hexit) & (skipped & rest & Hcands & Hskip) & Hev & Hguard &
          Haction & Hmax & target & Htarget & Hval & Hentry).
  unfold Stepwise.executeTransition. rewrite Hcs.
  change 1%nat with (0 + 1 + (0 + 0))%nat.
  apply (WithinA_bind (fun r => r = Ok (Some t))).
  - apply WithinA_awaitAsync. intros s. unfold Stepwise.findTransition.
    rewrite Hcs, Hcands, findIn_first by done. by constructor.
  - intros found [= ->]. cbv zeta.
    apply (WithinA_bind (fun r => r = Ok (inl {| success := true; fromState := Single cs;
                              toState := Single (t_to t); event := ev;
                              StateMachine.error := None |}))).
    + destruct (Z.to_nat (numOr (maxAttempts (default noRetry (t_retry t))) 0 + 1))
        as [|fuel] eqn:Hfuel; [lia|].
      simpl. destruct (0 <=? _) eqn:Hle; [|apply Z.leb_gt in Hle; lia].
      intros s. unfold bindA at 1, outcomeOfA, catchA, bindA at 1.
      unfold Stepwise.attemptBody. rewrite Hexit, Haction, Htarget, Hval, Hentry.
      simpl. by constructor.
    + intros looped [= ->]. by apply WithinA_retA.
    + by intros e [=].
    + by intros [=].
  - by intros e [=].
  - by intros [=].
Qed.

(** ** A call run alone *)

Lemma Task_induction {A} (P : Task A -> Prop) :
  (forall r, P (Settled r)) ->
  (forall resume, (forall s, P (resume s).1) -> P (Awaiting resume)) ->
  (forall delay resume, (forall s, P (resume s).1) -> P (Sleeping delay resume)) ->
  forall t, P t.
Proof.
  intros Hs Ha Hd. fix IH 1. intros [r|resume|delay resume].
  - apply Hs.
  - apply Ha. intros s. destruct (resume s) as [t' s']. apply IH.
  - apply Hd. intros s. destruct (resume s) as [t' s']. apply IH.
Qed.

Lemma finish_andThen {A B} (t : Task A) (k : Res A -> Async B) s :
  finish (andThen t k s).1 (andThen t k s).2 =
  alone (k (finish t s).1) (finish t s).2.
Proof.
  revert s. induction t as [r|resume IH|delay resume IH] using Task_induction;
    intros s; simpl.
  - unfold alone. by destruct (k r s).
  - pose proof (IH s) as IH'. destruct (resume s) as [t' s']. simpl in IH'.
    specialize (IH' s'). destruct (andThen t' k s') as [t'' s'']. simpl in IH'.
    rewrite IH'. by destruct (finish t' s').
  - match goal with |- context [resume ?s0] => pose proof (IH s0) as IH';
      destruct (resume s0) as [t' s'] end.
    simpl in IH'. specialize (IH' s').
    destruct (andThen t' k s') as [t'' s'']. simpl in IH'. rewrite IH'.
    by destruct (finish t' s').
Qed.

Lemma alone_now {A} (m : M SMState A) s : alone (now m) s = m s.
Proof. unfold alone, now. by destruct (m s). Qed.

Lemma alone_bindA {A B} (m : Async A) (k : A -> Async B) s :
  alone (bindA m k) s = bind (alone m) (fun a => alone (k a)) s.
Proof.
  unfold alone at 1, bindA, bind, alone at 1. destruct (m s) as [t s'].
  pose proof (finish_andThen t
    (fun r => match r with Ok a => k a | Throw e => now (throw e) | Crash => now crash end)
    s') as H.
  destruct (andThen t _ s') as [t'' s'']. simpl in H. rewrite H.
  destruct (finish t s') as [[a|e|] s1]; simpl; [done|by rewrite alone_now..].
Qed.

Lemma alone_catchA {A} (m : Async A) (h : string -> Async A) s :
  alone (catchA m h) s = catch (alone m) (fun e => alone (h e)) s.
Proof.
  unfold alone at 1, catchA, catch, alone at 1. destruct (m s) as [t s'].
  pose proof (finish_andThen t
    (fun r => match r with Throw e => h e | _ => now (fun s0 => (r, s0)) end) s') as H.
  destruct (andThen t _ s') as [t'' s'']. simpl in H. rewrite H.
  destruct (finish t s') as [[a|e|] s1]; simpl; [by rewrite alone_now|done|by rewrite alone_now].
Qed.

Lemma bind_ext {S A B} (m m' : M S A) (k k' : A -> M S B) s :
  (forall s0, m s0 = m' s0) -> (forall a s0, k a s0 = k' a s0) ->
  bind m k s = bind m' k' s.
Proof. intros Hm Hk. unfold bind. rewrite Hm. by destruct (m' s) as [[a|e|] s']. Qed.

Lemma catch_ext {S A} (m m' : M S A) (h h' : string -> M S A) s :
  (forall s0, m s0 = m' s0) -> (forall e s0, h e s0 = h' e s0) ->
  catch m h s = catch m' h' s.
Proof. intros Hm Hh. unfold catch. rewrite Hm. by destruct (m' s) as [[a|e|] s']. Qed.

Lemma alone_yield s : alone yield s = (Ok tt, s).
Proof. done. Qed.

Lemma alone_await {A} (m : M SMState A) s : alone (await m) s = m s.
Proof.
  unfold await. rewrite alone_bindA. unfold bind. rewrite alone_now.
  destruct (m s) as [[a|e|] s']; [|done|done].
  rewrite alone_bindA. unfold bind. rewrite alone_yield. by rewrite alone_now.
Qed.

Lemma alone_awaitAsync {A} (m : Async A) s : alone (awaitAsync m) s = alone m s.
Proof.
  unfold alone at 1, awaitAsync, alone. destruct (m s) as [t s'].
  pose proof (finish_andThen t
    (fun r => bindA yield (fun _ => now (fun s0 => (r, s0)))) s') as H.
  destruct (andThen t _ s') as [t'' s'']. simpl in H. rewrite H.
  destruct (finish t s') as [r s1]. simpl.
  rewrite alone_bindA. unfold bind. rewrite alone_yield. by rewrite alone_now.
Qed.

Lemma alone_sleepA delay s : alone (sleepA delay) s = sleep delay s.
Proof. done. Qed.

Lemma alone_outcomeOfA {A} (m : Async A) s :
  alone (outcomeOfA m) s = outcomeOf (alone m) s.
Proof.
  unfold outcomeOfA, outcomeOf. rewrite alone_catchA. apply catch_ext.
  - intros s0. rewrite alone_bindA. apply bind_ext; [done|].
    intros a s1. apply alone_now.
  - intros e s0. apply alone_now.
Qed.

Lemma alone_findIn candidates ev s :
  alone (Stepwise.findIn candidates ev) s = findIn candidates ev s.
Proof.
  revert s. induction candidates as [|t rest IH]; intros s; simpl.
  - apply alone_now.
  - destruct (String.eqb (t_event t) ev); [|apply IH].
    destruct (t_guard t) as [guard|]; [|apply alone_now].
    rewrite alone_bindA. apply bind_ext.
    + intros s0. rewrite alone_catchA. apply catch_ext.
      * intros s1. apply alone_await.
      * intros e s1. apply alone_now.
    + intros [|] s0; [apply alone_now|apply IH].
Qed.

Lemma bind_assoc {S A B C} (m : M S A) (f : A -> M S B) (g : B -> M S C) s :
  bind (bind m f) g s = bind m (fun a => bind (f a) g) s.
Proof. unfold bind. by destruct (m s) as [[a|e|] s']. Qed.

Lemma alone_attemptBody state t cs s :
  alone (Stepwise.attemptBody config state t cs) s = attemptBody config state t cs s.
Proof.
  unfold Stepwise.attemptBody, attemptBody.
  rewrite alone_bindA. apply bind_ext.
  { intros s0. destruct (onExitOf state); [apply alone_await|apply alone_now]. }
  intros _ s0. rewrite alone_bindA. apply bind_ext.
  { intros s1. destruct (t_action t); [apply alone_await|apply alone_now]. }
  intros _ s1. destruct (stateMap config !! t_to t) as [target|]; [|apply alone_now].
  rewrite alone_bindA. apply bind_ext.
  { intros s2. destruct (validationOf target) as [v|]; [|apply alone_now].
    rewrite alone_bindA. rewrite <- bind_assoc. apply bind_ext.
    - intros s3. apply alone_await.
    - intros [[|]|msg] s3; apply alone_now. }
  intros _ s2. destruct (onEntryOf target); [apply alone_await|apply alone_now].
Qed.

Lemma alone_attemptLoop state t cs ev max strategy delay fuel :
  forall attempt lastError s,
  alone (Stepwise.attemptLoop config state t cs ev max strategy delay fuel attempt
           lastError) s =
  attemptLoop config state t cs ev max strategy delay fuel attempt lastError s.
Proof.
  induction fuel as [|fuel IH]; intros attempt lastError s; simpl.
  - destruct (attempt <=? max); apply alone_now.
  - destruct (attempt <=? max); [|apply alone_now].
    rewrite alone_bindA. apply bind_ext.
    + intros s0. rewrite alone_outcomeOfA. unfold outcomeOf. apply catch_ext; [|done].
      intros s1. apply bind_ext; [|done]. intros s2. apply alone_attemptBody.
    + intros [u|e] s0; [apply alone_now|].
      rewrite alone_bindA. apply bind_ext.
      * intros s1. destruct (attempt <? max); [apply alone_sleepA|apply alone_now].
      * intros _ s1. apply IH.
Qed.

(** Run alone, a call of [executeTransition] turn by turn is the method as
    it reads without its awaits. *)
Lemma alone_executeTransition cs ev s :
  alone (Stepwise.executeTransition config cs ev) s = executeTransition config cs ev s.
Proof.
  unfold Stepwise.executeTransition, executeTransition.
  destruct (stateMap config !! cs) as [state|] eqn:Hcs; [|apply alone_now].
  rewrite alone_bindA. apply bind_ext.
  - intros s0. rewrite alone_awaitAsync.
    unfold Stepwise.findTransition, findTransition. rewrite Hcs. apply alone_findIn.
  - intros [t|] s0; [|apply alone_now]. cbv zeta.
    rewrite alone_bindA. apply bind_ext; [intros s1; apply alone_attemptLoop|].
    intros [res|lastError] s1; [apply alone_now|].
    rewrite alone_bindA. apply bind_ext.
    + intros s2. destruct (onError config) as [handler|]; [|apply alone_now].
      rewrite alone_catchA. apply catch_ext.
      * intros s3. apply alone_await.
      * intros e s3. apply alone_now.
    + intros _ s2. apply alone_now.
Qed.

End Turns.

End StateMachineFacts.

(** ** The in-memory store *)

Module StorageFacts.
Import StateMachine Storage Reasoning StateMachineFacts.

Lemma includes_spec (arr : list string) x : includes arr x = true <-> x ∈ arr.
Proof.
  unfold includes. rewrite existsb_exists. split.
  - intros (y & Hy & Heq). apply String.eqb_eq in Heq as ->. by apply list_elem_of_In.
  - intros H. exists x. split; [by apply list_elem_of_In|apply String.eqb_refl].
Qed.

Lemma mapGet_mapSet {V} k k' (v : V) m :
  mapGet k' (mapSet k v m) = if String.eqb k k' then Some v else mapGet k' m.
Proof.
  induction m as [|[k0 v0] m IH]; simpl.
  - done.
  - destruct (String.eqb_spec k0 k) as [->|Hne]; simpl.
    + by destruct (String.eqb_spec k k').
    + destruct (String.eqb_spec k0 k') as [->|Hne'].
      * destruct (String.eqb_spec k k'); [congruence|done].
      * done.
Qed.

Lemma mapGet_elem_of {V} k (v : V) m : mapGet k m = Some v -> (k, v) ∈ m.
Proof.
  induction m as [|[k0 v0] m IH]; simpl; [done|].
  destruct (String.eqb_spec k0 k) as [->|Hne].
  - intros [= ->]. by left.
  - intros H. right. by apply IH.
Qed.

Lemma storeValid_mapGet w id l :
  storeValid w -> mapGet id (states w) = Some l -> is_Some (flows w !! l).
Proof.
  intros Hvalid Hl. apply mapGet_elem_of in Hl.
  unfold storeValid in Hvalid. rewrite Forall_forall in Hvalid.
  by apply (Hvalid (id, l)).
Qed.

Lemma load_spec {A} (h : Heap A) l x w :
  cellsOf h w !! l = Some x -> load h l w = (Ok x, w).
Proof. intros H. unfold load. by rewrite H. Qed.

Lemma store_spec {A} (h : Heap A) l x y w :
  cellsOf h w !! l = Some y ->
  store h l x w = (Ok tt, withCells h (<[l := x]> (cellsOf h w)) w).
Proof. intros H. unfold store. by rewrite H. Qed.

Lemma update_spec {A} (h : Heap A) l f x w :
  cellsOf h w !! l = Some x ->
  update h l f w = (Ok tt, withCells h (<[l := f x]> (cellsOf h w)) w).
Proof. intros H. unfold update, bind. rewrite (load_spec _ _ _ _ H). by apply (store_spec _ _ _ x). Qed.

Lemma save_spec l fs w :
  flows w !! l = Some fs ->
  save l w = (Ok tt, setStates (mapSet (flowId fs) (length (flows w)) (states w))
                       (setFlows (flows w ++ [fs]) w)).
Proof. intros H. unfold save, bind, alloc. by rewrite (load_spec flowsH _ _ _ H). Qed.

Lemma get_spec_some id st fs w :
  mapGet id (states w) = Some st -> flows w !! st = Some fs ->
  get id w = (Ok (Some (length (flows w))), setFlows (flows w ++ [fs]) w).
Proof.
  intros Hst H. unfold get, bind, gets, alloc. rewrite Hst.
  by rewrite (load_spec flowsH _ _ _ H).
Qed.

Lemma get_spec_none id w :
  mapGet id (states w) = None -> get id w = (Ok None, w).
Proof. intros Hst. unfold get, bind, gets. by rewrite Hst. Qed.

(** C7 (amended). [get] returns, and [save] stores, a copy of the fields of
    the flow-state object: a new object with the same field values, among
    them the same references to the context, history and compensations.
    Overwriting the fields of a returned snapshot does not change what a
    later [get] returns, and [save] of what [get] returned leaves every stored
    flow and every nested object as it was. *)
Theorem get_save_shallow_copy w id stored fs :
  mapGet id (states w) = Some stored ->
  flows w !! stored = Some fs ->
  flowId fs = id ->
  storeValid w ->
  exists a w1,
    get id w = (Ok (Some a), w1) /\
    a <> stored /\
    flows w1 !! a = Some fs /\
    flows w1 !! stored = Some fs /\
    contexts w1 = contexts w /\ histories w1 = histories w /\
    compensationLists w1 = compensationLists w /\ states w1 = states w /\
    (forall fs',
       exists b w3,
         get id (setFlows (<[a := fs']> (flows w1)) w1) = (Ok (Some b), w3) /\
         flows w3 !! b = Some fs) /\
    (exists w2,
       save a w1 = (Ok tt, w2) /\
       (forall id', storedFlow w2 id' = storedFlow w id') /\
       contexts w2 = contexts w /\ histories w2 = histories w /\
       compensationLists w2 = compensationLists w).
Proof.
  intros Hst Hfs Hid Hvalid.
  pose proof (lookup_lt_Some _ _ _ Hfs) as Hlt.
  eexists _, _. split; [by apply (get_spec_some _ stored)|].
  cbn. split; [lia|]. split.
  { apply lookup_snoc. }
  split; [by rewrite lookup_app_l|].
  do 4 (split; [done|]). split.
  - intros fs'. eexists _, _. split.
    + apply (get_spec_some id stored fs); [done|]. cbn.
      rewrite list_lookup_insert_ne by lia. by rewrite lookup_app_l.
    + cbn. apply lookup_snoc.
  - eexists. split.
    + apply save_spec. cbn. apply lookup_snoc.
    + cbn. split; [|done]. intros id'. unfold storedFlow. cbn.
      rewrite mapGet_mapSet, Hid.
      destruct (String.eqb_spec id id') as [<-|Hne]; cbn.
      * rewrite Hst. cbn. rewrite Hfs.
        apply lookup_snoc.
      * destruct (mapGet id' (states w)) as [l'|] eqn:Hl'; cbn; [|done].
        destruct (storeValid_mapGet _ _ _ Hvalid Hl') as [x Hx].
        pose proof (lookup_lt_Some _ _ _ Hx).
        by rewrite !lookup_app_l by (rewrite ?length_app; cbn; lia).
Qed.

Lemma mapM_load_stored locs w :
  Forall (fun l => is_Some (flows w !! l)) locs ->
  mapM (load flowsH) locs w = (Ok (omap (fun l => flows w !! l) locs), w).
Proof.
  induction 1 as [|l locs [fs Hl] _ IH]; simpl; [done|].
  erewrite bind_ok; [|by apply load_spec]. erewrite bind_ok; [|exact IH].
  cbn. by rewrite Hl.
Qed.

Lemma mapM_alloc_flows sts : forall w,
  mapM (alloc flowsH) sts w =
    (Ok (seq (length (flows w)) (length sts)), setFlows (flows w ++ sts) w).
Proof.
  induction sts as [|fs sts IH]; intros w; simpl.
  - rewrite app_nil_r. by destruct w.
  - erewrite bind_ok; [|reflexivity]. erewrite bind_ok; [|apply IH].
    cbn. rewrite length_app, <- app_assoc. cbn. by rewrite Nat.add_1_r.
Qed.

(** C8 (amended). The [currentState] filter of [list].  A single requested
    state matches a flow in a single state when the two are equal, and a
    parallel flow when it is one of the region states.  A list of requested
    states matches a parallel flow when every requested state is one of its
    region states, and a flow in a single state when that state is one of
    the requested ones.  With this filter [list] returns copies of exactly
    the stored flows that match, in the order of the store. *)
Theorem currentState_filter target :
  (forall s,
     currentStateMatches target s = true <->
     match target, currentState s with
     | Single t, Single current => current = t
     | Single t, Multi regions => t ∈ regions
     | Multi ts, Multi regions => forall t, t ∈ ts -> t ∈ regions
     | Multi ts, Single current => current ∈ ts
     end) /\
  (forall w, storeValid w ->
     exists ls w',
       list_ (Some (currentStateOnly target)) w = (Ok ls, w') /\
       Forall2 (fun l fs => flows w' !! l = Some fs) ls
         (List.filter (currentStateMatches target) (storedList w))).
Proof.
  split.
  - intros s. unfold currentStateMatches.
    destruct (currentState s) as [current|regions], target as [t|ts].
    + apply String.eqb_eq.
    + apply includes_spec.
    + apply includes_spec.
    + rewrite forallb_forall. split.
      * intros H t Ht. apply includes_spec, H. by apply list_elem_of_In.
      * intros H t Ht. apply includes_spec, H. by apply list_elem_of_In.
  - intros w Hvalid. unfold list_.
    erewrite bind_ok; [|reflexivity].
    erewrite bind_ok.
    2: { apply mapM_load_stored. apply Forall_forall. intros l Hl.
         unfold mapValues in Hl. apply list_elem_of_fmap in Hl as [[id l'] [-> Hin]].
         unfold storeValid in Hvalid. rewrite Forall_forall in Hvalid.
         by apply (Hvalid (id, l')). }
    fold (storedList w). cbn [applyFilter currentStateOnly f_status f_flowDefinitionId
      f_version f_parentFlowId f_currentState].
    eexists _, _. split; [apply mapM_alloc_flows|]. cbn.
    generalize (List.filter (currentStateMatches target) (storedList w)) as sts.
    intros sts. apply Forall2_same_length_lookup. split; [by rewrite length_seq|].
    intros i l fs Hl Hfs. apply lookup_seq in Hl as [-> Hi].
    by rewrite lookup_app_r, Nat.add_comm, Nat.add_sub by lia.
Qed.

End StorageFacts.

(** ** The flow engine *)

Module FlowEngineFacts.
Import StateMachine Storage FlowEngine Reasoning StateMachineFacts StorageFacts.

Lemma post_onContext {A} c (m : M SMState A) w ctx (Q : Res A -> World -> Prop) :
  contexts w !! c = Some ctx ->
  post m {| sm_context := ctx; sm_clock := clock w; sm_trace := trace w |}
    (fun r s => Q r (setTrace (sm_trace s) (setClock (sm_clock s)
                       (setContexts (<[c := sm_context s]> (contexts w)) w)))) ->
  post (onContext c m) w Q.
Proof.
  intros Hc. unfold post, onContext. rewrite Hc.
  by destruct (m _) as [r s].
Qed.

Ltac heap_lookup :=
  cbn;
  repeat first
    [ done
    | apply lookup_snoc
    | rewrite list_lookup_insert_eq by (rewrite ?length_insert, ?length_app; cbn; eauto using lookup_lt_Some; lia)
    | rewrite list_lookup_insert_ne by lia
    | rewrite lookup_app_l by (rewrite ?length_insert, ?length_app; cbn; eauto using lookup_lt_Some; lia)
    | eassumption ].

(** one step on World-level primitives, given the needed lookups *)
Ltac wstep :=
  cbn beta iota;
  lazymatch goal with
  | |- post (bind _ _) _ _ => apply post_bind
  | |- post (catch _ _) _ _ => apply post_catch
  | |- post (ret _) _ _ => apply post_ret
  | |- post (throw _) _ _ => apply post_throw
  | |- post (modify _) _ _ => apply post_modify
  | |- post (gets _) _ _ => apply post_gets
  | |- post (emitW _) _ _ => apply post_modify
  | |- post (load _ _) _ _ => eapply post_intro; [apply load_spec; heap_lookup|]
  | |- post (update _ _ _) _ _ => eapply post_intro; [apply update_spec; heap_lookup|]
  | |- post (save _) _ _ => eapply post_intro; [apply save_spec; heap_lookup|]
  | |- post (match ?x with _ => _ end) _ _ => destruct x eqn:?
  | |- post (if ?x then _ else _) _ _ => destruct x eqn:?
  end; cbn beta iota.

Lemma compensation_loop l fs0 cs : forall w ctx,
  flows w !! l = Some fs0 -> contexts w !! context fs0 = Some ctx ->
  post (forEach (runCompensation l) cs) w (fun r w' =>
    r = Ok tt /\ flows w' = flows w /\ histories w' = histories w /\
    compensationLists w' = compensationLists w /\ states w' = states w /\
    idempotencyKeys w' = idempotencyKeys w /\ clock w' = clock w /\
    cells w' = cells w /\
    contexts w' = <[context fs0 := foldl (fun c r => (comp_action r c).1) ctx cs]> (contexts w) /\
    exists tr, trace w' = trace w ++ tr /\ compensatedIn tr = cs).
Proof.
  induction cs as [|comp cs IH]; intros w ctx Hl Hc; simpl.
  - apply post_ret. repeat split; try done.
    + by rewrite list_insert_id.
    + exists []. by rewrite app_nil_r.
  - wstep. unfold runCompensation.
    wstep. wstep. wstep.
    eapply post_onContext; [done|].
    post_step. post_step. apply post_call. intros c out H. cbn in H.
    assert (Hnext : forall w1, flows w1 = flows w -> histories w1 = histories w ->
      compensationLists w1 = compensationLists w -> states w1 = states w ->
      idempotencyKeys w1 = idempotencyKeys w -> clock w1 = clock w -> cells w1 = cells w ->
      contexts w1 = <[context fs0 := c]> (contexts w) ->
      (exists tr1, trace w1 = trace w ++ tr1 /\ compensatedIn tr1 = [comp]) ->
      post (forEach (runCompensation l) cs) w1 (fun r w' =>
        r = Ok tt /\ flows w' = flows w /\ histories w' = histories w /\
        compensationLists w' = compensationLists w /\ states w' = states w /\
        idempotencyKeys w' = idempotencyKeys w /\ clock w' = clock w /\
        cells w' = cells w /\
        contexts w' = <[context fs0 := foldl (fun c r => (comp_action r c).1) (comp_action comp ctx).1 cs]> (contexts w) /\
        exists tr, trace w' = trace w ++ tr /\ compensatedIn tr = comp :: cs)).
    { intros w1 E1 E2 E3 E4 E5 E6 E7 E8 (tr1 & E9 & E10).
      eapply post_mono.
      { apply (IH w1 c); [by rewrite E1|]. rewrite E8.
        apply list_lookup_insert_eq. eauto using lookup_lt_Some. }
      cbn. intros r w' (-> & F1 & F2 & F3 & F4 & F5 & F6 & F7 & F8 & tr & F9 & F10).
      split; [done|]. rewrite F1, F2, F3, F4, F5, F6, F7, F8, E1, E2, E3, E4, E5, E6, E7, E8.
      do 7 (split; [done|]). split.
      { rewrite list_insert_insert_eq. by rewrite H. }
      exists (tr1 ++ tr). rewrite F9, E9, <- app_assoc. split; [done|].
      unfold compensatedIn in *. by rewrite omap_app, E10, F10. }
    destruct out as [u|e].
    + cbn. apply Hnext; cbn; try done. eexists. split; [reflexivity|done].
    + cbn. wstep. apply Hnext; cbn; try done.
      eexists. rewrite <- app_assoc. split; [reflexivity|done].
Qed.

Lemma markFailed_spec l msg f w :
  flows w !! l = Some f ->
  markFailed l msg w =
    (Ok tt, setFlows (<[l := setError (Some {| e_message := msg;
                                               e_state := currentState f;
                                               e_timestamp := clock w |})
                             (setStatus Failed f)]> (flows w)) w).
Proof.
  intros H. unfold markFailed.
  erewrite bind_ok; [|by apply update_spec].
  erewrite bind_ok; [|reflexivity].
  erewrite update_spec; [|heap_lookup].
  cbn. by rewrite list_insert_insert_eq.
Qed.

(** C1. The contract of [compensate], for a flow-state object [l] with
    fields [fs], its context [ctx] and the compensations [recorded] on it.
    The call returns.  With nothing recorded it returns [false], invokes no
    action, leaves the context alone, and sets [status] to failed with
    [error.message = reason].  With records it returns [true]; the actions
    invoked are the recorded ones, each exactly once, in reverse order of
    recording, whether or not some of them raise; the context ends as those
    actions left it one after the other; [status] is failed with
    [error.message = reason ++ " (compensated)"].  In both cases the recorded
    compensations are still on the instance. *)
Theorem compensate_contract l reason w fs ctx recorded :
  flows w !! l = Some fs ->
  contexts w !! context fs = Some ctx ->
  match compensations fs with
  | Some cl => compensationLists w !! cl = Some recorded
  | None => recorded = []
  end ->
  exists didCompensate w' tr,
    compensate l reason w = (Ok didCompensate, w') /\
    compensationLists w' = compensationLists w /\
    trace w' = trace w ++ tr /\
    match recorded with
    | [] =>
        didCompensate = false /\
        tr = [] /\
        contexts w' = contexts w /\
        flows w' !! l =
          Some (setError (Some {| e_message := reason;
                                  e_state := currentState fs;
                                  e_timestamp := clock w |})
                  (setStatus Failed fs))
    | _ :: _ =>
        didCompensate = true /\
        compensatedIn tr = rev recorded /\
        contexts w' !! context fs =
          Some (foldl (fun c r => (comp_action r c).1) ctx (rev recorded)) /\
        flows w' !! l =
          Some (setError (Some {| e_message := reason +:+ " (compensated)";
                                  e_state := currentState fs;
                                  e_timestamp := clock w |})
                  (setStatus Failed fs))
    end.
Proof.
  intros Hl Hc Hrec.
  pose proof (lookup_lt_Some _ _ _ Hl) as Hlt.
  cut (post (compensate l reason) w (fun r w' =>
    exists b tr, r = Ok b /\
    compensationLists w' = compensationLists w /\
    trace w' = trace w ++ tr /\
    match recorded with
    | [] =>
        b = false /\ tr = [] /\ contexts w' = contexts w /\
        flows w' !! l =
          Some (setError (Some {| e_message := reason;
                                  e_state := currentState fs;
                                  e_timestamp := clock w |})
                  (setStatus Failed fs))
    | _ :: _ =>
        b = true /\ compensatedIn tr = rev recorded /\
        contexts w' !! context fs =
          Some (foldl (fun c r => (comp_action r c).1) ctx (rev recorded)) /\
        flows w' !! l =
          Some (setError (Some {| e_message := reason +:+ " (compensated)";
                                  e_state := currentState fs;
                                  e_timestamp := clock w |})
                  (setStatus Failed fs))
    end)).
  { intros H. apply post_run in H as (r & w' & E & b & tr & -> & ?). eauto 10. }
  assert (Hcomps : forall w1, compensationLists w1 = compensationLists w ->
            compensationsOf fs w1 = (Ok recorded, w1)).
  { intros w1 E. unfold compensationsOf. destruct (compensations fs).
    - apply load_spec. cbn. by rewrite E.
    - by subst. }
  assert (Hcomps' : forall w1, compensationLists w1 = compensationLists w ->
            compensationsOf (setStatus Compensating fs) w1 = (Ok recorded, w1)).
  { intros w1 E. apply (Hcomps w1 E). }
  unfold compensate. wstep. wstep. wstep.
  eapply post_intro; [by apply Hcomps|]. cbn beta iota.
  destruct recorded as [|r0 rest]; cbn [length Nat.eqb].
  - wstep. eapply post_intro; [by apply markFailed_spec|]. wstep.
    exists false, []. split; [done|]. cbn. rewrite app_nil_r.
    do 5 (split; [done|]). by apply list_lookup_insert_eq.
  - wstep. wstep. wstep. wstep. wstep. wstep. wstep. wstep.
    eapply post_intro; [by apply Hcomps'|]. cbn beta iota.
    wstep.
    eapply post_mono.
    { eapply (compensation_loop l (setStatus Compensating fs)); [heap_lookup|cbn; exact Hc]. }
    cbn beta. intros r w' (-> & F1 & F2 & F3 & F4 & F5 & F6 & F7 & F8 & tr & F9 & F10).
    cbn in F1, F2, F3, F4, F5, F6, F7, F8, F9.
    wstep. eapply post_intro.
    { apply (markFailed_spec _ _ (setStatus Compensating fs)). rewrite F1. heap_lookup. }
    wstep.
    exists true, tr. split; [done|]. cbn. rewrite F3, F9, F6.
    do 3 (split; [done|]). split; [exact F10|]. split.
    { rewrite F8. apply list_lookup_insert_eq. eauto using lookup_lt_Some. }
    apply list_lookup_insert_eq. rewrite F1, length_app, length_insert. lia.
Qed.

Section Parallel.
Variable config : StateMachineConfig.

Lemma regionTransition_within ev region :
  WithinA (settlesWith config ev region) (Stepwise.turnsOf config region)
    (regionTransition config ev region).
Proof.
  unfold regionTransition.
  replace (Stepwise.turnsOf config region)
    with (Stepwise.turnsOf config region + 0 + 0)%nat by lia.
  apply (WithinA_catch (settlesWith config ev region)); [| |done|].
  - apply (WithinA_bind (fun r =>
             ((exists res, r = Ok res /\ Attempted config ev region res) /\
              (forall _ : unit, NoCandidate config ev region ->
                 exists res, r = Ok res /\ success res = false)) /\
             (forall t, Unconditional config ev region t ->
                r = Ok (successResult t region ev)))).
    + intros s. apply Within_both; [apply Within_both|].
      * apply executeTransition_within.
      * intros _ Hno. eexists. by apply executeTransition_refused.
      * intros t Ht. eexists. by apply executeTransition_taken.
    + intros res [[(res' & [= <-] & Hres) Hno] Hyes]. apply WithinA_retA.
      exists res. split; [done|]. split; [done|]. split.
      * intros H. destruct (Hno tt H) as (res' & [= <-] & ?). done.
      * intros t Ht. specialize (Hyes t Ht). by injection Hyes.
    + by intros e [[(res & [=] & _) _] _].
    + by intros [[(res & [=] & _) _] _].
  - by intros e (res & [=] & _).
  - by intros (res & [=] & _).
Qed.

Lemma broadcastFuel_sum regions :
  broadcastFuel config regions = sum_list (map (Stepwise.turnsOf config) regions).
Proof. induction regions as [|region rest IH]; simpl; [done|by rewrite IH]. Qed.

Lemma mapM_fulfilled {St A} (settled : list (Res A)) (s : St) :
  (forall r, r ∈ settled -> exists a, r = Ok a) ->
  exists values,
    mapM fulfilled settled s = (Ok values, s) /\ settled = map Ok values.
Proof.
  induction settled as [|r rest IH]; intros H; simpl.
  - by exists [].
  - destruct (H r) as [a ->]; [by left|].
    destruct IH as (values & E & ->). { intros r Hr. apply H. by right. }
    exists (a :: values). unfold bind. simpl. by rewrite E.
Qed.

(** The region transitions of a broadcast all settle, and each region gets
    the outcome of an attempt on its own state, whatever the order in which
    the event loop resumes them. *)
Lemma regionTransitions_spec ev regions s :
  exists transitions s',
    regionTransitions config ev regions s = (Ok transitions, s') /\
    length transitions = length regions /\
    forall (i : nat) region, regions !! i = Some region ->
      exists res, transitions !! i = Some (Some res) /\
        Attempted config ev region res /\
        (NoCandidate config ev region -> success res = false) /\
        (forall t, Unconditional config ev region t ->
           res = successResult t region ev).
Proof.
  destruct (eventLoop_spec
              (fun i r => exists region, regions !! i = Some region /\
                            settlesWith config ev region r)
              (map (regionTransition config ev) regions)
              (map (Stepwise.turnsOf config) regions)
              (broadcastFuel config regions) s)
    as (settled & s' & E & Hlen & Hsettled).
  { apply Forall2_same_length_lookup_2.
    - by rewrite length_imap, !length_map.
    - intros i call [k b] Hcall Hb.
      rewrite list_lookup_fmap in Hcall. rewrite list_lookup_imap in Hb.
      rewrite list_lookup_fmap in Hb.
      destruct (regions !! i) as [region|] eqn:Hi; [|done].
      simpl in *. simplify_eq.
      eapply WithinA_mono; [apply regionTransition_within|done|].
      intros r Hr. eauto. }
  { by rewrite broadcastFuel_sum. }
  rewrite length_map in Hlen.
  destruct (mapM_fulfilled settled s') as (transitions & Em & ->).
  { intros r Hr. apply list_elem_of_lookup in Hr as [i Hi].
    destruct (Hsettled i r Hi) as (region & _ & res & -> & _). eauto. }
  exists transitions, s'. split.
  { unfold regionTransitions, bind. by rewrite E. }
  rewrite length_map in Hlen. split; [done|].
  intros i region Hi.
  destruct (lookup_lt_is_Some_2 transitions i) as [t Ht].
  { rewrite Hlen. by eapply lookup_lt_Some. }
  destruct (Hsettled i (Ok t)) as (region' & Hi' & res & [= ->] & H).
  { by rewrite list_lookup_fmap, Ht. }
  rewrite Hi in Hi'. injection Hi' as <-. exists res. done.
Qed.

Lemma onContext_written {A} c (m : M SMState A) w ctx r s :
  contexts w !! c = Some ctx ->
  m {| sm_context := ctx; sm_clock := clock w; sm_trace := trace w |} = (r, s) ->
  onContext c m w = (r, written c s w).
Proof. intros Hc E. unfold onContext. by rewrite Hc, E. Qed.

Lemma mapiM_merged transitions current : forall i w,
  (forall t, Some t ∈ transitions -> success t = true -> exists to, toState t = Single to) ->
  exists ns,
    mapiM (mergedRegion transitions) i current w = (Ok ns, w) /\
    length ns = length current /\
    forall j state, current !! j = Some state ->
      ns !! j = Some (mergedEntry transitions (i + j) state).
Proof.
  induction current as [|state current IH]; intros i w Hsingle; simpl.
  - exists []. done.
  - assert (E : mergedRegion transitions i state w
                = (Ok (mergedEntry transitions i state), w)).
    { unfold mergedRegion, mergedEntry.
      destruct (transitions !! i) as [[t|]|] eqn:Hi; try done.
      destruct (success t) eqn:Hs; [|done].
      destruct (Hsingle t) as [to Hto]; [|done|by rewrite Hto].
      by eapply list_elem_of_lookup_2. }
    destruct (IH (S i) w Hsingle) as (ns & E2 & Hlen & Hns).
    exists (mergedEntry transitions i state :: ns).
    erewrite bind_ok; [|exact E]. erewrite bind_ok; [|exact E2].
    split; [done|]. split; [simpl; by rewrite Hlen|].
    intros [|j] st Hj; simpl in *.
    + injection Hj as <-. by rewrite Nat.add_0_r.
    + rewrite (Hns j st Hj). do 2 f_equal. lia.
Qed.

Lemma filter_accepted_nil (ts : list (option TransitionResult)) :
  List.filter accepted ts = [] <-> forall t, t ∈ ts -> accepted t = false.
Proof.
  induction ts as [|t ts IH]; simpl.
  - split; [|done]. intros _ t Ht. by apply elem_of_nil in Ht.
  - destruct (accepted t) eqn:Ha.
    + split; [done|]. intros H. specialize (H t). rewrite Ha in H.
      discriminate H. by left.
    + rewrite IH. split.
      * intros H t' [->|Ht']%elem_of_cons; eauto.
      * intros H t' Ht'. apply H. by right.
Qed.

(** The merge of a broadcast, for whatever outcomes the regions produced. *)
Lemma mergeBroadcast_spec l options transitions w fs regions :
  flows w !! l = Some fs ->
  currentState fs = Multi regions ->
  length transitions = length regions ->
  (forall t, Some t ∈ transitions -> success t = true -> exists to, toState t = Single to) ->
  exists res newStates,
    mergeBroadcast l options transitions w = (Ok res, w) /\
    fromState res = Multi regions /\
    toState res = Multi newStates /\
    length newStates = length regions /\
    (forall i region t, regions !! i = Some region -> transitions !! i = Some t ->
       accepted t = false -> newStates !! i = Some region) /\
    (forall (i : nat) t to, transitions !! i = Some (Some t) ->
       success t = true -> toState t = Single to -> newStates !! i = Some to) /\
    (success res = true <-> exists t, t ∈ transitions /\ accepted t = true) /\
    (success res = false ->
       StateMachine.error res = Some "No region accepted the event" /\
       newStates = regions).
Proof.
  intros Hl Hcur Hlen Hsingle. unfold mergeBroadcast.
  erewrite bind_ok; [|by apply load_spec].
  destruct (List.filter accepted transitions) as [|t0 acc] eqn:Hacc; cbn [length Nat.eqb].
  - pose proof (proj1 (filter_accepted_nil _) Hacc) as Hnone.
    eexists _, regions. split; [reflexivity|]. cbn. rewrite Hcur.
    do 3 (split; [done|]). split; [done|]. split.
    { intros i t to Hi Hs _. specialize (Hnone (Some t)). simpl in Hnone.
      rewrite Hnone in Hs; [done|]. by eapply list_elem_of_lookup_2. }
    split; [|done].
    split; [done|]. intros (t & Ht & Ha). rewrite (Hnone t Ht) in Ha. done.
  - rewrite Hcur.
    destruct (mapiM_merged transitions regions 0%nat w Hsingle) as (ns & E & Hn & Hns).
    erewrite bind_ok; [|exact E].
    eexists _, ns. split; [reflexivity|]. cbn. rewrite ?Hcur.
    do 3 (split; [done|]). split; [|split].
    + intros i region t Hi Ht Ha. rewrite (Hns i region Hi). simpl.
      unfold mergedEntry. rewrite Ht. destruct t as [t|]; [|done].
      simpl in Ha. by rewrite Ha.
    + intros i t to Hi Hs Hto.
      destruct (lookup_lt_is_Some_2 regions i) as [region Hr].
      { rewrite <- Hlen. by eapply lookup_lt_Some. }
      rewrite (Hns i region Hr). simpl. unfold mergedEntry. by rewrite Hi, Hs, Hto.
    + split; [|done]. split; [|done]. intros _. exists t0.
      assert (Hin : t0 ∈ List.filter accepted transitions) by (rewrite Hacc; by left).
      apply list_elem_of_In, filter_In in Hin as [Hin Ha].
      split; [by apply list_elem_of_In|done].
Qed.

(** C4. Broadcast dispatch, for a flow whose [currentState] is the list
    [regions] and options without [targetRegion].  The transitions of the
    regions are started one after the other and run together on the context
    of the flow, resumed turn by turn by the event loop.  All of them settle:
    [transitions] holds one outcome for each region, the outcome of an
    attempt on the state of that region for the event; a region whose state
    has no candidate for the event is refused, and a region that has a
    transition for the event which nothing can keep from being taken moves
    to its target, whatever the other regions do.
    [executeParallelTransition] returns a result whose [fromState] is
    [regions] and whose [toState] is a list of the same length; a region
    whose transition did not succeed keeps its entry, a region whose
    transition succeeded has its target as entry; the result is a success
    exactly when some region succeeded, and otherwise a failure with the
    error "No region accepted the event" and the list unchanged. *)
Theorem broadcast_dispatch l options w fs regions ctx :
  flows w !! l = Some fs ->
  currentState fs = Multi regions ->
  contexts w !! context fs = Some ctx ->
  o_targetRegion options = None ->
  exists transitions s' res newStates,
    regionTransitions config (o_event options) regions
      {| sm_context := ctx; sm_clock := clock w; sm_trace := trace w |}
      = (Ok transitions, s') /\
    length transitions = length regions /\
    (forall (i : nat) region, regions !! i = Some region ->
       exists t, transitions !! i = Some (Some t) /\
         Attempted config (o_event options) region t /\
         (NoCandidate config (o_event options) region -> success t = false) /\
         (forall u, Unconditional config (o_event options) region u ->
            success t = true /\ toState t = Single (t_to u))) /\
    executeParallelTransition config l options w
      = (Ok res, written (context fs) s' w) /\
    fromState res = Multi regions /\
    toState res = Multi newStates /\
    length newStates = length regions /\
    (forall (i : nat) region t, regions !! i = Some region ->
       transitions !! i = Some t -> accepted t = false ->
       newStates !! i = Some region) /\
    (forall (i : nat) t to, transitions !! i = Some (Some t) ->
       success t = true -> toState t = Single to -> newStates !! i = Some to) /\
    (success res = true <-> exists t, t ∈ transitions /\ accepted t = true) /\
    (success res = false ->
       StateMachine.error res = Some "No region accepted the event" /\
       newStates = regions).
Proof.
  intros Hl Hcur Hc Htarget.
  destruct (regionTransitions_spec (o_event options) regions
              {| sm_context := ctx; sm_clock := clock w; sm_trace := trace w |})
    as (ts & s' & E & Hlen & Hts).
  destruct (mergeBroadcast_spec l options ts (written (context fs) s' w) fs regions)
    as (res & ns & Em & H1 & H2 & H3 & H4 & H5 & H6 & H7); [done|done|done| |].
  { intros t Ht _. apply list_elem_of_lookup in Ht as [i Hi].
    destruct (lookup_lt_is_Some_2 regions i) as [region Hr].
    { rewrite <- Hlen. by eapply lookup_lt_Some. }
    destruct (Hts i region Hr) as (res' & Heq & (_ & _ & to & Hto & _) & _).
    rewrite Hi in Heq. injection Heq as <-. eauto. }
  exists ts, s', res, ns. split; [done|]. split; [done|]. split.
  { intros i region Hi. destruct (Hts i region Hi) as (t & Ht & Ha & Hno & Hyes).
    exists t. do 3 (split; [done|]). intros u Hu. by rewrite (Hyes u Hu). }
  split.
  { unfold executeParallelTransition.
    erewrite bind_ok; [|by apply load_spec]. rewrite Hcur, Htarget.
    erewrite bind_ok; [|by eapply onContext_written]. exact Em. }
  done.
Qed.

End Parallel.

Lemma Extends_refl w : Extends w w.
Proof. split; [done|]. split; [done|]. eauto. Qed.

Lemma Extends_trans w1 w2 w3 : Extends w1 w2 -> Extends w2 w3 -> Extends w1 w3.
Proof.
  intros (K1 & L1 & S1) (K2 & L2 & S2). split; [congruence|]. split; [lia|].
  intros id l Hl Hlt. destruct (S1 id l Hl Hlt) as (l' & Hl' & Hlt'). eauto.
Qed.

Lemma Frame_ret {A} (a : A) : Frame (ret a).
Proof. intros w. apply Extends_refl. Qed.

Lemma Frame_throw {A} e : Frame (@throw World A e).
Proof. intros w. apply Extends_refl. Qed.

Lemma Frame_crash {A} : Frame (@crash World A).
Proof. intros w. apply Extends_refl. Qed.

Lemma Frame_gets {A} (f : World -> A) : Frame (gets f).
Proof. intros w. apply Extends_refl. Qed.

Lemma Frame_bind {A B} (m : M World A) (k : A -> M World B) :
  Frame m -> (forall a, Frame (k a)) -> Frame (bind m k).
Proof.
  intros Hm Hk w. unfold bind. specialize (Hm w).
  destruct (m w) as [[a|e|] w1]; simpl in *; [|done|done].
  eapply Extends_trans; [exact Hm|apply Hk].
Qed.

Lemma Frame_catch {A} (m : M World A) (h : string -> M World A) :
  Frame m -> (forall e, Frame (h e)) -> Frame (catch m h).
Proof.
  intros Hm Hh w. unfold catch. specialize (Hm w).
  destruct (m w) as [[a|e|] w1]; simpl in *; [done| |done].
  eapply Extends_trans; [exact Hm|apply Hh].
Qed.

Lemma Frame_load {A} (h : Heap A) l : Frame (load h l).
Proof. intros w. unfold load. destruct (_ !! l); apply Extends_refl. Qed.

Lemma Frame_emitW e : Frame (emitW e).
Proof. intros w. split; [done|]. split; [done|]. cbn. eauto. Qed.

Lemma Frame_onContext {A} c (m : M SMState A) : Frame (onContext c m).
Proof.
  intros w. unfold onContext. destruct (contexts w !! c); [|apply Extends_refl].
  destruct (m _) as [r s]. split; [done|]. split; [done|]. cbn. eauto.
Qed.

Lemma Frame_alloc_flows fs : Frame (alloc flowsH fs).
Proof.
  intros w. unfold alloc. split; [done|]. cbn. rewrite length_app. split; [lia|].
  intros id l Hl Hlt. exists l. split; [done|lia].
Qed.

Lemma Frame_store_flows l fs : Frame (store flowsH l fs).
Proof.
  intros w. unfold store. destruct (_ !! l); [|apply Extends_refl].
  split; [done|]. cbn. rewrite length_insert. split; [done|]. eauto.
Qed.

Lemma Frame_update_flows l f : Frame (update flowsH l f).
Proof. apply Frame_bind; [apply Frame_load|]. intros a. apply Frame_store_flows. Qed.

Ltac frame_prim :=
  intros w; unfold store, alloc; try destruct (_ !! _);
  first [apply Extends_refl | (split; [done|]; split; [done|]; cbn; eauto)].

Lemma Frame_store_contexts l x : Frame (store contextsH l x).
Proof. frame_prim. Qed.
Lemma Frame_store_histories l x : Frame (store historiesH l x).
Proof. frame_prim. Qed.
Lemma Frame_store_compensations l x : Frame (store compensationsH l x).
Proof. frame_prim. Qed.
Lemma Frame_store_cells l x : Frame (store cellsH l x).
Proof. frame_prim. Qed.
Lemma Frame_alloc_cells x : Frame (alloc cellsH x).
Proof. frame_prim. Qed.
Lemma Frame_alloc_compensations x : Frame (alloc compensationsH x).
Proof. frame_prim. Qed.

Lemma Frame_update_contexts l f : Frame (update contextsH l f).
Proof. apply Frame_bind; [apply Frame_load|]. intros a. apply Frame_store_contexts. Qed.
Lemma Frame_update_histories l f : Frame (update historiesH l f).
Proof. apply Frame_bind; [apply Frame_load|]. intros a. apply Frame_store_histories. Qed.
Lemma Frame_update_compensations l f : Frame (update compensationsH l f).
Proof. apply Frame_bind; [apply Frame_load|]. intros a. apply Frame_store_compensations. Qed.

Lemma Frame_save l : Frame (save l).
Proof.
  intros w. unfold save, bind, load, alloc, modify. cbn.
  destruct (flows w !! l) as [fs|]; cbn; [|apply Extends_refl].
  split; [done|]. cbn. rewrite length_app. cbn. split; [lia|].
  intros id l0 Hl0 Hlt. rewrite mapGet_mapSet.
  destruct (String.eqb (flowId fs) id).
  - eexists. split; [done|]. lia.
  - exists l0. split; [done|lia].
Qed.

Lemma Frame_get id : Frame (Storage.get id).
Proof.
  unfold Storage.get. apply Frame_bind; [apply Frame_gets|]. intros [l|]; [|apply Frame_ret].
  apply Frame_bind; [apply Frame_load|]. intros fs.
  apply Frame_bind; [apply Frame_alloc_flows|]. intros. apply Frame_ret.
Qed.

Lemma Frame_forEach {A} (f : A -> M World unit) xs :
  (forall x, Frame (f x)) -> Frame (forEach f xs).
Proof.
  intros Hf. induction xs; simpl; [apply Frame_ret|].
  apply Frame_bind; [apply Hf|]. by intros.
Qed.

Lemma Frame_mapM {A B} (f : A -> M World B) xs :
  (forall x, Frame (f x)) -> Frame (mapM f xs).
Proof.
  intros Hf. induction xs; simpl; [apply Frame_ret|].
  apply Frame_bind; [apply Hf|]. intros. apply Frame_bind; [done|]. intros. apply Frame_ret.
Qed.

Lemma Frame_mapiM {A B} (f : nat -> A -> M World B) xs : forall i,
  (forall i x, Frame (f i x)) -> Frame (mapiM f i xs).
Proof.
  induction xs; intros i Hf; simpl; [apply Frame_ret|].
  apply Frame_bind; [apply Hf|]. intros. apply Frame_bind; [by apply IHxs|]. intros. apply Frame_ret.
Qed.

Ltac frame :=
  repeat first
    [ match goal with H : forall _, _ |- Frame _ => apply H end
    | apply Frame_ret | apply Frame_throw | apply Frame_crash | apply Frame_gets
    | apply Frame_load | apply Frame_emitW | apply Frame_onContext
    | apply Frame_alloc_flows | apply Frame_store_flows | apply Frame_update_flows
    | apply Frame_update_contexts | apply Frame_update_histories
    | apply Frame_update_compensations | apply Frame_alloc_cells
    | apply Frame_store_cells | apply Frame_save | apply Frame_get
    | apply Frame_bind; [|intros ?]
    | apply Frame_catch; [|intros ?]
    | apply Frame_forEach; intros ?
    | apply Frame_mapM; intros ?
    | apply Frame_mapiM; intros ? ?
    | match goal with
      | |- Frame (match ?x with _ => _ end) => destruct x
      | |- Frame (if ?x then _ else _) => destruct x
      | |- Frame (let _ := _ in _) => cbn zeta
      end
    | solve [eauto] ].

Section EngineFrame.
Variable config : StateMachineConfig.
Variable middlewares : list Middleware.

Lemma Frame_markFailed l msg : Frame (markFailed l msg).
Proof. unfold markFailed. frame. Qed.

Lemma Frame_compensationsOf fs : Frame (compensationsOf fs).
Proof. unfold compensationsOf. frame. Qed.

Lemma Frame_mergedRegion ts i x : Frame (mergedRegion ts i x).
Proof. unfold mergedRegion. frame. Qed.

Lemma Frame_compensate l msg : Frame (compensate l msg).
Proof.
  unfold compensate, runCompensation.
  pose proof Frame_markFailed. pose proof Frame_compensationsOf. frame.
Qed.

Lemma Frame_executeParallelTransition l options :
  Frame (executeParallelTransition config l options).
Proof.
  unfold executeParallelTransition, mergeBroadcast, regionTransition.
  pose proof Frame_mergedRegion. frame.
Qed.

Lemma Frame_executeCore flowId options : Frame (executeCore config flowId options).
Proof.
  unfold executeCore, coreTry, coreCatch, isFlowComplete.
  pose proof Frame_compensate. pose proof Frame_executeParallelTransition. frame.
Qed.

Lemma Frame_dispatch fuel index context flowId options :
  MiddlewareFrame middlewares ->
  Frame (dispatch config middlewares fuel index context flowId options).
Proof.
  intros Hmw. pose proof Frame_executeCore.
  induction fuel as [|fuel IH]; simpl.
  - frame.
  - apply Frame_bind; [frame|]. intros i. destruct (_ <=? _)%nat; [done|].
    apply Frame_bind; [frame|]. intros _.
    destruct (middlewares !! i) as [mw|] eqn:Hi; [|frame].
    apply Hmw; [by eapply list_elem_of_lookup_2|done].
Qed.

Lemma Frame_executeWithMiddleware flowId options :
  MiddlewareFrame middlewares ->
  Frame (executeWithMiddleware config middlewares flowId options).
Proof.
  intros Hmw. unfold executeWithMiddleware. pose proof Frame_dispatch. frame.
Qed.

End EngineFrame.

Section Idempotency.
Variable config : StateMachineConfig.
Variable middlewares : list Middleware.

Lemma getFlowIdByIdempotencyKey_bound K bound w :
  idempotencyKeys w !! K = Some bound -> truthy bound = true ->
  getFlowIdByIdempotencyKey K w = (Ok (Some bound), w).
Proof. intros H Ht. unfold getFlowIdByIdempotencyKey, gets. by rewrite H, Ht. Qed.

Lemma execute_replay flowId options K bound l fs w :
  o_idempotencyKey options = Some K -> truthy K = true ->
  idempotencyKeys w !! K = Some bound -> truthy bound = true ->
  mapGet flowId (states w) = Some l -> flows w !! l = Some fs ->
  execute config middlewares flowId options w =
    (Ok (noopResult options (length (flows w)) (currentState fs)),
     setFlows (flows w ++ [fs]) w).
Proof.
  intros HK HtK Hb Htb Hl Hfs. unfold execute, idempotencyGuard.
  rewrite HK, HtK.
  erewrite bind_ok; [|erewrite bind_ok; [|by eapply getFlowIdByIdempotencyKey_bound]].
  2: { cbn beta iota. erewrite bind_ok; [|by eapply get_spec_some]. cbn beta iota.
       erewrite bind_ok; [|apply load_spec; cbn; apply lookup_snoc]. reflexivity. }
  reflexivity.
Qed.

Lemma idempotencyGuard_fresh flowId options K w :
  o_idempotencyKey options = Some K -> truthy K = true ->
  getFlowIdByIdempotencyKey K w = (Ok None, w) ->
  idempotencyGuard flowId options w =
    (Ok None, setIdempotencyKeys (<[K := flowId]> (idempotencyKeys w)) w).
Proof.
  intros HK HtK Hfresh. unfold idempotencyGuard. rewrite HK, HtK.
  erewrite bind_ok; [|exact Hfresh]. reflexivity.
Qed.

Lemma execute_fresh flowId options K w :
  o_idempotencyKey options = Some K -> truthy K = true ->
  getFlowIdByIdempotencyKey K w = (Ok None, w) ->
  execute config middlewares flowId options w =
    (if (0 <? length middlewares)%nat
     then executeWithMiddleware config middlewares flowId options
     else executeCore config flowId options)
      (setIdempotencyKeys (<[K := flowId]> (idempotencyKeys w)) w).
Proof.
  intros HK HtK Hfresh. unfold execute.
  erewrite bind_ok; [|by eapply idempotencyGuard_fresh]. reflexivity.
Qed.

Lemma execute_binds flowId options K w :
  o_idempotencyKey options = Some K -> truthy K = true -> truthy flowId = true ->
  MiddlewareFrame middlewares ->
  is_Some (storedFlow w flowId) ->
  let w1 := (execute config middlewares flowId options w).2 in
  (exists bound, idempotencyKeys w1 !! K = Some bound /\ truthy bound = true) /\
  is_Some (storedFlow w1 flowId).
Proof.
  intros HK HtK Htf Hmw [fs Hstored].
  unfold storedFlow in Hstored.
  destruct (mapGet flowId (states w)) as [l|] eqn:Hl; [|done]. cbn in Hstored.
  pose proof (lookup_lt_Some _ _ _ Hstored) as Hlt.
  destruct (getFlowIdByIdempotencyKey K w) as [r w'] eqn:Hget.
  unfold getFlowIdByIdempotencyKey, gets in Hget.
  destruct (idempotencyKeys w !! K) as [bound|] eqn:Hb;
    [destruct (truthy bound) eqn:Htb|].
  - cbn zeta. erewrite execute_replay by done. cbn. split; [eauto|].
    unfold storedFlow. cbn. rewrite Hl. cbn. rewrite lookup_app_l by done. eauto.
  - cbn zeta. erewrite execute_fresh; [|done|done|].
    2: { unfold getFlowIdByIdempotencyKey, gets. by rewrite Hb, Htb. }
    set (w0 := setIdempotencyKeys _ w).
    set (m := if (0 <? _)%nat then _ else _).
    assert (Hm : Frame m).
    { unfold m. destruct (0 <? _)%nat;
        [by apply Frame_executeWithMiddleware|apply Frame_executeCore]. }
    destruct (Hm w0) as (HKeys & _ & HS). split.
    + rewrite HKeys. exists flowId. subst w0. cbn. by rewrite lookup_insert_eq.
    + destruct (HS flowId l) as (l' & Hl' & Hlt'); [done|done|].
      unfold storedFlow. rewrite Hl'. cbn. by apply lookup_lt_is_Some_2.
  - cbn zeta. erewrite execute_fresh; [|done|done|].
    2: { unfold getFlowIdByIdempotencyKey, gets. by rewrite Hb. }
    set (w0 := setIdempotencyKeys _ w).
    set (m := if (0 <? _)%nat then _ else _).
    assert (Hm : Frame m).
    { unfold m. destruct (0 <? _)%nat;
        [by apply Frame_executeWithMiddleware|apply Frame_executeCore]. }
    destruct (Hm w0) as (HKeys & _ & HS). split.
    + rewrite HKeys. exists flowId. subst w0. cbn. by rewrite lookup_insert_eq.
    + destruct (HS flowId l) as (l' & Hl' & Hlt'); [done|done|].
      unfold storedFlow. rewrite Hl'. cbn. by apply lookup_lt_is_Some_2.
Qed.

Lemma repeatExecute_replay flowId options K n : forall w bound l fs,
  o_idempotencyKey options = Some K -> truthy K = true ->
  idempotencyKeys w !! K = Some bound -> truthy bound = true ->
  mapGet flowId (states w) = Some l -> flows w !! l = Some fs ->
  let (rs, wn) := repeatExecute config middlewares flowId options n w in
  length rs = n /\
  Forall (isNoop options (currentState fs)) rs /\
  flowView wn flowId = flowView w flowId /\
  storedFlow wn flowId = Some fs.
Proof.
  induction n as [|n IH]; intros w bound l fs HK HtK Hb Htb Hl Hfs; simpl.
  - repeat split; try done. unfold storedFlow. rewrite Hl. done.
  - erewrite execute_replay by done.
    specialize (IH (setFlows (flows w ++ [fs]) w) bound l fs HK HtK Hb Htb Hl).
    destruct (repeatExecute config middlewares flowId options n _) as [rs wn].
    destruct IH as (Hlen & Hall & Hview & Hst).
    { cbn. rewrite lookup_app_l; [done|]. eauto using lookup_lt_Some. }
    split; [simpl; by rewrite Hlen|]. split.
    { constructor; [|done]. eexists. split; [done|]. done. }
    split; [|done]. rewrite Hview. unfold flowView, storedFlow. cbn. rewrite Hl. cbn.
    rewrite lookup_app_l; [done|]. eauto using lookup_lt_Some.
Qed.

(** C3 (amended). For an existing flow, a non-empty flow id, a non-empty
    idempotency key [K], and middlewares that leave key bindings and stored
    flows in place: after a first call of [execute] with [K], whatever its
    outcome, [n] further calls with [K] leave the stored flow's current
    state, history, context and status as the first call left them, and each
    of them returns the no-op success whose transition goes from the flow's
    current state to itself. *)
Theorem execute_idempotent flowId options K w n :
  o_idempotencyKey options = Some K -> truthy K = true -> truthy flowId = true ->
  MiddlewareFrame middlewares ->
  is_Some (storedFlow w flowId) ->
  let (r1, w1) := execute config middlewares flowId options w in
  let (rs, wn) := repeatExecute config middlewares flowId options n w1 in
  length rs = n /\
  flowView wn flowId = flowView w1 flowId /\
  exists fs1, storedFlow w1 flowId = Some fs1 /\
    Forall (isNoop options (currentState fs1)) rs.
Proof.
  intros HK HtK Htf Hmw Hex.
  pose proof (execute_binds flowId options K w HK HtK Htf Hmw Hex) as Hb.
  destruct (execute config middlewares flowId options w) as [r1 w1]. cbn in Hb.
  destruct Hb as [(bound & Hb & Htb) [fs1 Hfs1]].
  pose proof Hfs1 as Hst. unfold storedFlow in Hst.
  destruct (mapGet flowId (states w1)) as [l|] eqn:Hl; [|done]. cbn in Hst.
  pose proof (repeatExecute_replay flowId options K n w1 bound l fs1 HK HtK Hb Htb Hl Hst) as H.
  destruct (repeatExecute config middlewares flowId options n w1) as [rs wn].
  destruct H as (Hlen & Hall & Hview & _). eauto 10.
Qed.

Lemma executeCore_notFound flowId options w :
  mapGet flowId (states w) = None ->
  executeCore config flowId options w =
    (Throw ("Flow with ID " +:+ dq +:+ flowId +:+ dq +:+ " not found"), w).
Proof.
  intros H. unfold executeCore. erewrite bind_ok; [|by apply get_spec_none]. done.
Qed.

Lemma executeWithMiddleware_notFound flowId options w :
  mapGet flowId (states w) = None ->
  executeWithMiddleware config middlewares flowId options w =
    (Throw ("Flow with ID " +:+ dq +:+ flowId +:+ dq +:+ " not found"), w).
Proof.
  intros H. unfold executeWithMiddleware.
  erewrite bind_ok; [|by apply get_spec_none]. done.
Qed.

Lemma executeCore_notActive flowId options l fs w :
  mapGet flowId (states w) = Some l -> flows w !! l = Some fs ->
  status fs <> Active ->
  executeCore config flowId options w =
    (Throw ("Flow is not active. Current status: " +:+ statusName (status fs)),
     setFlows (flows w ++ [fs]) w).
Proof.
  intros Hl Hfs Hst. unfold executeCore.
  erewrite bind_ok; [|by eapply get_spec_some]. cbn beta iota.
  erewrite bind_ok; [|apply load_spec; cbn; apply lookup_snoc].
  by rewrite bool_decide_eq_false_2.
Qed.

Lemma setAdd_NoDup x (set : list string) : NoDup set -> NoDup (setAdd x set).
Proof.
  intros H. unfold setAdd. destruct (includes set x) eqn:Hin; [done|].
  apply NoDup_app. split; [done|]. split; [|apply NoDup_singleton].
  intros y Hy ->%list_elem_of_singleton.
  apply includes_spec in Hy. congruence.
Qed.

(** The parallel branch of [getPossibleTransitions] collects the events in a
    set: what it returns has no duplicate. *)
Lemma possible_transitions_parallel_unique flowId w l fs regions :
  mapGet flowId (states w) = Some l -> flows w !! l = Some fs ->
  currentState fs = Multi regions ->
  exists events w',
    getPossibleTransitions config flowId w = (Ok events, w') /\ NoDup events.
Proof.
  intros Hl Hfs Hcur. unfold getPossibleTransitions.
  erewrite bind_ok; [|by eapply get_spec_some]. cbn beta iota.
  erewrite bind_ok; [|apply load_spec; cbn; apply lookup_snoc]. rewrite Hcur.
  eexists _, _. split; [reflexivity|].
  assert (Hinner : forall ts acc, NoDup acc ->
            NoDup (fold_left (fun set t => setAdd (t_event t) set) ts acc)).
  { induction ts as [|t ts IH]; intros acc Hacc; simpl; [done|].
    by apply IH, setAdd_NoDup. }
  clear Hcur. generalize (NoDup_nil_2 (A := string)). generalize (@nil string) as acc.
  induction regions as [|region regions IH]; intros acc Hacc; simpl; [done|].
  by apply IH, Hinner.
Qed.

End Idempotency.

End FlowEngineFacts.

(** ** More of the state machine: validation of a configuration, successful
    and rejected transitions *)

Module StateMachineProperties.
Import StateMachine Reasoning StateMachineFacts.

Lemma Decides_if {S} (b : bool) e : Decides (S := S) (if b then ret tt else throw e) (b = true).
Proof.
  intros s. destruct b.
  - left. done.
  - right. split; [done|]. by exists e.
Qed.

Lemma Decides_bind {S} (m1 m2 : M S unit) P1 P2 :
  Decides m1 P1 -> Decides m2 P2 -> Decides (m1 ;; m2) (P1 /\ P2).
Proof.
  intros H1 H2 s. unfold bind.
  destruct (H1 s) as [[HP1 ->]|[HP1 [e ->]]].
  - destruct (H2 s) as [[HP2 ->]|[HP2 [e ->]]].
    + left. done.
    + right. split; [tauto|]. by exists e.
  - right. split; [tauto|]. by exists e.
Qed.

Lemma Decides_iff {S} (m : M S unit) P Q : Decides m P -> (P <-> Q) -> Decides m Q.
Proof.
  intros H HPQ s. destruct (H s) as [[HP E]|[HP E]].
  - left. split; [by apply HPQ|done].
  - right. split; [|done]. intros HQ. by apply HP, HPQ.
Qed.

Lemma Decides_forEach {S A} (f : A -> M S unit) (P : A -> Prop) xs :
  (forall x, Decides (f x) (P x)) -> Decides (forEach f xs) (Forall P xs).
Proof.
  intros Hf. induction xs as [|x xs IH]; simpl.
  - intros s. left. done.
  - eapply Decides_iff; [apply Decides_bind; [apply Hf|apply IH]|].
    split.
    + intros [? ?]. by constructor.
    + intros H. by apply Forall_cons in H.
Qed.

Section Validation.
Variable config : StateMachineConfig.

Lemma hasState_Declared name : hasState config name = true <-> Declared config name.
Proof. unfold hasState, Declared, stateMap. apply bool_decide_eq_true. Qed.

Lemma Decides_hasState {S} name e :
  Decides (S := S) (if hasState config name then ret tt else throw e) (Declared config name).
Proof. eapply Decides_iff; [apply Decides_if|apply hasState_Declared]. Qed.

Lemma Decides_validateState {S} name state :
  Decides (S := S) (validateState config name state) (WellFormedState config state).
Proof.
  destruct state as [st|p|c]; simpl.
  - destruct (s_type st) as [[]|]; simpl.
    + apply Decides_forEach. intros t. apply Decides_hasState.
    + intros s. by left.
    + apply Decides_forEach. intros t. apply Decides_hasState.
  - apply Decides_forEach. intros region.
    apply Decides_bind; [apply Decides_hasState|].
    apply Decides_forEach. intros child. apply Decides_hasState.
  - apply Decides_bind; [apply Decides_hasState|].
    apply Decides_forEach. intros child. apply Decides_hasState.
Qed.

Lemma Decides_validate {S} : Decides (S := S) (validate_ config) (WellFormed config).
Proof.
  unfold validate_, WellFormed.
  apply Decides_bind; [apply Decides_hasState|].
  apply Decides_bind; [apply Decides_forEach; intros t; apply Decides_hasState|].
  eapply Decides_iff.
  { apply Decides_forEach. intros entry. apply Decides_validateState. }
  rewrite Forall_forall. split.
  - intros H name state Hl. apply (H (name, state)). by apply elem_of_map_to_list.
  - intros H [name state] Hin. apply (H name). by apply elem_of_map_to_list.
Qed.

(** X1. The constructor's [validate] accepts a configuration exactly when it
    is well formed: the initial state is declared, every global transition
    leads to a declared state, and every declared state is well formed (see
    [WellFormedState]: nothing is asked of a ['final'] state nor of the
    transitions a parallel state carries).  It raises otherwise, and in both
    cases leaves the state alone. *)
Theorem validate_accepts_iff {S} (s : S) :
  (validate_ config s = (Ok tt, s) <-> WellFormed config) /\
  (~ WellFormed config -> exists e, validate_ config s = (Throw e, s)).
Proof.
  destruct (Decides_validate (S := S) s) as [[HW E]|[HW [e E]]].
  - split; [done|]. intros H. done.
  - split; [|eauto]. split; [|done]. rewrite E. discriminate.
Qed.

Lemma WellFormed_targets cs node t :
  WellFormed config ->
  stateMap config !! cs = Some node -> isParallelState node = false ->
  t ∈ getTransitions config cs ->
  is_Some (stateMap config !! t_to t).
Proof.
  intros (_ & Hglobal & Hstates) Hnode Hpar Ht.
  unfold getTransitions in Ht. rewrite Hnode in Ht.
  apply elem_of_app in Ht as [Ht|Ht].
  - specialize (Hstates cs node Hnode).
    destruct node as [st|p|c]; simpl in *; [|done|by apply elem_of_nil in Ht].
    destruct (s_type st) as [[]|]; simpl in *; try (by apply elem_of_nil in Ht).
    all: rewrite Forall_forall in Hstates; by apply Hstates.
  - rewrite Forall_forall in Hglobal. apply Hglobal.
    destruct (transitions config) as [ts|]; simpl; [|by apply elem_of_nil in Ht].
    apply list_elem_of_In, filter_In in Ht as [Ht _]. by apply list_elem_of_In.
Qed.

(** X2. In a configuration that [validate] accepted, every transition
    [getTransitions] returns for a declared state that is not a parallel
    state leads to a declared state. *)
Theorem validated_targets_declared {S} (s : S) cs node t :
  validate_ config s = (Ok tt, s) ->
  stateMap config !! cs = Some node -> isParallelState node = false ->
  t ∈ getTransitions config cs ->
  is_Some (stateMap config !! t_to t).
Proof.
  intros Hv. apply WellFormed_targets.
  destruct (Decides_validate (S := S) s) as [[HW _]|[_ [e E]]]; [done|].
  rewrite E in Hv. discriminate.
Qed.

End Validation.

Section Transitions.
Variable config : StateMachineConfig.

Lemma findIn_member cands ev s :
  post (findIn cands ev) s (fun r _ =>
    forall t, r = Ok (Some t) -> t ∈ cands /\ t_event t = ev).
Proof.
  revert s. induction cands as [|c rest IH]; intros s; simpl.
  - apply post_ret. intros t [=].
  - destruct (String.eqb_spec (t_event c) ev) as [Hev|Hev].
    + destruct (t_guard c) as [g|].
      * post_step. post_step. post_step.
        -- destruct b.
           ++ post_step. intros t [= <-]. split; [by left|done].
           ++ eapply post_mono; [apply IH|]. cbn. intros r s' H' t Ht.
              destruct (H' t Ht). split; [by right|done].
        -- post_step. eapply post_mono; [apply IH|]. cbn. intros r s' H' t Ht.
           destruct (H' t Ht). split; [by right|done].
      * post_step. intros t [= <-]. split; [by left|done].
    + eapply post_mono; [apply IH|]. cbn. intros r s' H t Ht.
      destruct (H t Ht). split; [by right|done].
Qed.

Lemma attemptBody_ok_target state t cs s :
  post (attemptBody config state t cs) s (fun r _ =>
    forall u, r = Ok u -> is_Some (stateMap config !! t_to t)).
Proof.
  unfold attemptBody. repeat post_step; try (by intros ? [=]); by intros.
Qed.

Lemma attemptLoop_success state t cs ev max strategy delay fuel : forall a last s,
  post (attemptLoop config state t cs ev max strategy delay fuel a last) s (fun r _ =>
    forall res, r = Ok (inl res) ->
      res = successResult t cs ev /\ is_Some (stateMap config !! t_to t)).
Proof.
  induction fuel as [|fuel IH]; intros a last s; simpl.
  - destruct (a <=? max); [done|]. apply post_ret. intros res [=].
  - destruct (a <=? max); [|apply post_ret; intros res [=]].
    post_step. post_step.
    eapply post_mono; [apply attemptBody_ok_target|]. cbn.
    intros r s1 H. destruct r as [u|e|]; [| |done].
    + post_step. intros res [= <-]. split; [done|]. by apply (H u).
    + post_step. destruct (a <? max).
      * post_step. apply IH.
      * post_step. apply IH.
Qed.

(** X3. A successful [executeTransition] took one of the candidates
    [getTransitions] lists for the current state, on the event it was given;
    both the current state and the target are states of the machine; the
    result goes from the current state to the target and carries no
    error. *)
Theorem executeTransition_success_target cs ev s res s' :
  executeTransition config cs ev s = (Ok res, s') ->
  success res = true ->
  exists t,
    t ∈ getTransitions config cs /\ t_event t = ev /\
    is_Some (stateMap config !! cs) /\
    is_Some (stateMap config !! t_to t) /\
    res = {| success := true; fromState := Single cs; toState := Single (t_to t);
             event := ev; error := None |}.
Proof.
  intros E Hs.
  cut (post (executeTransition config cs ev) s (fun r _ =>
         forall res, r = Ok res -> success res = true ->
           exists t, t ∈ getTransitions config cs /\ t_event t = ev /\
             is_Some (stateMap config !! cs) /\
             is_Some (stateMap config !! t_to t) /\
             res = successResult t cs ev)).
  { unfold post. rewrite E. cbn. intros H. by apply H. }
  clear. unfold executeTransition.
  destruct (stateMap config !! cs) as [state|] eqn:Hstate.
  2: { apply post_ret. intros res [= <-]. done. }
  post_step. unfold findTransition. rewrite Hstate.
  eapply post_mono; [apply findIn_member|]. cbn.
  intros r s1 Hfound. destruct r as [[t|]|e|]; [| |done|done].
  2: { apply post_ret. intros res [= <-]. done. }
  destruct (Hfound t eq_refl) as [Hin Hev].
  cbn zeta. post_step.
  eapply post_mono; [apply attemptLoop_success|]. cbn.
  intros r s2 Hloop. destruct r as [[res|last]|e|]; [| |done|done].
  - destruct (Hloop res eq_refl) as [-> Htarget].
    apply post_ret. intros res [= <-] _. exists t. eauto 10.
  - post_step. eapply post_mono; [apply onError_handler_post|]. cbn.
    intros r s3 [-> _]. apply post_ret. intros res [= <-]. done.
Qed.

Lemma attemptBody_validation_rejects state t cs s1 target v c verdict :
  onExitOf state = None -> t_action t = None ->
  stateMap config !! t_to t = Some target ->
  validationOf target = Some v ->
  validate v (sm_context s1) = (c, inl verdict) ->
  verdict <> VRBool true ->
  attemptBody config state t cs s1 =
    (Throw match verdict with
           | VRString text => text
           | VRBool _ =>
               strOr (errorMessage v)
                 ("Validation failed for state " +:+ dq +:+ t_to t +:+ dq)
           end,
     {| sm_context := c; sm_clock := sm_clock s1;
        sm_trace := sm_trace s1 ++ [EValidate (t_to t)] |}).
Proof.
  intros Hexit Haction Htarget Hv Hverdict Hne.
  unfold attemptBody. rewrite Hexit, Haction, Htarget, Hv.
  unfold bind, ret, emit, modify, call. cbn. rewrite Hverdict.
  by destruct verdict as [[|]|text].
Qed.

(** X4. Validation gates the entry.  For a transition without retry, exit
    action or transition action, whose target state has a validation: when
    the validation function returns anything but [true], [executeTransition]
    fails with the returned string, or for [false] with the configured
    [errorMessage] (when absent or empty, "Validation failed for state
    ..."); the only hook invoked after the guards is the validation, then
    the error handler if there is one: the entry action is not run. *)
Theorem validation_rejects cs ev s state t s1 target v c verdict :
  stateMap config !! cs = Some state ->
  findTransition config cs ev s = (Ok (Some t), s1) ->
  t_retry t = None -> onExitOf state = None -> t_action t = None ->
  stateMap config !! t_to t = Some target ->
  validationOf target = Some v ->
  validate v (sm_context s1) = (c, inl verdict) ->
  verdict <> VRBool true ->
  let message :=
    match verdict with
    | VRString text => text
    | VRBool _ =>
        strOr (errorMessage v)
          ("Validation failed for state " +:+ dq +:+ t_to t +:+ dq)
    end in
  exists s',
    executeTransition config cs ev s = (Ok (failure cs ev message), s') /\
    sm_trace s' = sm_trace s1 ++ [EValidate (t_to t)]
                  ++ match onError config with
                     | Some _ => [EOnError message]
                     | None => []
                     end.
Proof.
  intros Hstate Hfind Hretry Hexit Haction Htarget Hv Hverdict Hne message.
  cut (post (executeTransition config cs ev) s (fun r s' =>
         r = Ok (failure cs ev message) /\
         sm_trace s' = sm_trace s1 ++ [EValidate (t_to t)]
                  ++ match onError config with
                     | Some _ => [EOnError message]
                     | None => []
                     end)).
  { intros H. apply post_run in H as (r & s' & E & -> & ?). eauto. }
  unfold executeTransition. rewrite Hstate.
  post_step. eapply post_intro; [exact Hfind|]. cbn beta iota zeta.
  rewrite Hretry. cbn.
  post_step. eapply post_intro.
  { change (Z.to_nat (0 + 1)) with 1%nat. cbn [attemptLoop].
    change (0 <=? 0) with true. change (0 <? 0) with false. cbn beta iota.
    unfold bind, outcomeOf, catch, bind.
    rewrite (attemptBody_validation_rejects state t cs s1 target v c verdict) by done.
    cbn. reflexivity. }
  cbn beta iota. fold message.
  post_step. eapply post_mono; [apply onError_handler_post|]. cbn.
  intros r s3 [-> Htr]. apply post_ret. split; [done|].
  rewrite Htr. cbn. by rewrite <- app_assoc.
Qed.

End Transitions.

End StateMachineProperties.

(** ** More of the store: deletion, insertion order, filters, queries, keys *)

Module StorageProperties.
Import StateMachine Storage Reasoning StateMachineFacts StorageFacts FlowEngineFacts.

Lemma mapGet_mapDelete_eq {V} k (m : list (string * V)) :
  mapGet k (mapDelete k m) = None.
Proof.
  induction m as [|[k0 v0] m IH]; simpl; [done|].
  destruct (String.eqb_spec k0 k) as [->|Hne]; simpl; [done|].
  destruct (String.eqb_spec k0 k); [done|]. exact IH.
Qed.

Lemma mapGet_mapDelete_ne {V} k k' (m : list (string * V)) :
  k' <> k -> mapGet k' (mapDelete k m) = mapGet k' m.
Proof.
  intros Hne. induction m as [|[k0 v0] m IH]; simpl; [done|].
  destruct (String.eqb_spec k0 k) as [->|Hne0]; simpl.
  - destruct (String.eqb_spec k k'); [congruence|done].
  - by rewrite IH.
Qed.

Lemma mapDelete_absent {V} k (m : list (string * V)) :
  mapGet k m = None -> mapDelete k m = m.
Proof.
  induction m as [|[k0 v0] m IH]; simpl; [done|].
  destruct (String.eqb_spec k0 k) as [->|Hne]; simpl; [done|].
  intros H. by rewrite (IH H).
Qed.

Lemma setStates_same w : setStates (states w) w = w.
Proof. by destruct w. Qed.

(** X5. [delete] always returns.  Afterwards the flow is gone ([get] yields
    [null], [exists] is false) while the other stored flows, the flow
    objects handed out before and the idempotency keys are untouched: a key
    bound to the deleted flow stays bound.  Deleting an id that is not
    stored changes nothing. *)
Theorem delete_removes_flow id w :
  exists w',
    delete id w = (Ok tt, w') /\
    storedFlow w' id = None /\
    (forall id', id' <> id -> storedFlow w' id' = storedFlow w id') /\
    idempotencyKeys w' = idempotencyKeys w /\
    flows w' = flows w /\
    exists_ id w' = (Ok false, w') /\
    get id w' = (Ok None, w') /\
    (mapGet id (states w) = None -> w' = w).
Proof.
  eexists. split; [reflexivity|]. cbn.
  split. { unfold storedFlow. cbn. by rewrite mapGet_mapDelete_eq. }
  split. { intros id' Hne. unfold storedFlow. cbn. by rewrite mapGet_mapDelete_ne. }
  do 2 (split; [done|]).
  split. { unfold exists_, gets, mapHas. cbn. by rewrite mapGet_mapDelete_eq. }
  split. { apply get_spec_none. cbn. apply mapGet_mapDelete_eq. }
  intros Habsent. rewrite mapDelete_absent by done. apply setStates_same.
Qed.

Lemma mapSet_keys {V} k (v : V) m :
  map fst (mapSet k v m) = if mapHas k m then map fst m else map fst m ++ [k].
Proof.
  unfold mapHas. induction m as [|[k0 v0] m IH]; simpl; [done|].
  destruct (String.eqb_spec k0 k) as [->|Hne]; simpl; [done|].
  rewrite IH. by destruct (mapGet k m).
Qed.

Lemma mapSet_length {V} k (v : V) m :
  length (mapSet k v m) = if mapHas k m then length m else S (length m).
Proof.
  rewrite <- (length_map fst (mapSet k v m)), mapSet_keys.
  destruct (mapHas k m); rewrite ?length_app, length_map; simpl; lia.
Qed.

Lemma mapSet_elem_of {V} k (v : V) m entry :
  entry ∈ mapSet k v m -> entry = (k, v) \/ entry ∈ m.
Proof.
  induction m as [|[k0 v0] m IH]; simpl.
  - intros ->%list_elem_of_singleton. by left.
  - destruct (String.eqb_spec k0 k) as [->|Hne].
    + intros [->|H]%elem_of_cons; [by left|]. right. by right.
    + intros [->|H]%elem_of_cons; [right; by left|].
      destruct (IH H); [by left|]. right. by right.
Qed.

(** X6. [save] stores a copy: a new object with the fields of the one it
    was given.  The other flows are untouched.  A new id goes last in the
    order of the store and makes [size] grow by one; an id already stored
    keeps its place and [size] stays. *)
Theorem save_inserts_or_overwrites l fs w :
  flows w !! l = Some fs -> storeValid w ->
  exists w' copy,
    save l w = (Ok tt, w') /\
    mapGet (flowId fs) (states w') = Some copy /\ copy <> l /\
    flows w' !! copy = Some fs /\
    (forall id, id <> flowId fs -> storedFlow w' id = storedFlow w id) /\
    map fst (states w') =
      (if mapHas (flowId fs) (states w) then map fst (states w)
       else map fst (states w) ++ [flowId fs]) /\
    size w' = (Ok (if mapHas (flowId fs) (states w)
                   then length (states w) else S (length (states w))), w') /\
    storeValid w'.
Proof.
  intros Hl Hvalid. pose proof (lookup_lt_Some _ _ _ Hl) as Hlt.
  eexists _, _. split; [by apply save_spec|]. cbn.
  split. { rewrite mapGet_mapSet. by rewrite String.eqb_refl. }
  split; [lia|].
  split; [apply lookup_snoc|].
  split.
  { intros id Hne. unfold storedFlow. cbn. rewrite mapGet_mapSet.
    destruct (String.eqb_spec (flowId fs) id); [congruence|].
    destruct (mapGet id (states w)) as [l'|] eqn:Hl'; cbn; [|done].
    destruct (storeValid_mapGet _ _ _ Hvalid Hl') as [x Hx].
    rewrite lookup_app_l; [done|]. eauto using lookup_lt_Some. }
  split; [apply mapSet_keys|].
  split. { unfold size, gets. cbn. by rewrite mapSet_length. }
  unfold storeValid in *. cbn. rewrite Forall_forall in *.
  intros entry [->|Hin]%mapSet_elem_of; cbn.
  - rewrite lookup_snoc. eauto.
  - destruct (Hvalid entry Hin) as [x Hx].
    rewrite lookup_app_l; [eauto|]. eauto using lookup_lt_Some.
Qed.

Lemma filter_filter_andb {A} (p q : A -> bool) l :
  List.filter q (List.filter p l) = List.filter (fun x => p x && q x) l.
Proof.
  induction l as [|x l IH]; simpl; [done|].
  destruct (p x); simpl; [|done]. destruct (q x); by rewrite IH.
Qed.

Lemma filter_true {A} (l : list A) : List.filter (fun _ => true) l = l.
Proof. induction l; simpl; congruence. Qed.

Lemma applyFilter_satisfies filter sts :
  applyFilter filter sts = List.filter (satisfies filter) sts.
Proof.
  unfold applyFilter, satisfies.
  destruct filter as [fsta fdef fver fpar fcur]; cbn.
  set (p1 := fun s : FlowState =>
               match fsta with Some st => bool_decide (status s = st) | None => true end).
  set (p2 := fun s : FlowState =>
               match fdef with
               | Some d => negb (truthy d) || String.eqb (flowDefinitionId s) d
               | None => true
               end).
  set (p3 := fun s : FlowState =>
               match fver with
               | Some v => negb (truthy v) || bool_decide (Storage.version s = Some v)
               | None => true
               end).
  set (p4 := fun s : FlowState =>
               match fpar with
               | Some p => bool_decide (parentFlowId s = Some p)
               | None => true
               end).
  set (p5 := fun s : FlowState =>
               match fcur with Some target => currentStateMatches target s | None => true end).
  transitivity (List.filter p5 (List.filter p4 (List.filter p3 (List.filter p2
                  (List.filter p1 sts))))).
  - assert (E1 : match fsta with
                 | Some st => List.filter (fun s => bool_decide (status s = st)) sts
                 | None => sts
                 end = List.filter p1 sts).
    { unfold p1. destruct fsta; [reflexivity|]. by rewrite filter_true. }
    rewrite E1. generalize (List.filter p1 sts) as l1. intros l1.
    assert (E2 : match fdef with
                 | Some d => if truthy d
                             then List.filter (fun s => String.eqb (flowDefinitionId s) d) l1
                             else l1
                 | None => l1
                 end = List.filter p2 l1).
    { unfold p2. destruct fdef as [d|]; [|by rewrite filter_true].
      destruct (truthy d); simpl; [reflexivity|]. by rewrite filter_true. }
    rewrite E2. generalize (List.filter p2 l1) as l2. intros l2.
    assert (E3 : match fver with
                 | Some v => if truthy v
                             then List.filter (fun s => bool_decide (Storage.version s = Some v)) l2
                             else l2
                 | None => l2
                 end = List.filter p3 l2).
    { unfold p3. destruct fver as [v|]; [|by rewrite filter_true].
      destruct (truthy v); simpl; [reflexivity|]. by rewrite filter_true. }
    rewrite E3. generalize (List.filter p3 l2) as l3. intros l3.
    assert (E4 : match fpar with
                 | Some p => List.filter (fun s => bool_decide (parentFlowId s = Some p)) l3
                 | None => l3
                 end = List.filter p4 l3).
    { unfold p4. destruct fpar; [reflexivity|]. by rewrite filter_true. }
    rewrite E4. generalize (List.filter p4 l3) as l4. intros l4.
    unfold p5. destruct fcur; [reflexivity|]. by rewrite filter_true.
  - rewrite !filter_filter_andb. apply filter_ext. intros s.
    unfold p1, p2, p3, p4, p5. by rewrite !andb_assoc.
Qed.

Lemma storeValid_values w :
  storeValid w -> Forall (fun l => is_Some (flows w !! l)) (mapValues (states w)).
Proof.
  intros Hvalid. apply Forall_forall. intros l Hl.
  unfold mapValues in Hl. apply list_elem_of_fmap in Hl as [[id l'] [-> Hin]].
  unfold storeValid in Hvalid. rewrite Forall_forall in Hvalid.
  by apply (Hvalid (id, l')).
Qed.

Lemma copies_fresh (sts : list FlowState) (old : list FlowState) :
  Forall2 (fun l fs => (old ++ sts) !! l = Some fs) (seq (length old) (length sts)) sts.
Proof.
  apply Forall2_same_length_lookup. split; [by rewrite length_seq|].
  intros i l fs Hl Hfs. apply lookup_seq in Hl as [-> Hi].
  by rewrite lookup_app_r, Nat.add_comm, Nat.add_sub by lia.
Qed.

(** X7. The filters of [list] are a conjunction: [list(filter)] returns
    copies of exactly the stored flows that satisfy every criterion the
    filter names, in the order of the store.  A [flowDefinitionId] or
    [version] criterion that is the empty string is ignored.  Without a
    filter every stored flow is returned.  The store itself is not
    changed. *)
Theorem list_filters_conjunction filter :
  (forall s,
     satisfies filter s = true <->
     (forall st, f_status filter = Some st -> status s = st) /\
     (forall d, f_flowDefinitionId filter = Some d -> d <> EmptyString ->
                flowDefinitionId s = d) /\
     (forall v, f_version filter = Some v -> v <> EmptyString ->
                Storage.version s = Some v) /\
     (forall p, f_parentFlowId filter = Some p -> parentFlowId s = Some p) /\
     (forall target, f_currentState filter = Some target ->
                     currentStateMatches target s = true)) /\
  (forall w, storeValid w ->
     exists ls w',
       list_ (Some filter) w = (Ok ls, w') /\
       Forall2 (fun l fs => flows w' !! l = Some fs) ls
         (List.filter (satisfies filter) (storedList w)) /\
       states w' = states w) /\
  (forall w, storeValid w ->
     exists ls w',
       list_ None w = (Ok ls, w') /\
       Forall2 (fun l fs => flows w' !! l = Some fs) ls (storedList w) /\
       states w' = states w).
Proof.
  split; [|split].
  - intros s. unfold satisfies.
    destruct filter as [fsta fdef fver fpar fcur]; cbn.
    rewrite !andb_true_iff. split.
    + intros ((((H1 & H2) & H3) & H4) & H5). repeat split.
      * intros st [= ->]. by apply bool_decide_eq_true in H1.
      * intros d [= ->] Hd. destruct d; [done|]. cbn in H2. by apply String.eqb_eq in H2.
      * intros v [= ->] Hv. destruct v; [done|]. cbn in H3. by apply bool_decide_eq_true in H3.
      * intros p [= ->]. by apply bool_decide_eq_true in H4.
      * intros target [= ->]. done.
    + intros (H1 & H2 & H3 & H4 & H5). repeat split.
      * destruct fsta; [|done]. apply bool_decide_eq_true. by apply H1.
      * destruct fdef as [[|a d]|]; [done| |done]. cbn. apply String.eqb_eq. by apply H2.
      * destruct fver as [[|a v]|]; [done| |done]. cbn. apply bool_decide_eq_true. by apply H3.
      * destruct fpar; [|done]. apply bool_decide_eq_true. by apply H4.
      * destruct fcur; [|done]. by apply H5.
  - intros w Hvalid. unfold list_.
    erewrite bind_ok; [|reflexivity].
    erewrite bind_ok; [|by apply mapM_load_stored, storeValid_values].
    fold (storedList w). rewrite applyFilter_satisfies.
    eexists _, _. split; [apply mapM_alloc_flows|]. cbn. split; [|done].
    apply copies_fresh.
  - intros w Hvalid. unfold list_.
    erewrite bind_ok; [|reflexivity].
    erewrite bind_ok; [|by apply mapM_load_stored, storeValid_values].
    fold (storedList w).
    eexists _, _. split; [apply mapM_alloc_flows|]. cbn. split; [|done].
    apply copies_fresh.
Qed.

Lemma contextMatches_subseteq (q ctx : Context) :
  contextMatches q ctx = true <-> q ⊆ ctx.
Proof.
  unfold contextMatches. rewrite forallb_forall, map_subseteq_spec. split.
  - intros H k v Hk. specialize (H (k, v)). cbn in H.
    apply bool_decide_eq_true in H; [done|].
    apply list_elem_of_In. by apply elem_of_map_to_list.
  - intros H [k v] Hin. cbn. apply bool_decide_eq_true. apply H.
    apply list_elem_of_In in Hin. by apply elem_of_map_to_list in Hin.
Qed.

Lemma filterM_queryHolds q sts : forall w,
  Forall (fun fs => is_Some (contexts w !! context fs)) sts ->
  filterM (fun state => ctx <- load contextsH (context state) ;;
                        ret (contextMatches q ctx)) sts w
    = (Ok (List.filter (queryHolds w q) sts), w).
Proof.
  induction sts as [|fs sts IH]; intros w Hall; simpl; [done|].
  apply Forall_cons in Hall as [[ctx Hctx] Hall].
  erewrite bind_ok.
  2: { erewrite bind_ok; [|by apply load_spec]. reflexivity. }
  erewrite bind_ok; [|by apply IH].
  assert (queryHolds w q fs = contextMatches q ctx) as ->.
  { unfold queryHolds. by rewrite Hctx. }
  by destruct (contextMatches q ctx).
Qed.

(** X8. [queryByContext] returns copies of exactly the stored flows whose
    context holds every entry of the query with the same value, in the
    order of the store; it changes neither the store nor the contexts. *)
Theorem queryByContext_submap q w :
  storeValid w ->
  Forall (fun fs => is_Some (contexts w !! context fs)) (storedList w) ->
  (forall fs,
     queryHolds w q fs = true <->
     exists ctx, contexts w !! context fs = Some ctx /\ q ⊆ ctx) /\
  exists ls w',
    queryByContext q w = (Ok ls, w') /\
    Forall2 (fun l fs => flows w' !! l = Some fs) ls
      (List.filter (queryHolds w q) (storedList w)) /\
    states w' = states w /\ contexts w' = contexts w.
Proof.
  intros Hvalid Hctx. split.
  - intros fs. unfold queryHolds. destruct (contexts w !! context fs) as [ctx|].
    + rewrite contextMatches_subseteq. split; [eauto|]. by intros (? & [= <-] & ?).
    + split; [done|]. by intros (? & [=] & _).
  - unfold queryByContext.
    erewrite bind_ok; [|reflexivity].
    erewrite bind_ok; [|by apply mapM_load_stored, storeValid_values].
    fold (storedList w).
    erewrite bind_ok; [|by apply filterM_queryHolds].
    eexists _, _. split; [apply mapM_alloc_flows|]. cbn. split; [|done].
    apply copies_fresh.
Qed.

(** X9. Idempotency keys round trip.  After [saveIdempotencyKey key flowId]
    the key is known ([hasIdempotencyKey] is true) and
    [getFlowIdByIdempotencyKey] yields [flowId], except that a key bound to
    the empty string reads as [null]; other keys and the stored flows are
    untouched. *)
Theorem idempotency_key_round_trip key flowId w :
  exists w',
    saveIdempotencyKey key flowId w = (Ok tt, w') /\
    hasIdempotencyKey key w' = (Ok true, w') /\
    getFlowIdByIdempotencyKey key w' =
      (Ok (if truthy flowId then Some flowId else None), w') /\
    (forall key', key' <> key ->
       idempotencyKeys w' !! key' = idempotencyKeys w !! key') /\
    states w' = states w /\ flows w' = flows w.
Proof.
  eexists. split; [reflexivity|].
  unfold hasIdempotencyKey, getFlowIdByIdempotencyKey, gets. cbn.
  rewrite lookup_insert_eq.
  split. { by rewrite bool_decide_eq_true_2. }
  split; [done|]. split; [|done].
  intros key' Hne. by rewrite lookup_insert_ne.
Qed.

(** X10. [clear] empties the store: [size] is 0, no flow is found, no key is
    bound, [list] returns nothing.  The objects handed out before are left
    as they were. *)
Theorem clear_empties w :
  exists w',
    clear w = (Ok tt, w') /\
    size w' = (Ok 0%nat, w') /\
    (forall id, get id w' = (Ok None, w') /\ exists_ id w' = (Ok false, w')) /\
    (forall key, hasIdempotencyKey key w' = (Ok false, w') /\
                 getFlowIdByIdempotencyKey key w' = (Ok None, w')) /\
    list_ None w' = (Ok [], w') /\
    flows w' = flows w /\ contexts w' = contexts w /\
    histories w' = histories w /\ compensationLists w' = compensationLists w.
Proof.
  eexists. split; [reflexivity|]. cbn.
  split; [done|]. split; [done|]. split.
  { intros key. unfold hasIdempotencyKey, getFlowIdByIdempotencyKey, gets. cbn.
    rewrite lookup_empty. split; [|done].
    rewrite bool_decide_eq_false_2; [done|]. by intros [? ?]. }
  split; [|done].
  reflexivity.
Qed.

End StorageProperties.

(** ** More of the engine: life cycle, execution, compensation, regions,
    start, middlewares, broadcasts *)

Module FlowEngineProperties.
Import StateMachine Storage FlowEngine.
Import Reasoning StateMachineFacts StorageFacts FlowEngineFacts.
Import StateMachineProperties StorageProperties.

Lemma setStatus_same fs : setStatus (status fs) fs = fs.
Proof. by destruct fs. Qed.

Lemma lookup_snoc_at {A} (l : list A) x n : length l = n -> (l ++ [x]) !! n = Some x.
Proof. intros <-. apply lookup_snoc. Qed.

Lemma mapGet_mapSet_ne {V} k k' (v : V) m :
  k' <> k -> mapGet k' (mapSet k v m) = mapGet k' m.
Proof.
  intros Hne. rewrite mapGet_mapSet. destruct (String.eqb_spec k k'); [congruence|done].
Qed.

Lemma mapGet_mapSet_eq {V} k (v : V) m : mapGet k (mapSet k v m) = Some v.
Proof. rewrite mapGet_mapSet. by rewrite String.eqb_refl. Qed.

Ltac len_solve :=
  repeat first [rewrite length_insert | rewrite length_app]; cbn; lia.

(** Lookups in a heap that was extended and updated in place. *)
Ltac list_solve :=
  cbn;
  repeat first
    [ done
    | apply lookup_snoc
    | apply lookup_snoc_at; len_solve
    | rewrite list_lookup_insert_eq by len_solve
    | rewrite list_lookup_insert_ne by lia
    | rewrite lookup_app_l by len_solve
    | rewrite mapGet_mapSet_eq
    | rewrite mapGet_mapSet_ne by done
    | progress (repeat first [rewrite length_insert | rewrite length_app])
    | eassumption
    | lia
    | (f_equal; lia) ].

(** [wstep], with the rule of [Storage.get] on a stored flow. *)
Ltac estep :=
  cbn beta iota;
  lazymatch goal with
  | |- post (Storage.get _) _ _ => eapply post_intro; [eapply get_spec_some; list_solve|]
  | |- post (bind (Storage.get _) _) _ _ =>
      apply post_bind; eapply post_intro; [eapply get_spec_some; list_solve|]
  | |- post (markFailed _ _) _ _ =>
      eapply post_intro; [eapply markFailed_spec; list_solve|]
  | |- post (bind (markFailed _ _) _) _ _ =>
      apply post_bind; eapply post_intro; [eapply markFailed_spec; list_solve|]
  | _ => wstep
  end; cbn beta iota.

Ltac commit_solve :=
  unfold Committed; cbn;
  split; [done|]; split; [list_solve|];
  split; [eexists; split; [cbn; rewrite mapGet_mapSet_eq; reflexivity|];
          repeat first [rewrite length_insert | rewrite length_app]; cbn;
          split; [lia|]; split; [lia|]; list_solve|];
  split; [intros; list_solve|];
  split; [intros; list_solve|done].

Lemma Committed_stored w w1 a fs' :
  Committed w w1 a fs' ->
  (forall id l, mapGet id (states w) = Some l -> is_Some (flows w !! l)) ->
  storedFlow w1 (flowId fs') = Some fs' /\
  (forall id', id' <> flowId fs' -> storedFlow w1 id' = storedFlow w id') /\
  (forall id l, mapGet id (states w1) = Some l -> is_Some (flows w1 !! l)).
Proof.
  intros (-> & Ha & (copy & Hcopy & Hne & Hge & Hfc) & Hothers & Hold & _) Hvalid.
  split. { unfold storedFlow. rewrite Hcopy. done. }
  split.
  { intros id' Hid. unfold storedFlow. rewrite Hothers by done.
    destruct (mapGet id' (states w)) as [l'|] eqn:Hl'; cbn; [|done].
    destruct (Hvalid _ _ Hl') as [x Hx].
    apply Hold. eauto using lookup_lt_Some. }
  intros id l Hl. destruct (decide (id = flowId fs')) as [->|Hid].
  - rewrite Hcopy in Hl. injection Hl as <-. eauto.
  - rewrite Hothers in Hl by done. destruct (Hvalid _ _ Hl) as [x Hx].
    rewrite Hold; eauto using lookup_lt_Some.
Qed.

Lemma storeValid_sound w :
  storeValid w ->
  forall id l, mapGet id (states w) = Some l -> is_Some (flows w !! l).
Proof. intros H id l. by apply storeValid_mapGet. Qed.

Lemma storedFlow_inv w id fs :
  storedFlow w id = Some fs ->
  exists l, mapGet id (states w) = Some l /\ flows w !! l = Some fs.
Proof.
  unfold storedFlow. destruct (mapGet id (states w)) as [l|]; [|done]. cbn. eauto.
Qed.

Lemma Quiet_trans w w1 w2 : Quiet w w1 -> Quiet w1 w2 -> Quiet w w2.
Proof.
  intros (? & ? & ? & ? & ?) (? & ? & ? & ? & ?). repeat split; congruence.
Qed.

Lemma Committed_view w w1 a fs fs' id :
  Committed w w1 a fs' -> Quiet w w1 ->
  storedFlow w id = Some fs -> flowId fs' = id ->
  currentState fs' = currentState fs -> history fs' = history fs ->
  context fs' = context fs ->
  flowView w1 id = (fun v => {| v_currentState := v_currentState v;
                                 v_history := v_history v;
                                 v_context := v_context v;
                                 v_status := status fs' |}) <$> flowView w id.
Proof.
  intros (-> & Ha & (copy & Hcopy & Hne & Hge & Hfc) & Hothers & Hold & _)
         (Hc & Hh & _) Hst Hid Hcur Hhist Hctx.
  unfold flowView, storedFlow in *. rewrite <- Hid, Hcopy. cbn. rewrite Hfc. cbn.
  rewrite Hid, Hc, Hh. destruct (mapGet id (states w)) as [l|]; [|done]. cbn in Hst.
  cbn. rewrite Hst. cbn. rewrite Hhist, Hctx, Hcur.
  destruct (histories w !! history fs); [|done]. cbn.
  destruct (contexts w !! context fs); done.
Qed.

Ltac decide_status H :=
  rewrite ?H;
  first [ rewrite bool_decide_eq_true_2 by done
        | rewrite bool_decide_eq_false_2 by (first [done | congruence]) ];
  cbn [negb].

Section Lifecycle.
Variable config : StateMachineConfig.
Variable middlewares : list Middleware.

Lemma pause_spec id w l fs :
  mapGet id (states w) = Some l -> flows w !! l = Some fs -> status fs = Active ->
  exists a w1,
    pause id w = (Ok a, w1) /\
    Committed w w1 a (setUpdatedAt (clock w) (setStatus Paused fs)) /\ Quiet w w1.
Proof.
  intros Hl Hfs Hst. pose proof (lookup_lt_Some _ _ _ Hfs) as Hlt.
  cut (post (pause id) w (fun r w1 => exists a, r = Ok a /\
         Committed w w1 a (setUpdatedAt (clock w) (setStatus Paused fs)) /\ Quiet w w1)).
  { intros H. apply post_run in H as (r & w1 & E & a & -> & ?). eauto. }
  unfold pause. estep. estep. estep. decide_status Hst.
  do 9 estep.
  eexists. split; [done|]. split; [commit_solve|done].
Qed.

Lemma resume_spec id w l fs :
  mapGet id (states w) = Some l -> flows w !! l = Some fs -> status fs = Paused ->
  exists a w1,
    resume id w = (Ok a, w1) /\
    Committed w w1 a (setUpdatedAt (clock w) (setStatus Active fs)) /\ Quiet w w1.
Proof.
  intros Hl Hfs Hst. pose proof (lookup_lt_Some _ _ _ Hfs) as Hlt.
  cut (post (resume id) w (fun r w1 => exists a, r = Ok a /\
         Committed w w1 a (setUpdatedAt (clock w) (setStatus Active fs)) /\ Quiet w w1)).
  { intros H. apply post_run in H as (r & w1 & E & a & -> & ?). eauto. }
  unfold resume. estep. estep. estep. decide_status Hst.
  do 9 estep.
  eexists. split; [done|]. split; [commit_solve|done].
Qed.

Lemma cancel_plain_spec id w l fs :
  mapGet id (states w) = Some l -> flows w !! l = Some fs -> status fs <> Completed ->
  exists a w1,
    cancel id false w = (Ok a, w1) /\
    Committed w w1 a
      (setUpdatedAt (clock w)
         (setError (Some {| e_message := "Flow cancelled by user";
                            e_state := currentState fs;
                            e_timestamp := clock w |})
            (setStatus Failed fs))) /\
    Quiet w w1.
Proof.
  intros Hl Hfs Hst. pose proof (lookup_lt_Some _ _ _ Hfs) as Hlt.
  cut (post (cancel id false) w (fun r w1 => exists a, r = Ok a /\
         Committed w w1 a
           (setUpdatedAt (clock w)
              (setError (Some {| e_message := "Flow cancelled by user";
                                 e_state := currentState fs;
                                 e_timestamp := clock w |})
                 (setStatus Failed fs))) /\
         Quiet w w1)).
  { intros H. apply post_run in H as (r & w1 & E & a & -> & ?). eauto. }
  unfold cancel. estep. estep. estep. decide_status Hst.
  do 8 estep.
  eexists. split; [done|]. split; [commit_solve|done].
Qed.

Lemma execute_direct id options w :
  o_idempotencyKey options = None ->
  execute config [] id options w = executeCore config id options w.
Proof. intros H. unfold execute, idempotencyGuard. by rewrite H. Qed.

(** X11. [pause] then [resume] on an active flow: both return, the flow
    is paused in between (an [execute] then raises "Flow is not active.
    Current status: paused" without changing it) and afterwards the flow is
    the one it was but for [updatedAt]; the other flows, the contexts,
    histories, trace and keys are untouched. *)
Theorem pause_resume_round_trip id w fs :
  storedFlow w id = Some fs -> flowId fs = id -> status fs = Active ->
  storeValid w ->
  exists a w1 b w2,
    pause id w = (Ok a, w1) /\
    storedFlow w1 id = Some (setUpdatedAt (clock w) (setStatus Paused fs)) /\
    (forall options, o_idempotencyKey options = None ->
       exists w', execute config [] id options w1 =
                    (Throw "Flow is not active. Current status: paused", w') /\
                  storedFlow w' id = storedFlow w1 id) /\
    resume id w1 = (Ok b, w2) /\
    storedFlow w2 id = Some (setUpdatedAt (clock w) fs) /\
    flowView w2 id = flowView w id /\
    (forall id', id' <> id -> storedFlow w2 id' = storedFlow w id') /\
    Quiet w w2 /\ idempotencyKeys w2 = idempotencyKeys w.
Proof.
  intros Hst Hid Hactive Hvalid.
  destruct (storedFlow_inv _ _ _ Hst) as (l & Hl & Hfs).
  destruct (pause_spec id w l fs Hl Hfs Hactive) as (a & w1 & E1 & C1 & Q1).
  destruct (Committed_stored _ _ _ _ C1 (storeValid_sound w Hvalid)) as (S1 & O1 & V1).
  cbn in S1, O1. rewrite Hid in S1, O1.
  destruct (storedFlow_inv _ _ _ S1) as (l1 & Hl1 & Hfs1).
  destruct (resume_spec id w1 l1 _ Hl1 Hfs1 eq_refl) as (b & w2 & E2 & C2 & Q2).
  destruct (Committed_stored _ _ _ _ C2 V1) as (S2 & O2 & V2).
  cbn in S2, O2. rewrite Hid in S2, O2.
  assert (Hsame : setUpdatedAt (clock w1) (setStatus Active
                    (setUpdatedAt (clock w) (setStatus Paused fs)))
                  = setUpdatedAt (clock w) fs).
  { destruct Q1 as (_ & _ & _ & _ & ->). destruct fs; cbn in *. by subst. }
  exists a, w1, b, w2. split; [done|]. split; [done|]. split.
  { intros options Hkey. eexists. split.
    - rewrite execute_direct by done.
      rewrite (executeCore_notActive config id options l1 _ w1 Hl1 Hfs1)
        by (cbn; discriminate).
      reflexivity.
    - unfold storedFlow. cbn. rewrite Hl1. cbn.
      rewrite lookup_app_l; [done|]. eauto using lookup_lt_Some. }
  split; [done|]. split; [by rewrite <- Hsame|]. split.
  { rewrite (Committed_view w1 w2 b _ _ id C2 Q2 S1) by done.
    rewrite (Committed_view w w1 a _ _ id C1 Q1 Hst) by done.
    cbn. destruct (flowView w id) as [v|] eqn:Hv; [|done]. cbn. f_equal.
    unfold flowView in Hv. rewrite Hst in Hv. cbn in Hv.
    destruct (histories w !! history fs); [|done]. cbn in Hv.
    destruct (contexts w !! context fs); [|done]. injection Hv as <-. cbn.
    by rewrite Hactive. }
  split. { intros id' Hne. rewrite O2, O1; done. }
  split; [by eapply Quiet_trans|].
  destruct C1 as (_ & _ & _ & _ & _ & K1). destruct C2 as (_ & _ & _ & _ & _ & K2).
  congruence.
Qed.

(** X12. Status guards.  On a stored flow, [pause] raises unless the status
    is active, [resume] unless it is paused, [cancel] when it is completed,
    [execute] (no key, no middleware) unless it is active, each with the
    message of the source naming the current status.  All that has happened
    then is that a snapshot of the flow was read: the store and the keys are
    as before. *)
Theorem lifecycle_guards id w l fs :
  mapGet id (states w) = Some l -> flows w !! l = Some fs ->
  let w' := setFlows (flows w ++ [fs]) w in
  (status fs <> Active ->
   pause id w =
     (Throw ("Cannot pause flow. Current status: " +:+ statusName (status fs)), w')) /\
  (status fs <> Paused ->
   resume id w =
     (Throw ("Cannot resume flow. Current status: " +:+ statusName (status fs)), w')) /\
  (status fs = Completed ->
   forall triggerCompensation,
     cancel id triggerCompensation w = (Throw "Cannot cancel completed flow", w')) /\
  (status fs <> Active ->
   forall options, o_idempotencyKey options = None ->
     execute config [] id options w =
       (Throw ("Flow is not active. Current status: " +:+ statusName (status fs)), w')) /\
  (forall id', storedFlow w' id' = storedFlow w id' \/ storedFlow w id' = None) /\
  storedFlow w' id = Some fs /\
  states w' = states w /\ idempotencyKeys w' = idempotencyKeys w /\ Quiet w w'.
Proof.
  intros Hl Hfs w'. pose proof (lookup_lt_Some _ _ _ Hfs) as Hlt.
  split; [|split; [|split; [|split]]].
  - intros Hst. unfold pause.
    erewrite bind_ok; [|by eapply get_spec_some]. cbn beta iota.
    erewrite bind_ok; [|apply load_spec; cbn; apply lookup_snoc].
    by rewrite bool_decide_eq_false_2.
  - intros Hst. unfold resume.
    erewrite bind_ok; [|by eapply get_spec_some]. cbn beta iota.
    erewrite bind_ok; [|apply load_spec; cbn; apply lookup_snoc].
    by rewrite bool_decide_eq_false_2.
  - intros Hst b. unfold cancel.
    erewrite bind_ok; [|by eapply get_spec_some]. cbn beta iota.
    erewrite bind_ok; [|apply load_spec; cbn; apply lookup_snoc].
    by rewrite bool_decide_eq_true_2.
  - intros Hst options Hkey. rewrite execute_direct by done.
    by eapply executeCore_notActive.
  - split.
    { intros id'. unfold storedFlow, w'. cbn.
      destruct (mapGet id' (states w)) as [l'|]; cbn; [|by right].
      destruct (flows w !! l') as [x|] eqn:Hx; [|by right].
      left. rewrite lookup_app_l; [done|]. eauto using lookup_lt_Some. }
    split; [|done]. unfold storedFlow, w'. cbn. rewrite Hl. cbn.
    by rewrite lookup_app_l.
Qed.

(** X13. On an id that is not stored, [pause], [resume], [cancel],
    [recordCompensation], [getPossibleTransitions] and [execute] (without
    key) raise "Flow with ID ... not found" and change nothing. *)
Theorem missing_flow_not_found id w :
  mapGet id (states w) = None ->
  let message := "Flow with ID " +:+ dq +:+ id +:+ dq +:+ " not found" in
  pause id w = (Throw message, w) /\
  resume id w = (Throw message, w) /\
  (forall triggerCompensation, cancel id triggerCompensation w = (Throw message, w)) /\
  (forall action description,
     recordCompensation id action description w = (Throw message, w)) /\
  getPossibleTransitions config id w = (Throw message, w) /\
  (forall options, o_idempotencyKey options = None ->
     execute config middlewares id options w = (Throw message, w)) /\
  Storage.get id w = (Ok None, w) /\
  exists_ id w = (Ok false, w).
Proof.
  intros Hnone message.
  pose proof (get_spec_none id w Hnone) as Hget.
  split; [|split; [|split; [|split; [|split; [|split; [|split]]]]]].
  - unfold pause. erewrite bind_ok; [|exact Hget]. reflexivity.
  - unfold resume. erewrite bind_ok; [|exact Hget]. reflexivity.
  - intros b. unfold cancel. erewrite bind_ok; [|exact Hget]. reflexivity.
  - intros action description. unfold recordCompensation.
    erewrite bind_ok; [|exact Hget]. reflexivity.
  - unfold getPossibleTransitions. erewrite bind_ok; [|exact Hget]. reflexivity.
  - intros options Hkey. unfold execute, idempotencyGuard. rewrite Hkey.
    erewrite bind_ok; [|reflexivity]. cbn beta iota.
    destruct (0 <? length middlewares)%nat.
    + by apply executeWithMiddleware_notFound.
    + by apply executeCore_notFound.
  - done.
  - unfold exists_, gets, mapHas. by rewrite Hnone.
Qed.

(** X14. [cancel] without compensation, on a flow that is not completed:
    the flow is stored as failed with the error "Flow cancelled by user" at
    its current state; no compensation is invoked even when some are
    recorded (the trace and the contexts are unchanged); the other flows are
    untouched; a later [execute] raises "Flow is not active. Current status:
    failed". *)
Theorem cancel_marks_failed id w fs :
  storedFlow w id = Some fs -> flowId fs = id -> status fs <> Completed ->
  storeValid w ->
  exists a w1,
    cancel id false w = (Ok a, w1) /\
    storedFlow w1 id =
      Some (setUpdatedAt (clock w)
              (setError (Some {| e_message := "Flow cancelled by user";
                                 e_state := currentState fs;
                                 e_timestamp := clock w |})
                 (setStatus Failed fs))) /\
    flows w1 !! a = storedFlow w1 id /\
    (forall id', id' <> id -> storedFlow w1 id' = storedFlow w id') /\
    Quiet w w1 /\ idempotencyKeys w1 = idempotencyKeys w /\
    (forall options, o_idempotencyKey options = None ->
       exists w2, execute config [] id options w1 =
                    (Throw "Flow is not active. Current status: failed", w2)).
Proof.
  intros Hst Hid Hnc Hvalid.
  destruct (storedFlow_inv _ _ _ Hst) as (l & Hl & Hfs).
  destruct (cancel_plain_spec id w l fs Hl Hfs Hnc) as (a & w1 & E1 & C1 & Q1).
  destruct (Committed_stored _ _ _ _ C1 (storeValid_sound w Hvalid)) as (S1 & O1 & V1).
  cbn in S1, O1. rewrite Hid in S1, O1.
  exists a, w1. split; [done|]. split; [done|]. split.
  { rewrite S1. by destruct C1 as (_ & ? & _). }
  split; [done|]. split; [done|]. split.
  { by destruct C1 as (_ & _ & _ & _ & _ & K1). }
  intros options Hkey. destruct (storedFlow_inv _ _ _ S1) as (l1 & Hl1 & Hfs1).
  eexists. rewrite execute_direct by done.
  rewrite (executeCore_notActive config id options l1 _ w1 Hl1 Hfs1)
    by (cbn; discriminate).
  reflexivity.
Qed.

End Lifecycle.

Lemma compensationsOf_spec fs w recorded :
  recordedOn w fs recorded -> compensationsOf fs w = (Ok recorded, w).
Proof.
  unfold recordedOn, compensationsOf. destruct (compensations fs).
  - intros H. by apply load_spec.
  - by intros ->.
Qed.

(** What [compensate] leaves behind. *)
Lemma compensate_post l reason w fs ctx recorded :
  flows w !! l = Some fs ->
  contexts w !! context fs = Some ctx ->
  recordedOn w fs recorded ->
  post (compensate l reason) w (fun r w' =>
    r = Ok (negb (length recorded =? 0)%nat) /\
    flows w' !! l =
      Some (setError
              (Some {| e_message := if (length recorded =? 0)%nat then reason
                                    else reason +:+ " (compensated)";
                       e_state := currentState fs;
                       e_timestamp := clock w |})
              (setStatus Failed fs)) /\
    (length (flows w) <= length (flows w'))%nat /\
    (forall i, i <> l -> (i < length (flows w))%nat -> flows w' !! i = flows w !! i) /\
    (forall id', id' <> flowId fs -> mapGet id' (states w') = mapGet id' (states w)) /\
    idempotencyKeys w' = idempotencyKeys w /\
    histories w' = histories w /\
    compensationLists w' = compensationLists w /\
    clock w' = clock w /\
    contexts w' =
      <[context fs := foldl (fun c r => (comp_action r c).1) ctx (rev recorded)]>
        (contexts w) /\
    exists tr, trace w' = trace w ++ tr /\ compensatedIn tr = rev recorded /\
               (recorded = [] -> tr = [])).
Proof.
  intros Hl Hc Hrec. pose proof (lookup_lt_Some _ _ _ Hl) as Hlt.
  unfold compensate. estep. estep. estep.
  eapply post_intro; [by apply compensationsOf_spec|]. cbn beta iota.
  destruct recorded as [|r0 rest]; cbn [length Nat.eqb negb].
  - estep. estep.
    split; [done|]. cbn. split; [list_solve|]. split; [list_solve|].
    split. { intros. list_solve. }
    do 5 (split; [done|]). split. { by rewrite list_insert_id. }
    exists []. by rewrite app_nil_r.
  - estep. estep. estep. estep. estep. estep. estep. estep.
    eapply post_intro.
    { apply (compensationsOf_spec (setStatus Compensating fs)). exact Hrec. }
    cbn beta iota. estep.
    eapply post_mono.
    { eapply (compensation_loop l (setStatus Compensating fs)); [list_solve|cbn; exact Hc]. }
    cbn beta. intros r w' (-> & F1 & F2 & F3 & F4 & F5 & F6 & F7 & F8 & tr & F9 & F10).
    cbn in F1, F2, F3, F4, F5, F6, F7, F8, F9.
    wstep. eapply post_intro.
    { apply (markFailed_spec _ _ (setStatus Compensating fs)). rewrite F1. list_solve. }
    estep.
    split; [done|]. cbn. rewrite F1, F2, F3, F4, F5, F6, F8, F9.
    split; [list_solve|]. split; [list_solve|].
    split. { intros. list_solve. }
    split. { intros. list_solve. }
    do 4 (split; [done|]). split; [done|].
    exists tr. split; [done|]. split; [exact F10|]. done.
Qed.

Section Core.
Variable config : StateMachineConfig.

Lemma isFlowComplete_spec l fs w :
  flows w !! l = Some fs ->
  isFlowComplete config l w = (Ok (allFinal config (currentState fs)), w).
Proof.
  intros Hl. unfold isFlowComplete. erewrite bind_ok; [|by apply load_spec].
  unfold allFinal. destruct (currentState fs); cbn; [|done].
  by rewrite andb_true_r.
Qed.

Lemma mergeData_spec options c ctx w :
  contexts w !! c = Some ctx ->
  match o_data options with
  | Some data => update contextsH c (fun ctx0 => data ∪ ctx0)
  | None => ret tt
  end w = (Ok tt, setContexts (<[c := withData options ctx]> (contexts w)) w).
Proof.
  intros Hc. unfold withData. destruct (o_data options) as [data|].
  - by apply update_spec.
  - rewrite list_insert_id by done. by destruct w.
Qed.

Lemma executeCore_single_success id options w l fs cs ctx h res s' :
  mapGet id (states w) = Some l -> flows w !! l = Some fs ->
  status fs = Active -> currentState fs = Single cs ->
  contexts w !! context fs = Some ctx -> histories w !! history fs = Some h ->
  executeTransition config cs (o_event options)
    {| sm_context := withData options ctx; sm_clock := clock w; sm_trace := trace w |}
    = (Ok res, s') ->
  success res = true ->
  let fs' :=
    (if allFinal config (toState res) then setStatus Completed else fun f => f)
      (setCurrentState (toState res) (setUpdatedAt (sm_clock s') fs)) in
  exists a w1,
    executeCore config id options w =
      (Ok {| res_success := true; res_state := a; res_transition := res;
             res_compensated := Some false |}, w1) /\
    Committed w w1 a fs' /\
    histories w1 =
      <[history fs := h ++ [{| h_from := fromState res; h_to := toState res;
                               h_timestamp := sm_clock s';
                               h_event := Some (o_event options) |}]]> (histories w) /\
    contexts w1 = <[context fs := sm_context s']> (contexts w) /\
    trace w1 = sm_trace s' /\ clock w1 = sm_clock s' /\
    compensationLists w1 = compensationLists w.
Proof.
  intros Hl Hfs Hst Hcur Hctx Hh Hrun Hok fs'.
  pose proof (lookup_lt_Some _ _ _ Hfs) as Hlt.
  pose proof (lookup_lt_Some _ _ _ Hctx) as Hltc.
  pose proof (lookup_lt_Some _ _ _ Hh) as Hlth.
  cut (post (executeCore config id options) w (fun r w1 => exists a,
    r = Ok {| res_success := true; res_state := a; res_transition := res;
              res_compensated := Some false |} /\
    Committed w w1 a fs' /\
    histories w1 =
      <[history fs := h ++ [{| h_from := fromState res; h_to := toState res;
                               h_timestamp := sm_clock s';
                               h_event := Some (o_event options) |}]]> (histories w) /\
    contexts w1 = <[context fs := sm_context s']> (contexts w) /\
    trace w1 = sm_trace s' /\ clock w1 = sm_clock s' /\
    compensationLists w1 = compensationLists w)).
  { intros H. apply post_run in H as (r & w1 & E & a & -> & ?). eauto. }
  unfold executeCore. estep. estep. estep. decide_status Hst.
  estep. eapply post_intro; [by apply mergeData_spec|]. cbn beta iota.
  estep. estep. unfold coreTry. estep. estep. rewrite Hcur. estep.
  eapply post_onContext; [list_solve|]. cbn.
  eapply post_intro; [exact Hrun|]. cbn beta iota.
  estep. estep. estep. estep. rewrite Hok. cbn beta iota.
  estep. estep. estep. estep. estep. estep. estep.
  eapply post_intro; [apply isFlowComplete_spec; list_solve|]. cbn beta iota.
  cbn [currentState setCurrentState].
  estep.
  assert (Hfin : forall w0 : World,
    flows w0 !! length (flows w) =
      Some (setCurrentState (toState res) (setUpdatedAt (sm_clock s') fs)) ->
    (if allFinal config (toState res)
     then update flowsH (length (flows w)) (setStatus Completed)
     else ret tt) w0 = (Ok tt, setFlows (<[length (flows w) := fs']> (flows w0)) w0)).
  { intros w0 H0. unfold fs'. destruct (allFinal config (toState res)).
    - by apply update_spec.
    - rewrite list_insert_id by done. by destruct w0. }
  eapply post_intro; [apply Hfin; list_solve|]. cbn beta iota.
  estep. estep. estep. estep.
  eexists. split. { cbn. by rewrite Hok. }
  clearbody fs'. split; [commit_solve|]. cbn.
  split; [done|]. split; [by rewrite list_insert_insert_eq|done].
Qed.

Lemma executeCore_single_failure id options w l fs cs ctx recorded res s' :
  mapGet id (states w) = Some l -> flows w !! l = Some fs ->
  status fs = Active -> currentState fs = Single cs ->
  contexts w !! context fs = Some ctx -> recordedOn w fs recorded ->
  executeTransition config cs (o_event options)
    {| sm_context := withData options ctx; sm_clock := clock w; sm_trace := trace w |}
    = (Ok res, s') ->
  success res = false ->
  let message := strOr (StateMachine.error res) "Transition failed" in
  let fs' :=
    setError
      (Some {| e_message := if (length recorded =? 0)%nat then message
                            else message +:+ " (compensated)";
               e_state := Single cs;
               e_timestamp := sm_clock s' |})
      (setStatus Failed (setUpdatedAt (sm_clock s') fs)) in
  exists a w1 tr,
    executeCore config id options w =
      (Ok {| res_success := false; res_state := a;
             res_transition := {| success := false; fromState := Single cs;
                                  toState := Single cs; event := o_event options;
                                  StateMachine.error := Some message |};
             res_compensated := Some (negb (length recorded =? 0)%nat) |}, w1) /\
    Committed w w1 a fs' /\
    histories w1 = histories w /\
    contexts w1 =
      <[context fs := foldl (fun c r => (comp_action r c).1) (sm_context s')
                        (rev recorded)]> (contexts w) /\
    trace w1 = sm_trace s' ++ tr /\ compensatedIn tr = rev recorded /\
    (recorded = [] -> tr = []) /\
    clock w1 = sm_clock s' /\
    compensationLists w1 = compensationLists w.
Proof.
  intros Hl Hfs Hst Hcur Hctx Hrec Hrun Hfail message fs'.
  pose proof (lookup_lt_Some _ _ _ Hfs) as Hlt.
  pose proof (lookup_lt_Some _ _ _ Hctx) as Hltc.
  cut (post (executeCore config id options) w (fun r w1 => exists a tr,
    r = Ok {| res_success := false; res_state := a;
              res_transition := {| success := false; fromState := Single cs;
                                   toState := Single cs; event := o_event options;
                                   StateMachine.error := Some message |};
              res_compensated := Some (negb (length recorded =? 0)%nat) |} /\
    Committed w w1 a fs' /\
    histories w1 = histories w /\
    contexts w1 =
      <[context fs := foldl (fun c r => (comp_action r c).1) (sm_context s')
                        (rev recorded)]> (contexts w) /\
    trace w1 = sm_trace s' ++ tr /\ compensatedIn tr = rev recorded /\
    (recorded = [] -> tr = []) /\
    clock w1 = sm_clock s' /\
    compensationLists w1 = compensationLists w)).
  { intros H. apply post_run in H as (r & w1 & E & a & tr & -> & ?). eauto 10. }
  unfold executeCore. estep. estep. estep. decide_status Hst.
  estep. eapply post_intro; [by apply mergeData_spec|]. cbn beta iota.
  estep. estep. unfold coreTry. estep. estep. rewrite Hcur. estep.
  eapply post_onContext; [list_solve|]. cbn.
  eapply post_intro; [exact Hrun|]. cbn beta iota.
  estep. estep. estep. estep. rewrite Hfail. cbn beta iota.
  estep. fold message. unfold coreCatch. estep.
  eapply post_mono.
  { eapply (compensate_post _ _ _ (setUpdatedAt (sm_clock s') fs) (sm_context s') recorded).
    - list_solve.
    - list_solve.
    - exact Hrec. }
  cbn beta.
  intros r w' (-> & G1 & G2 & G3 & G4 & G5 & G6 & G7 & G8 & G9 & tr & G10 & G11 & G12).
  cbn in G1, G2, G3, G4, G5, G6, G7, G8, G9, G10.
  rewrite Hcur in G1. fold fs' in G1.
  pose proof (lookup_lt_Some _ _ _ G1) as Hlt'.
  estep. estep. estep. estep. estep. estep.
  exists (length (flows w)), tr. cbn. split. { by rewrite Hcur. }
  assert (Hid' : flowId fs' = flowId fs) by done.
  clearbody fs'. split.
  { unfold Committed. cbn. rewrite Hid'. split; [done|]. split; [list_solve|]. split.
    { exists (length (flows w')). split; [list_solve|]. split; [lia|]. split; [lia|].
      list_solve. }
    split. { intros id' Hne. rewrite mapGet_mapSet_ne by done. by apply G4. }
    split; [|done]. intros i Hi. rewrite lookup_app_l by lia.
    rewrite G3; [list_solve|lia|len_solve]. }
  split; [done|]. split. { rewrite G9. by rewrite !list_insert_insert_eq. }
  done.
Qed.

Lemma Committed_flowView w w1 a fs' hist ctx' :
  Committed w w1 a fs' ->
  histories w1 !! history fs' = Some hist -> contexts w1 !! context fs' = Some ctx' ->
  flowView w1 (flowId fs') =
    Some {| v_currentState := currentState fs'; v_history := hist;
            v_context := ctx'; v_status := status fs' |}.
Proof.
  intros (-> & Ha & (copy & Hcopy & Hne & Hge & Hfc) & _) Hh Hc.
  unfold flowView, storedFlow. rewrite Hcopy. cbn. rewrite Hfc. cbn.
  rewrite Hh. cbn. by rewrite Hc.
Qed.

(** X15. [execute] (no key, no middleware) on an active flow in a single
    state, when the transition succeeds: the data of the options is written
    over the context first; the result carries the transition and
    [compensated = false]; the stored flow moves to the target state, gets
    exactly one new history entry (from, to, event, time) at the end, keeps
    the context as the hooks left it, and is completed exactly when the
    target is final; the other flows, the keys and the recorded
    compensations are untouched. *)
Theorem execute_success_commits id options w fs cs ctx h res s' :
  storedFlow w id = Some fs -> flowId fs = id ->
  status fs = Active -> currentState fs = Single cs ->
  contexts w !! context fs = Some ctx -> histories w !! history fs = Some h ->
  o_idempotencyKey options = None -> storeValid w ->
  executeTransition config cs (o_event options)
    {| sm_context := withData options ctx; sm_clock := clock w; sm_trace := trace w |}
    = (Ok res, s') ->
  success res = true ->
  exists a w1,
    execute config [] id options w =
      (Ok {| res_success := true; res_state := a; res_transition := res;
             res_compensated := Some false |}, w1) /\
    flowView w1 id =
      Some {| v_currentState := toState res;
              v_history := h ++ [{| h_from := Single cs; h_to := toState res;
                                    h_timestamp := sm_clock s';
                                    h_event := Some (o_event options) |}];
              v_context := sm_context s';
              v_status := if allFinal config (toState res) then Completed else Active |} /\
    flows w1 !! a = storedFlow w1 id /\
    (forall id', id' <> id -> storedFlow w1 id' = storedFlow w id') /\
    trace w1 = sm_trace s' /\ clock w1 = sm_clock s' /\
    idempotencyKeys w1 = idempotencyKeys w /\
    compensationLists w1 = compensationLists w.
Proof.
  intros Hst Hid Hactive Hcur Hctx Hh Hkey Hvalid Hrun Hok.
  destruct (storedFlow_inv _ _ _ Hst) as (l & Hl & Hfs).
  destruct (executeCore_single_success id options w l fs cs ctx h res s'
              Hl Hfs Hactive Hcur Hctx Hh Hrun Hok)
    as (a & w1 & E & C & Hhist & Hctxs & Htr & Hclk & Hcomp).
  set (fs' := (if allFinal config (toState res) then setStatus Completed
               else fun f => f)
                (setCurrentState (toState res) (setUpdatedAt (sm_clock s') fs))) in *.
  assert (Hfields : flowId fs' = id /\ currentState fs' = toState res /\
                    history fs' = history fs /\ context fs' = context fs /\
                    status fs' = if allFinal config (toState res) then Completed else Active).
  { unfold fs'. destruct (allFinal config (toState res)); cbn; by rewrite ?Hactive. }
  destruct Hfields as (Hid' & Hcur' & Hh' & Hc' & Hs').
  clearbody fs'.
  destruct (Committed_stored _ _ _ _ C (storeValid_sound w Hvalid)) as (S1 & O1 & _).
  rewrite Hid' in S1, O1.
  assert (Hfrom : fromState res = Single cs).
  { pose proof (executeTransition_shape config cs (o_event options)
                  {| sm_context := withData options ctx; sm_clock := clock w;
                     sm_trace := trace w |}) as Hshape.
    unfold post in Hshape. rewrite Hrun in Hshape. cbn in Hshape.
    destruct Hshape as (res0 & [= <-] & Hf & _). done. }
  exists a, w1. split. { by rewrite execute_direct. }
  split.
  { rewrite <- Hid'.
    rewrite (Committed_flowView w w1 a fs'
               (h ++ [{| h_from := fromState res; h_to := toState res;
                         h_timestamp := sm_clock s';
                         h_event := Some (o_event options) |}])
               (sm_context s') C).
    - by rewrite Hcur', Hs', <- Hfrom.
    - rewrite Hh', Hhist. apply list_lookup_insert_eq. eauto using lookup_lt_Some.
    - rewrite Hc', Hctxs. apply list_lookup_insert_eq. eauto using lookup_lt_Some. }
  split. { rewrite S1. by destruct C as (_ & ? & _). }
  split; [done|]. split; [done|]. split; [done|]. split; [|done].
  by destruct C as (_ & _ & _ & _ & _ & ?).
Qed.

(** X16. [execute] (no key, no middleware) on an active flow in a single
    state, when the transition fails: the result is a failure from the
    current state to itself with the error message (or "Transition failed"
    when that is empty); the recorded compensations are run in reverse
    order, and [compensated] tells whether there were any; the stored flow
    stays in its state with its history unchanged and is failed, its error
    message ending in " (compensated)" when compensations ran; every later
    [execute] raises "Flow is not active. Current status: failed". *)
Theorem execute_failure_fails_flow id options w fs cs ctx h recorded res s' :
  storedFlow w id = Some fs -> flowId fs = id ->
  status fs = Active -> currentState fs = Single cs ->
  contexts w !! context fs = Some ctx -> histories w !! history fs = Some h ->
  recordedOn w fs recorded ->
  o_idempotencyKey options = None -> storeValid w ->
  executeTransition config cs (o_event options)
    {| sm_context := withData options ctx; sm_clock := clock w; sm_trace := trace w |}
    = (Ok res, s') ->
  success res = false ->
  let message := strOr (StateMachine.error res) "Transition failed" in
  exists a w1 tr,
    execute config [] id options w =
      (Ok {| res_success := false; res_state := a;
             res_transition := {| success := false; fromState := Single cs;
                                  toState := Single cs; event := o_event options;
                                  StateMachine.error := Some message |};
             res_compensated := Some (negb (length recorded =? 0)%nat) |}, w1) /\
    storedFlow w1 id =
      Some (setError
              (Some {| e_message := if (length recorded =? 0)%nat then message
                                    else message +:+ " (compensated)";
                       e_state := Single cs;
                       e_timestamp := sm_clock s' |})
              (setStatus Failed (setUpdatedAt (sm_clock s') fs))) /\
    flowView w1 id =
      Some {| v_currentState := Single cs;
              v_history := h;
              v_context := foldl (fun c r => (comp_action r c).1) (sm_context s')
                             (rev recorded);
              v_status := Failed |} /\
    flows w1 !! a = storedFlow w1 id /\
    trace w1 = sm_trace s' ++ tr /\ compensatedIn tr = rev recorded /\
    (recorded = [] -> tr = []) /\
    (forall id', id' <> id -> storedFlow w1 id' = storedFlow w id') /\
    idempotencyKeys w1 = idempotencyKeys w /\
    compensationLists w1 = compensationLists w /\
    (forall options', o_idempotencyKey options' = None ->
       exists w2, execute config [] id options' w1 =
                    (Throw "Flow is not active. Current status: failed", w2)).
Proof.
  intros Hst Hid Hactive Hcur Hctx Hh Hrec Hkey Hvalid Hrun Hfail message.
  destruct (storedFlow_inv _ _ _ Hst) as (l & Hl & Hfs).
  destruct (executeCore_single_failure id options w l fs cs ctx recorded res s'
              Hl Hfs Hactive Hcur Hctx Hrec Hrun Hfail)
    as (a & w1 & tr & E & C & Hhist & Hctxs & Htr & Hcomp & Hnil & Hclk & Hcl).
  fold message in E, C.
  set (fs' := setError _ _) in C |- *.
  destruct (Committed_stored _ _ _ _ C (storeValid_sound w Hvalid)) as (S1 & O1 & _).
  cbn in S1, O1. rewrite Hid in S1, O1.
  exists a, w1, tr. split. { by rewrite execute_direct. }
  split; [done|]. split.
  { rewrite <- Hid. change (flowId fs) with (flowId fs').
    rewrite (Committed_flowView w w1 a fs' h
               (foldl (fun c r => (comp_action r c).1) (sm_context s') (rev recorded)) C).
    - cbn. by rewrite Hcur.
    - cbn. by rewrite Hhist.
    - cbn. rewrite Hctxs. apply list_lookup_insert_eq. eauto using lookup_lt_Some. }
  split. { rewrite S1. by destruct C as (_ & ? & _). }
  do 4 (split; [done|]). split. { by destruct C as (_ & _ & _ & _ & _ & ?). }
  split; [done|].
  intros options' Hkey'. destruct (storedFlow_inv _ _ _ S1) as (l1 & Hl1 & Hfs1).
  eexists. rewrite execute_direct by done.
  rewrite (executeCore_notActive config id options' l1 _ w1 Hl1 Hfs1)
    by (cbn; discriminate).
  reflexivity.
Qed.

End Core.

Section Saga.
Variable config : StateMachineConfig.

Lemma cancel_compensating_spec id w l fs ctx recorded :
  mapGet id (states w) = Some l -> flows w !! l = Some fs ->
  status fs <> Completed ->
  contexts w !! context fs = Some ctx -> recordedOn w fs recorded ->
  let fs' :=
    setUpdatedAt (clock w)
      (setError
         (Some {| e_message := if (length recorded =? 0)%nat
                               then "Flow cancelled by user"
                               else "Flow cancelled by user (compensated)";
                  e_state := currentState fs;
                  e_timestamp := clock w |})
         (setStatus Failed fs)) in
  exists a w1 tr,
    cancel id true w = (Ok a, w1) /\
    Committed w w1 a fs' /\
    histories w1 = histories w /\
    contexts w1 =
      <[context fs := foldl (fun c r => (comp_action r c).1) ctx (rev recorded)]>
        (contexts w) /\
    trace w1 = trace w ++ tr /\ compensatedIn tr = rev recorded /\
    (recorded = [] -> tr = []) /\
    clock w1 = clock w /\
    compensationLists w1 = compensationLists w.
Proof.
  intros Hl Hfs Hst Hctx Hrec fs'.
  pose proof (lookup_lt_Some _ _ _ Hfs) as Hlt.
  pose proof (lookup_lt_Some _ _ _ Hctx) as Hltc.
  cut (post (cancel id true) w (fun r w1 => exists a tr,
    r = Ok a /\
    Committed w w1 a fs' /\
    histories w1 = histories w /\
    contexts w1 =
      <[context fs := foldl (fun c r => (comp_action r c).1) ctx (rev recorded)]>
        (contexts w) /\
    trace w1 = trace w ++ tr /\ compensatedIn tr = rev recorded /\
    (recorded = [] -> tr = []) /\
    clock w1 = clock w /\
    compensationLists w1 = compensationLists w)).
  { intros H. apply post_run in H as (r & w1 & E & a & tr & -> & ?). eauto 10. }
  unfold cancel. estep. estep. estep. decide_status Hst.
  cbn beta iota. estep. estep.
  eapply post_mono.
  { eapply (compensate_post _ _ _ fs ctx recorded); [list_solve|list_solve|exact Hrec]. }
  cbn beta.
  intros r w' (-> & G1 & G2 & G3 & G4 & G5 & G6 & G7 & G8 & G9 & tr & G10 & G11 & G12).
  cbn in G1, G2, G3, G4, G5, G6, G7, G8, G9, G10.
  pose proof (lookup_lt_Some _ _ _ G1) as Hlt'.
  estep. estep. estep. rewrite G8. estep. estep. estep. estep.
  exists (length (flows w)), tr. split; [done|].
  assert (E' : (if (length recorded =? 0)%nat then "Flow cancelled by user"
                else "Flow cancelled by user" +:+ " (compensated)")
               = (if (length recorded =? 0)%nat then "Flow cancelled by user"
                  else "Flow cancelled by user (compensated)")) by done.
  rewrite E' in *. fold fs'.
  assert (Hid' : flowId fs' = flowId fs) by done.
  clearbody fs'. split.
  { unfold Committed. cbn. rewrite ?Hid'. split; [done|]. split; [list_solve|]. split.
    { exists (length (<[length (flows w) := fs']> (flows w'))).
      split; [list_solve|]. rewrite length_insert. split; [lia|]. split; [lia|].
      list_solve. }
    split. { intros id' Hne. rewrite mapGet_mapSet_ne by done. by apply G4. }
    split; [|done]. intros i Hi. rewrite lookup_app_l by len_solve.
    rewrite list_lookup_insert_ne by lia.
    rewrite G3; [list_solve|lia|len_solve]. }
  cbn. done.
Qed.

(** X17. [cancel] with compensation, on a flow that is not completed
    (a flow that has already failed included): the recorded compensations
    are invoked in reverse order on the flow's context, and the flow is
    stored as failed with the error "Flow cancelled by user (compensated)",
    or "Flow cancelled by user" when nothing was recorded; state and history
    are unchanged. *)
Theorem cancel_runs_compensations id w fs ctx h recorded :
  storedFlow w id = Some fs -> flowId fs = id -> status fs <> Completed ->
  contexts w !! context fs = Some ctx -> histories w !! history fs = Some h ->
  recordedOn w fs recorded -> storeValid w ->
  exists a w1 tr,
    cancel id true w = (Ok a, w1) /\
    storedFlow w1 id =
      Some (setUpdatedAt (clock w)
              (setError
                 (Some {| e_message := if (length recorded =? 0)%nat
                                       then "Flow cancelled by user"
                                       else "Flow cancelled by user (compensated)";
                          e_state := currentState fs;
                          e_timestamp := clock w |})
                 (setStatus Failed fs))) /\
    flowView w1 id =
      Some {| v_currentState := currentState fs;
              v_history := h;
              v_context := foldl (fun c r => (comp_action r c).1) ctx (rev recorded);
              v_status := Failed |} /\
    flows w1 !! a = storedFlow w1 id /\
    trace w1 = trace w ++ tr /\ compensatedIn tr = rev recorded /\
    (recorded = [] -> tr = []) /\
    (forall id', id' <> id -> storedFlow w1 id' = storedFlow w id') /\
    idempotencyKeys w1 = idempotencyKeys w /\
    compensationLists w1 = compensationLists w.
Proof.
  intros Hst Hid Hnc Hctx Hh Hrec Hvalid.
  destruct (storedFlow_inv _ _ _ Hst) as (l & Hl & Hfs).
  destruct (cancel_compensating_spec id w l fs ctx recorded Hl Hfs Hnc Hctx Hrec)
    as (a & w1 & tr & E & C & Hhist & Hctxs & Htr & Hcomp & Hnil & Hclk & Hcl).
  set (fs' := setUpdatedAt _ _) in C |- *.
  destruct (Committed_stored _ _ _ _ C (storeValid_sound w Hvalid)) as (S1 & O1 & _).
  cbn in S1, O1. rewrite Hid in S1, O1.
  exists a, w1, tr. split; [done|]. split; [done|]. split.
  { rewrite <- Hid. change (flowId fs) with (flowId fs').
    rewrite (Committed_flowView w w1 a fs' h
               (foldl (fun c r => (comp_action r c).1) ctx (rev recorded)) C).
    - done.
    - cbn. by rewrite Hhist.
    - cbn. rewrite Hctxs. apply list_lookup_insert_eq. eauto using lookup_lt_Some. }
  split. { rewrite S1. by destruct C as (_ & ? & _). }
  do 4 (split; [done|]). split; [|done].
  by destruct C as (_ & _ & _ & _ & _ & ?).
Qed.

Lemma recordCompensation_spec id action description w l fs recorded :
  mapGet id (states w) = Some l -> flows w !! l = Some fs ->
  recordedOn w fs recorded ->
  let fs' := match compensations fs with
             | Some _ => fs
             | None => setCompensations (Some (length (compensationLists w))) fs
             end in
  let record := {| comp_state := match currentState fs with
                                 | Multi regions => String.concat "," regions
                                 | Single current => current
                                 end;
                   comp_action := action;
                   comp_timestamp := clock w;
                   comp_description := description |} in
  exists w1,
    recordCompensation id action description w = (Ok tt, w1) /\
    Committed w w1 (length (flows w)) fs' /\
    recordedOn w1 fs' (recorded ++ [record]) /\
    (forall cl, (cl < length (compensationLists w))%nat -> compensations fs <> Some cl ->
       compensationLists w1 !! cl = compensationLists w !! cl) /\
    contexts w1 = contexts w /\ histories w1 = histories w /\
    trace w1 = trace w /\ clock w1 = clock w.
Proof.
  intros Hl Hfs Hrec fs' record.
  pose proof (lookup_lt_Some _ _ _ Hfs) as Hlt.
  cut (post (recordCompensation id action description) w (fun r w1 =>
    r = Ok tt /\
    Committed w w1 (length (flows w)) fs' /\
    recordedOn w1 fs' (recorded ++ [record]) /\
    (forall cl, (cl < length (compensationLists w))%nat -> compensations fs <> Some cl ->
       compensationLists w1 !! cl = compensationLists w !! cl) /\
    contexts w1 = contexts w /\ histories w1 = histories w /\
    trace w1 = trace w /\ clock w1 = clock w)).
  { intros H. apply post_run in H as (r & w1 & E & -> & ?). eauto 10. }
  unfold recordCompensation, recordedOn in *. estep. estep. estep.
  destruct (compensations fs) as [cl|] eqn:Hcomp.
  - pose proof (lookup_lt_Some _ _ _ Hrec) as Hltr.
    estep. estep. estep. estep. estep. rewrite Hcomp. repeat estep.
    split; [done|]. subst fs'. split; [commit_solve|]. cbn. rewrite Hcomp.
    split; [list_solve|]. split; [|done].
    intros cl' Hlt' Hne. apply list_lookup_insert_ne. by intros ->.
  - subst recorded. estep. estep.
    eapply post_intro; [reflexivity|]. cbn beta iota.
    estep. estep. estep. estep. estep. cbn [compensations setCompensations].
    repeat estep.
    split; [done|]. subst fs'. split; [commit_solve|]. cbn.
    split; [list_solve|]. split; [|done].
    intros cl' Hlt' _. list_solve.
Qed.

(** X18. [recordCompensation] appends one record to the compensations of
    the stored flow, whatever its status: the record carries the action, the
    description, the time and the current state (the region states joined by
    commas for a parallel flow).  A flow stored without a compensation list
    gets a new one.  Nothing else of the flow changes. *)
Theorem recordCompensation_appends id action description w fs recorded :
  storedFlow w id = Some fs -> flowId fs = id ->
  recordedOn w fs recorded -> storeValid w ->
  let record := {| comp_state := match currentState fs with
                                 | Multi regions => String.concat "," regions
                                 | Single current => current
                                 end;
                   comp_action := action;
                   comp_timestamp := clock w;
                   comp_description := description |} in
  exists w1 fs1,
    recordCompensation id action description w = (Ok tt, w1) /\
    storedFlow w1 id = Some fs1 /\
    recordedOn w1 fs1 (recorded ++ [record]) /\
    (is_Some (compensations fs) -> fs1 = fs) /\
    setCompensations None fs1 = setCompensations None fs /\
    (forall id', id' <> id -> storedFlow w1 id' = storedFlow w id') /\
    contexts w1 = contexts w /\ histories w1 = histories w /\
    trace w1 = trace w /\ idempotencyKeys w1 = idempotencyKeys w.
Proof.
  intros Hst Hid Hrec Hvalid record.
  destruct (storedFlow_inv _ _ _ Hst) as (l & Hl & Hfs).
  destruct (recordCompensation_spec id action description w l fs recorded Hl Hfs Hrec)
    as (w1 & E & C & Hrec1 & _ & Hc & Hh & Htr & _).
  set (fs' := match compensations fs with Some _ => fs | None => _ end) in *.
  assert (Hid' : flowId fs' = id).
  { unfold fs'. by destruct (compensations fs). }
  destruct (Committed_stored _ _ _ _ C (storeValid_sound w Hvalid)) as (S1 & O1 & _).
  rewrite Hid' in S1, O1.
  exists w1, fs'. split; [done|]. split; [done|]. split; [done|].
  split. { intros [cl Hcl]. unfold fs'. by rewrite Hcl. }
  split. { unfold fs'. by destruct (compensations fs). }
  split; [done|]. do 3 (split; [done|]).
  by destruct C as (_ & _ & _ & _ & _ & ?).
Qed.

End Saga.

Section Regions.
Variable config : StateMachineConfig.

Lemma onContext_run {A} c (m : M SMState A) w ctx r s :
  contexts w !! c = Some ctx ->
  m {| sm_context := ctx; sm_clock := clock w; sm_trace := trace w |} = (r, s) ->
  onContext c m w =
    (r, setTrace (sm_trace s) (setClock (sm_clock s)
          (setContexts (<[c := sm_context s]> (contexts w)) w))).
Proof. intros Hc Hm. unfold onContext. by rewrite Hc, Hm. Qed.

Lemma executeTransition_returns cs ev s :
  exists res s' to,
    executeTransition config cs ev s = (Ok res, s') /\
    fromState res = Single cs /\ toState res = Single to /\
    (success res = false -> to = cs).
Proof.
  pose proof (executeTransition_shape config cs ev s) as H.
  apply post_run in H as (r & s' & E & res & -> & Hfrom & to & Hto & Hfail).
  eauto 10.
Qed.

(** X19. An event aimed at one region ([targetRegion]).  A target that
    [parseInt] does not read, or that is negative or not below the number of
    regions, raises "Invalid region index: ...".  Otherwise the transition
    of that region alone is executed; when it succeeds the result goes from
    the list of region states to the list with that one entry replaced; when
    it fails the failure of the region is returned as it is, naming the
    region state and not the list. *)
Theorem target_region_dispatch l options w fs regions ctx target :
  flows w !! l = Some fs -> currentState fs = Multi regions ->
  contexts w !! context fs = Some ctx ->
  o_targetRegion options = Some target ->
  ((parseInt target = None \/
    exists n, parseInt target = Some n /\ (n < 0 \/ Z.of_nat (length regions) <= n)) ->
   executeParallelTransition config l options w =
     (Throw ("Invalid region index: " +:+ target), w)) /\
  (forall i region,
     parseInt target = Some (Z.of_nat i) -> regions !! i = Some region ->
     exists res s' to result newStates,
       executeTransition config region (o_event options)
         {| sm_context := ctx; sm_clock := clock w; sm_trace := trace w |}
         = (Ok res, s') /\
       toState res = Single to /\
       executeParallelTransition config l options w =
         (Ok result,
          setTrace (sm_trace s') (setClock (sm_clock s')
            (setContexts (<[context fs := sm_context s']> (contexts w)) w))) /\
       (success res = false -> result = res /\ fromState res = Single region /\
                               to = region) /\
       (success res = true ->
          result = {| success := true; fromState := Multi regions;
                      toState := Multi newStates; event := event res;
                      StateMachine.error := StateMachine.error res |} /\
          length newStates = length regions /\
          newStates !! i = Some to /\
          forall j, j <> i -> newStates !! j = regions !! j)).
Proof.
  intros Hl Hcur Hctx Htarget. split.
  - intros Hbad. unfold executeParallelTransition.
    erewrite bind_ok; [|by apply load_spec]. rewrite Hcur, Htarget.
    destruct Hbad as [->|(n & -> & Hn)]; [done|].
    destruct Hn as [Hn|Hn].
    + destruct (Z.ltb_spec n 0); [done|lia].
    + destruct (Z.ltb_spec n 0); [done|].
      destruct (Z.leb_spec (Z.of_nat (length regions)) n); [done|lia].
  - intros i region Hparse Hregion.
    pose proof (lookup_lt_Some _ _ _ Hregion) as Hlt.
    destruct (executeTransition_returns region (o_event options)
                {| sm_context := ctx; sm_clock := clock w; sm_trace := trace w |})
      as (res & s' & to & Hrun & Hfrom & Hto & Hfail).
    exists res, s', to.
    exists (if success res
            then {| success := true; fromState := Multi regions;
                    toState := Multi (<[i := to]> regions); event := event res;
                    StateMachine.error := StateMachine.error res |}
            else res), (<[i := to]> regions).
    split; [done|]. split; [done|]. split.
    { unfold executeParallelTransition.
      erewrite bind_ok; [|by apply load_spec]. rewrite Hcur, Htarget, Hparse.
      destruct (Z.ltb_spec (Z.of_nat i) 0); [lia|].
      destruct (Z.leb_spec (Z.of_nat (length regions)) (Z.of_nat i)); [lia|].
      cbn [orb]. rewrite Nat2Z.id, Hregion.
      erewrite bind_ok; [|by eapply onContext_run].
      destruct (success res) eqn:Hs; [|done].
      erewrite bind_ok; [|by apply load_spec]. by rewrite Hto, Hcur. }
    split.
    { intros Hs. rewrite Hs. split; [done|]. split; [done|]. by apply Hfail. }
    intros Hs. rewrite Hs. split; [done|]. split; [by rewrite length_insert|].
    split; [by apply list_lookup_insert_eq|].
    intros j Hj. by apply list_lookup_insert_ne.
Qed.

Lemma setAdd_elem_of x y (set : list string) : x ∈ setAdd y set <-> x = y \/ x ∈ set.
Proof.
  unfold setAdd. destruct (includes set y) eqn:Hin.
  - apply includes_spec in Hin. split; [by right|]. by intros [->|?].
  - rewrite elem_of_app, list_elem_of_singleton. tauto.
Qed.

Lemma fold_setAdd_spec (ts : list Transition) : forall acc,
  NoDup acc ->
  NoDup (fold_left (fun set t => setAdd (t_event t) set) ts acc) /\
  forall e, e ∈ fold_left (fun set t => setAdd (t_event t) set) ts acc <->
            e ∈ acc \/ exists t, t ∈ ts /\ t_event t = e.
Proof.
  induction ts as [|t ts IH]; intros acc Hacc; simpl.
  - split; [done|]. intros e. split; [by left|]. intros [?|(t & Ht & _)]; [done|].
    by apply elem_of_nil in Ht.
  - destruct (IH (setAdd (t_event t) acc) (setAdd_NoDup _ _ Hacc)) as [Hnd Hmem].
    split; [done|]. intros e. rewrite Hmem, setAdd_elem_of. split.
    + intros [[->|?]|(t' & Ht' & He)].
      * right. exists t. split; [by left|done].
      * by left.
      * right. exists t'. split; [by right|done].
    + intros [?|(t' & [->|Ht']%elem_of_cons & He)].
      * left. by right.
      * left. by left.
      * right. eauto.
Qed.

(** X20. For a parallel flow [getPossibleTransitions] returns, without
    duplicates, exactly the events of the transitions of the active region
    states. *)
Theorem possible_transitions_parallel id w fs regions :
  storedFlow w id = Some fs -> currentState fs = Multi regions ->
  exists events w',
    getPossibleTransitions config id w = (Ok events, w') /\
    NoDup events /\
    (forall e, e ∈ events <->
       exists region t, region ∈ regions /\ t ∈ getTransitions config region /\
                        t_event t = e) /\
    states w' = states w /\ trace w' = trace w.
Proof.
  intros Hst Hcur. destruct (storedFlow_inv _ _ _ Hst) as (l & Hl & Hfs).
  unfold getPossibleTransitions.
  erewrite bind_ok; [|by eapply get_spec_some]. cbn beta iota.
  erewrite bind_ok; [|apply load_spec; cbn; apply lookup_snoc]. rewrite Hcur.
  eexists _, _. split; [reflexivity|]. cbn. clear.
  assert (H : forall acc, NoDup acc ->
    let events := fold_left
                    (fun allEvents state =>
                       fold_left (fun set t => setAdd (t_event t) set)
                         (getTransitions config state) allEvents) regions acc in
    NoDup events /\
    forall e, e ∈ events <->
      e ∈ acc \/ exists region t, region ∈ regions /\
                   t ∈ getTransitions config region /\ t_event t = e).
  { induction regions as [|region regions IH]; intros acc Hacc; simpl.
    - split; [done|]. intros e. split; [by left|].
      intros [?|(region & t & Hr & _)]; [done|]. by apply elem_of_nil in Hr.
    - destruct (fold_setAdd_spec (getTransitions config region) acc Hacc) as [Hnd Hmem].
      destruct (IH _ Hnd) as [Hnd' Hmem']. split; [done|].
      intros e. rewrite Hmem', Hmem. split.
      + intros [[?|(t & Ht & He)]|(region' & t & Hr & Ht & He)].
        * by left.
        * right. exists region, t. split; [by left|done].
        * right. exists region', t. split; [by right|done].
      + intros [?|(region' & t & [->|Hr]%elem_of_cons & Ht & He)].
        * left. by left.
        * left. right. eauto.
        * right. eauto. }
  destruct (H [] (NoDup_nil_2 (A := string))) as [Hnd Hmem].
  split; [done|]. split; [|done].
  intros e. rewrite Hmem. split; [|by right].
  intros [Hin|?]; [|done]. by apply elem_of_nil in Hin.
Qed.

End Regions.

Lemma HooksRan_refl c w ctx : contexts w !! c = Some ctx -> HooksRan c [] w w.
Proof.
  intros Hc. split.
  { exists ctx. by rewrite list_insert_id. }
  split; [by rewrite app_nil_r|done].
Qed.

Lemma HooksRan_trans c tr1 tr2 w w1 w2 :
  HooksRan c tr1 w w1 -> HooksRan c tr2 w1 w2 -> HooksRan c (tr1 ++ tr2) w w2.
Proof.
  intros ([c1 H1] & T1 & F1 & S1 & K1 & Hi1 & C1 & Cl1 & Ce1)
         ([c2 H2] & T2 & F2 & S2 & K2 & Hi2 & C2 & Cl2 & Ce2).
  split. { exists c2. by rewrite H2, H1, list_insert_insert_eq. }
  split. { by rewrite T2, T1, app_assoc. }
  repeat split; congruence.
Qed.

Lemma HooksRan_context c tr w w' ctx :
  HooksRan c tr w w' -> contexts w !! c = Some ctx -> is_Some (contexts w' !! c).
Proof.
  intros ([c1 H1] & _) Hc. rewrite H1.
  rewrite list_lookup_insert_eq by eauto using lookup_lt_Some. eauto.
Qed.

Section Start.
Variable config : StateMachineConfig.

Lemma entered_cons name names :
  entered config (name :: names) = entered config [name] ++ entered config names.
Proof. unfold entered. cbn. by destruct (entryActionOf config name). Qed.

Lemma enter_post c name w ctx :
  contexts w !! c = Some ctx ->
  post (enter config c name) w (fun r w' =>
    r <> Crash /\ HooksRan c (entered config [name]) w w' /\
    (entered config [name] = [] -> r = Ok tt /\ w' = w)).
Proof.
  intros Hc. unfold enter, entered, entryActionOf. cbn.
  destruct (getState config name) as [state|]; cbn.
  2: { apply post_ret. split; [done|]. split; [by eapply HooksRan_refl|done]. }
  destruct (onEntryOf state) as [h|]; cbn.
  2: { apply post_ret. split; [done|]. split; [by eapply HooksRan_refl|done]. }
  eapply post_onContext; [done|].
  post_step. post_step. apply post_call. intros c' out Hcall. cbn.
  split; [by destruct out|].
  split; [|done]. split; [by eexists|]. done.
Qed.

Lemma enter_all_post c names : forall w ctx,
  contexts w !! c = Some ctx ->
  post (mapM (fun stateName => outcomeOf (enter config c stateName)) names) w
    (fun r w' => exists outcomes, r = Ok outcomes /\
                 HooksRan c (entered config names) w w' /\
                 (entered config names = [] ->
                  firstRaised outcomes = None /\ w' = w)).
Proof.
  induction names as [|name names IH]; intros w ctx Hc; simpl.
  - apply post_ret. exists []. split; [done|]. split; [by eapply HooksRan_refl|done].
  - apply post_bind. apply post_outcomeOf.
    eapply post_mono; [by eapply enter_post|]. cbn beta.
    intros r w1 (Hnc & H1 & Hq1).
    destruct (HooksRan_context _ _ _ _ _ H1 Hc) as [ctx1 Hc1].
    assert (Hrest : forall o : unit + string,
      (entered config [name] = [] -> (exists u, o = inl u) /\ w1 = w) ->
      post (ys <- mapM (fun stateName => outcomeOf (enter config c stateName)) names ;;
            ret (o :: ys)) w1
        (fun r w' => exists outcomes, r = Ok outcomes /\
                     HooksRan c (entered config (name :: names)) w w' /\
                     (entered config (name :: names) = [] ->
                      firstRaised outcomes = None /\ w' = w))).
    { intros o Ho. apply post_bind. eapply post_mono; [by eapply IH|]. cbn beta.
      intros r' w2 (outs & -> & H2 & Hq2). apply post_ret.
      exists (o :: outs). split; [done|].
      rewrite entered_cons. split; [by eapply HooksRan_trans|].
      intros [Ha Hb]%app_eq_nil. destruct (Ho Ha) as [[u ->] <-]. cbn. by apply Hq2. }
    destruct r as [u|e|]; [| |done].
    + apply Hrest. intros Hq. destruct (Hq1 Hq) as [_ ->]. eauto.
    + apply Hrest. intros Hq. by destruct (Hq1 Hq).
Qed.

Lemma initialCurrentState_single name :
  initialCurrentState config = Single name -> name = getInitialState config.
Proof.
  unfold initialCurrentState.
  destruct (getState config (getInitialState config)) as [[| |]|]; by intros [=].
Qed.

Lemma enterInitial_post c w ctx :
  contexts w !! c = Some ctx ->
  post (enterInitial config (initialCurrentState config) c) w (fun r w' =>
    r <> Crash /\
    HooksRan c (entered config (activeStates (initialCurrentState config))) w w' /\
    (forall name h,
       initialCurrentState config = Single name ->
       entryActionOf config name = Some h ->
       r = match (h ctx).2 with inl _ => Ok tt | inr e => Throw e end /\
       contexts w' !! c = Some (h ctx).1) /\
    (entered config (activeStates (initialCurrentState config)) = [] ->
     r = Ok tt /\ w' = w)).
Proof.
  intros Hc. unfold enterInitial.
  destruct (initialCurrentState config) as [name|regions] eqn:Hcur; cbn [activeStates].
  - apply initialCurrentState_single in Hcur as Hname. rewrite <- Hname.
    unfold enter, entered, entryActionOf. cbn.
    destruct (getState config name) as [state|] eqn:Hgs; cbn.
    2: { apply post_ret. split; [done|]. split; [by eapply HooksRan_refl|].
         split; [|done]. intros ? ? [= <-] Hh. rewrite Hgs in Hh. done. }
    destruct (onEntryOf state) as [h|] eqn:Hoe; cbn.
    2: { apply post_ret. split; [done|]. split; [by eapply HooksRan_refl|].
         split; [|done]. intros ? ? [= <-] Hh. rewrite Hgs in Hh. cbn in Hh.
         congruence. }
    eapply post_onContext; [done|].
    post_step. post_step. apply post_call. intros c' out Hcall. cbn in *.
    split; [by destruct out|]. split.
    { split; [by eexists|]. done. }
    split; [|done]. intros name' h' [= <-] Hh. rewrite Hgs in Hh. cbn in Hh.
    assert (h' = h) as -> by congruence. rewrite Hcall. cbn.
    split; [by destruct out as [[]|]|].
    apply list_lookup_insert_eq. eauto using lookup_lt_Some.
  - apply post_bind. eapply post_mono; [by eapply enter_all_post|]. cbn beta.
    intros r w' (outcomes & -> & Hran & Hq).
    destruct (firstRaised outcomes) as [e|] eqn:Hfirst.
    + apply post_throw. split; [done|]. split; [done|].
      split; [by intros ? ? [=]|]. intros Hnil. by destruct (Hq Hnil).
    + apply post_ret. split; [done|]. split; [done|].
      split; [by intros ? ? [=]|]. intros Hnil. by destruct (Hq Hnil).
Qed.

Lemma insert_snoc {A} (l : list A) x y : <[length l := x]> (l ++ [y]) = l ++ [x].
Proof.
  rewrite insert_app_r_alt by lia. by rewrite Nat.sub_diag.
Qed.

Lemma setIdempotencyKeys_same w : setIdempotencyKeys (idempotencyKeys w) w = w.
Proof. by destruct w. Qed.

Lemma setContexts_same w : setContexts (contexts w) w = w.
Proof. by destruct w. Qed.

Lemma start_precheck_fresh options w :
  (forall key, so_idempotencyKey options = Some key -> idempotencyKeys w !! key = None) ->
  match so_idempotencyKey options with
  | Some key =>
      if truthy key then
        existingFlowId <- getFlowIdByIdempotencyKey key ;;
        match existingFlowId with
        | Some existing => Storage.get existing
        | None => ret None
        end
      else ret None
  | None => ret None
  end w = (Ok None, w).
Proof.
  intros Hfresh. destruct (so_idempotencyKey options) as [key|]; [|done].
  destruct (truthy key); [|done].
  unfold bind, getFlowIdByIdempotencyKey, gets. by rewrite (Hfresh key eq_refl).
Qed.

Lemma start_bind_key options id w :
  match so_idempotencyKey options with
  | Some key => if truthy key then saveIdempotencyKey key id else ret tt
  | None => ret tt
  end w =
  (Ok tt, setIdempotencyKeys
            match so_idempotencyKey options with
            | Some key => if truthy key then <[key := id]> (idempotencyKeys w)
                          else idempotencyKeys w
            | None => idempotencyKeys w
            end w).
Proof.
  destruct (so_idempotencyKey options) as [key|];
    [destruct (truthy key)|]; by rewrite ?setIdempotencyKeys_same.
Qed.

Lemma start_context options w :
  match so_context options with
  | Some c => ret c
  | None => alloc contextsH ∅
  end w =
  (Ok (default (length (contexts w)) (so_context options)),
   setContexts match so_context options with
               | Some _ => contexts w
               | None => contexts w ++ [∅]
               end w).
Proof.
  destruct (so_context options) as [c|]; cbn; [|done].
  by rewrite setContexts_same.
Qed.

Lemma start_spec uuid options w :
  let id := startId uuid options in
  let current := initialCurrentState config in
  let c := default (length (contexts w)) (so_context options) in
  let ctx0 := default ∅ (c0 ← so_context options; contexts w !! c0) in
  let keys := match so_idempotencyKey options with
              | Some key => if truthy key then <[key := id]> (idempotencyKeys w)
                            else idempotencyKeys w
              | None => idempotencyKeys w
              end in
  let base := match so_context options with
              | Some _ => contexts w
              | None => contexts w ++ [∅]
              end in
  (forall key, so_idempotencyKey options = Some key -> idempotencyKeys w !! key = None) ->
  mapGet id (states w) = None ->
  (forall c0, so_context options = Some c0 -> is_Some (contexts w !! c0)) ->
  post (start config uuid options) w (fun r w' =>
    exists failed ctx',
      let fs :=
        {| flowId := id;
           flowDefinitionId := StateMachine.id config;
           Storage.version := Some (strOr (StateMachine.version config) "1.0.0");
           currentState := current;
           context := c;
           createdAt := clock w;
           updatedAt := clock w;
           history := length (histories w);
           status := if allFinal config current then Completed
                     else match failed with Some _ => Failed | None => Active end;
           Storage.error :=
             (fun m => {| e_message := m; e_state := current;
                          e_timestamp := clock w |}) <$> failed;
           compensations := Some (length (compensationLists w));
           parentFlowId := so_parentFlowId options |} in
      r = Ok (length (flows w)) /\
      flows w' = flows w ++ [fs; fs] /\
      states w' = mapSet id (S (length (flows w))) (states w) /\
      histories w' = histories w ++ [[]] /\
      compensationLists w' = compensationLists w ++ [[]] /\
      idempotencyKeys w' = keys /\
      trace w' = trace w ++ entered config (activeStates current) /\
      clock w' = clock w /\
      contexts w' = <[c := ctx']> base /\
      base !! c = Some ctx0 /\
      (entered config (activeStates current) = [] -> failed = None /\ ctx' = ctx0) /\
      (forall name h, current = Single name -> entryActionOf config name = Some h ->
         failed = match (h ctx0).2 with inl _ => None | inr e => Some e end /\
         ctx' = (h ctx0).1)).
Proof.
  intros id current c ctx0 keys base Hfresh Hnew Hctx.
  unfold start. apply post_bind.
  eapply post_intro; [by apply start_precheck_fresh|]. cbn beta iota zeta.
  change (strOr (so_flowId options) uuid) with id.
  estep. estep. unfold exists_. estep. estep.
  unfold mapHas. rewrite Hnew. cbn beta iota.
  estep. eapply post_intro; [apply start_bind_key|]. cbn beta iota. fold keys.
  estep. eapply post_intro; [apply start_context|]. cbn beta iota.
  change (contexts (setIdempotencyKeys keys w)) with (contexts w). fold base c.
  assert (Hbase : base !! c = Some ctx0).
  { unfold base, c, ctx0. destruct (so_context options) as [c0|]; cbn.
    - destruct (Hctx c0 eq_refl) as [x Hx]. by rewrite Hx.
    - apply lookup_snoc. }
  estep. eapply post_intro; [reflexivity|]. cbn beta iota.
  estep. eapply post_intro; [reflexivity|]. cbn beta iota.
  estep. eapply post_intro; [reflexivity|]. cbn beta iota.
  fold current. estep. estep.
  eapply post_mono; [eapply enterInitial_post; cbn; exact Hbase|]. cbn.
  set (fsF := fun (st : Status) (failed : option string) =>
        {| flowId := id;
           flowDefinitionId := StateMachine.id config;
           Storage.version := Some (strOr (StateMachine.version config) "1.0.0");
           currentState := current;
           context := c;
           createdAt := clock w;
           updatedAt := clock w;
           history := length (histories w);
           status := st;
           Storage.error :=
             (fun m => {| e_message := m; e_state := current;
                          e_timestamp := clock w |}) <$> failed;
           compensations := Some (length (compensationLists w));
           parentFlowId := so_parentFlowId options |}).
  assert (Htail : forall failed w3,
    flows w3 = flows w ++ [fsF (match failed with Some _ => Failed | None => Active end)
                             failed] ->
    let final := fsF (if allFinal config current then Completed
                      else match failed with Some _ => Failed | None => Active end)
                     failed in
    (complete <- isFlowComplete config (length (flows w)) ;;
     (if complete then update flowsH (length (flows w)) (setStatus Completed)
      else ret tt) ;;
     save (length (flows w)) ;;
     ret (length (flows w))) w3
    = (Ok (length (flows w)),
       setStates (mapSet id (S (length (flows w))) (states w3))
         (setFlows (flows w ++ [final; final]) w3))).
  { intros failed w3 Hf3 final.
    erewrite bind_ok; [|apply isFlowComplete_spec; rewrite Hf3; apply lookup_snoc].
    cbn [currentState fsF]. unfold final.
    destruct (allFinal config current).
    - erewrite bind_ok; [|apply update_spec; cbn; rewrite Hf3; apply lookup_snoc].
      erewrite bind_ok.
      2: { apply save_spec. cbn. rewrite Hf3. apply list_lookup_insert_eq. len_solve. }
      cbn. rewrite Hf3, insert_snoc, length_app. cbn.
      by rewrite Nat.add_1_r, <- app_assoc.
    - erewrite bind_ok; [|reflexivity].
      erewrite bind_ok; [|apply save_spec; rewrite Hf3; apply lookup_snoc].
      cbn. rewrite Hf3, length_app. cbn.
      by rewrite Nat.add_1_r, <- app_assoc. }
  intros r w2 (Hnc & ([ctx' Hc2] & T2 & F2 & S2 & K2 & Hi2 & C2 & Cl2 & Ce2) & Hsingle & Hq).
  cbn in Hc2, T2, F2, S2, K2, Hi2, C2, Cl2, Ce2.
  destruct r as [[]|e|]; [| |done].
  - eapply post_intro; [apply (Htail None w2); exact F2|].
    exists None, ctx'. cbn.
    split; [done|]. split; [done|]. rewrite S2, Hi2, C2, K2, T2, Cl2, Hc2.
    do 8 (split; [done|]). split.
    { intros Hnil. split; [done|]. destruct (Hq Hnil) as [_ ->]. cbn in Hc2.
      apply (f_equal (fun l => l !! c)) in Hc2.
      rewrite list_lookup_insert_eq in Hc2 by eauto using lookup_lt_Some.
      congruence. }
    intros name h Hcur Hh. destruct (Hsingle name h Hcur Hh) as [Hr Hc'].
    split.
    + by destruct ((h ctx0).2).
    + rewrite Hc2 in Hc'. rewrite list_lookup_insert_eq in Hc' by eauto using lookup_lt_Some.
      congruence.
  - eapply post_intro.
    { apply (markFailed_spec _ _ (fsF Active None)). rewrite F2. apply lookup_snoc. }
    cbn beta iota.
    eapply post_intro.
    { apply (Htail (Some e)). cbn. rewrite F2, Cl2. apply insert_snoc. }
    exists (Some e), ctx'. cbn.
    split; [done|]. split; [done|]. rewrite S2, Hi2, C2, K2, T2, Cl2, Hc2.
    do 8 (split; [done|]). split.
    { intros Hnil. by destruct (Hq Hnil). }
    intros name h Hcur Hh. destruct (Hsingle name h Hcur Hh) as [Hr Hc'].
    split.
    + destruct ((h ctx0).2); congruence.
    + rewrite Hc2 in Hc'. rewrite list_lookup_insert_eq in Hc' by eauto using lookup_lt_Some.
      congruence.
Qed.

Lemma start_run uuid options w :
  let id := startId uuid options in
  let current := initialCurrentState config in
  let c := default (length (contexts w)) (so_context options) in
  let ctx0 := default ∅ (c0 ← so_context options; contexts w !! c0) in
  (forall key, so_idempotencyKey options = Some key -> idempotencyKeys w !! key = None) ->
  mapGet id (states w) = None ->
  (forall c0, so_context options = Some c0 -> is_Some (contexts w !! c0)) ->
  exists w' failed ctx',
    let fs :=
      {| flowId := id;
         flowDefinitionId := StateMachine.id config;
         Storage.version := Some (strOr (StateMachine.version config) "1.0.0");
         currentState := current;
         context := c;
         createdAt := clock w;
         updatedAt := clock w;
         history := length (histories w);
         status := if allFinal config current then Completed
                   else match failed with Some _ => Failed | None => Active end;
         Storage.error :=
           (fun m => {| e_message := m; e_state := current;
                        e_timestamp := clock w |}) <$> failed;
         compensations := Some (length (compensationLists w));
         parentFlowId := so_parentFlowId options |} in
    start config uuid options w = (Ok (length (flows w)), w') /\
    flows w' = flows w ++ [fs; fs] /\
    states w' = mapSet id (S (length (flows w))) (states w) /\
    histories w' = histories w ++ [[]] /\
    compensationLists w' = compensationLists w ++ [[]] /\
    idempotencyKeys w' =
      match so_idempotencyKey options with
      | Some key => if truthy key then <[key := id]> (idempotencyKeys w)
                    else idempotencyKeys w
      | None => idempotencyKeys w
      end /\
    trace w' = trace w ++ entered config (activeStates current) /\
    clock w' = clock w /\
    contexts w' !! c = Some ctx' /\
    (entered config (activeStates current) = [] -> failed = None /\ ctx' = ctx0) /\
    (forall name h, current = Single name -> entryActionOf config name = Some h ->
       failed = match (h ctx0).2 with inl _ => None | inr e => Some e end /\
       ctx' = (h ctx0).1).
Proof.
  intros id current c ctx0 Hfresh Hnew Hctx.
  pose proof (start_spec uuid options w Hfresh Hnew Hctx) as H.
  apply post_run in H as (r & w' & E & failed & ctx' & H). cbn zeta in H.
  destruct H as (-> & Hf & Hs & Hh & Hcl & Hk & Ht & Hclk & Hc & Hb & Hq & Hsingle).
  exists w', failed, ctx'. cbn zeta.
  split; [done|]. do 7 (split; [done|]). split.
  { rewrite Hc. apply list_lookup_insert_eq. eauto using lookup_lt_Some. }
  done.
Qed.

Lemma start_stored w w' id fs :
  flows w' = flows w ++ [fs; fs] ->
  states w' = mapSet id (S (length (flows w))) (states w) ->
  storeValid w ->
  flows w' !! length (flows w) = Some fs /\
  storedFlow w' id = Some fs /\
  (forall id', id' <> id -> storedFlow w' id' = storedFlow w id').
Proof.
  intros Hf Hs Hvalid. split.
  { rewrite Hf. by apply list_lookup_middle. }
  split.
  { unfold storedFlow. rewrite Hs, mapGet_mapSet_eq. cbn. rewrite Hf.
    change (flows w ++ [fs; fs]) with (flows w ++ [fs] ++ [fs]).
    rewrite app_assoc. apply lookup_snoc_at. rewrite length_app. cbn. lia. }
  intros id' Hne. unfold storedFlow. rewrite Hs, mapGet_mapSet_ne by done.
  destruct (mapGet id' (states w)) as [l'|] eqn:Hl'; cbn; [|done].
  destruct (storeValid_mapGet _ _ _ Hvalid Hl') as [x Hx].
  rewrite Hf. apply lookup_app_l. eauto using lookup_lt_Some.
Qed.

(** X21. [start] with a fresh id (and a fresh idempotency key, if any)
    returns, whatever the entry actions do.  The new flow is stored under
    its id, with the definition id and version (default "1.0.0") of the
    configuration, the initial state (the initial states of the regions for
    a parallel one), an empty history, an empty compensation list, the
    caller's context object or a new empty one.  The entry actions of the
    initial states are all invoked, in order.  The flow is completed when
    every initial state is final; otherwise it is active, or failed with an
    error when an entry action raised.  A non-empty key is bound to the id;
    the other keys and flows are untouched. *)
Theorem start_creates_flow uuid options w :
  let id := startId uuid options in
  let current := initialCurrentState config in
  (forall key, so_idempotencyKey options = Some key -> idempotencyKeys w !! key = None) ->
  mapGet id (states w) = None ->
  (forall c0, so_context options = Some c0 -> is_Some (contexts w !! c0)) ->
  storeValid w ->
  exists a w' fs,
    start config uuid options w = (Ok a, w') /\
    flows w' !! a = Some fs /\ storedFlow w' id = Some fs /\
    flowId fs = id /\
    flowDefinitionId fs = StateMachine.id config /\
    Storage.version fs = Some (strOr (StateMachine.version config) "1.0.0") /\
    currentState fs = current /\
    createdAt fs = clock w /\ updatedAt fs = clock w /\
    parentFlowId fs = so_parentFlowId options /\
    context fs = default (length (contexts w)) (so_context options) /\
    is_Some (contexts w' !! context fs) /\
    history fs = length (histories w) /\ histories w' !! history fs = Some [] /\
    compensations fs = Some (length (compensationLists w)) /\ recordedOn w' fs [] /\
    (allFinal config current = true -> status fs = Completed) /\
    (allFinal config current = false ->
       (status fs = Active /\ Storage.error fs = None) \/
       (status fs = Failed /\
        exists m, Storage.error fs = Some {| e_message := m; e_state := current;
                                             e_timestamp := clock w |})) /\
    (entered config (activeStates current) = [] -> Storage.error fs = None) /\
    trace w' = trace w ++ entered config (activeStates current) /\
    (forall key, so_idempotencyKey options = Some key -> truthy key = true ->
       idempotencyKeys w' !! key = Some id) /\
    (forall key, so_idempotencyKey options <> Some key ->
       idempotencyKeys w' !! key = idempotencyKeys w !! key) /\
    (forall id', id' <> id -> storedFlow w' id' = storedFlow w id').
Proof.
  intros id current Hfresh Hnew Hctx Hvalid.
  destruct (start_run uuid options w Hfresh Hnew Hctx)
    as (w' & failed & ctx' & E & Hf & Hs & Hh & Hcl & Hk & Ht & Hclk & Hc & Hq & Hsingle).
  fold id current in E, Hf, Hs, Hk, Ht, Hq, Hsingle.
  set (fs := {| flowId := id |}) in Hf.
  destruct (start_stored w w' id fs Hf Hs Hvalid) as (Ha & Hst & Hothers).
  exists (length (flows w)), w', fs.
  split; [done|]. split; [done|]. split; [done|].
  do 8 (split; [done|]). split; [by eexists|]. split; [done|].
  split. { cbn. rewrite Hh. apply lookup_snoc. }
  split; [done|].
  split. { unfold recordedOn. cbn. rewrite Hcl. apply lookup_snoc. }
  split. { cbn. by intros ->. }
  split.
  { cbn. intros ->. destruct failed as [m|]; cbn; [right|left]; eauto. }
  split. { intros Hnil. cbn. by destruct (Hq Hnil) as [-> _]. }
  split; [done|]. split.
  { intros key Hkey Htruthy. rewrite Hk, Hkey, Htruthy. apply lookup_insert_eq. }
  split; [|done].
  intros key Hkey. rewrite Hk. destruct (so_idempotencyKey options) as [key'|]; [|done].
  destruct (truthy key'); [|done]. rewrite lookup_insert_ne; [done|congruence].
Qed.

(** X22. [start] when the single initial state has an entry action: the
    action runs once on the context of the new flow; when it raises,
    [start] still returns a stored flow, which carries the message as its
    error and is failed, unless the initial state is final: then it is
    completed all the same. *)
Theorem start_entry_outcome uuid options w name h :
  let id := startId uuid options in
  let ctx0 := default ∅ (c0 ← so_context options; contexts w !! c0) in
  (forall key, so_idempotencyKey options = Some key -> idempotencyKeys w !! key = None) ->
  mapGet id (states w) = None ->
  (forall c0, so_context options = Some c0 -> is_Some (contexts w !! c0)) ->
  storeValid w ->
  initialCurrentState config = Single name ->
  entryActionOf config name = Some h ->
  exists a w' fs,
    start config uuid options w = (Ok a, w') /\
    storedFlow w' id = Some fs /\
    contexts w' !! context fs = Some (h ctx0).1 /\
    trace w' = trace w ++ [EEntry name] /\
    Storage.error fs =
      match (h ctx0).2 with
      | inl _ => None
      | inr m => Some {| e_message := m; e_state := Single name;
                         e_timestamp := clock w |}
      end /\
    status fs =
      if isFinalState config name then Completed
      else match (h ctx0).2 with inl _ => Active | inr _ => Failed end.
Proof.
  intros id ctx0 Hfresh Hnew Hctx Hvalid Hcur Hh.
  destruct (start_run uuid options w Hfresh Hnew Hctx)
    as (w' & failed & ctx' & E & Hf & Hs & _ & _ & _ & Ht & _ & Hc & _ & Hsingle).
  fold id in E, Hf, Hs. rewrite Hcur in *.
  set (fs := {| flowId := id |}) in Hf.
  destruct (start_stored w w' id fs Hf Hs Hvalid) as (Ha & Hst & _).
  destruct (Hsingle name h eq_refl Hh) as [-> ->].
  exists (length (flows w)), w', fs.
  split; [done|]. split; [done|]. split; [done|]. split.
  { rewrite Ht. cbn. unfold entered. cbn. by rewrite Hh. }
  fold ctx0 in fs, Hc |- *.
  split. { subst fs. cbn. by destruct ((h ctx0).2). }
  subst fs. cbn. unfold allFinal. cbn. rewrite andb_true_r.
  destruct (isFinalState config name); [done|]. by destruct ((h ctx0).2).
Qed.

(** X23. [start] with a flow id that is already stored raises "Flow with
    ID ... already exists" and changes nothing: in particular the
    idempotency key of the call is not bound. *)
Theorem start_rejects_existing_id uuid options w :
  let id := startId uuid options in
  (forall key, so_idempotencyKey options = Some key -> idempotencyKeys w !! key = None) ->
  is_Some (mapGet id (states w)) ->
  start config uuid options w =
    (Throw ("Flow with ID " +:+ dq +:+ id +:+ dq +:+ " already exists"), w).
Proof.
  intros id Hfresh [l Hl]. unfold start.
  erewrite bind_ok; [|by apply start_precheck_fresh]. cbn beta iota zeta.
  change (strOr (so_flowId options) uuid) with id.
  erewrite bind_ok; [|reflexivity].
  erewrite bind_ok; [|reflexivity]. unfold mapHas. by rewrite Hl.
Qed.

Lemma start_replay uuid options w key bound fs :
  so_idempotencyKey options = Some key -> truthy key = true ->
  idempotencyKeys w !! key = Some bound -> truthy bound = true ->
  storedFlow w bound = Some fs ->
  start config uuid options w = (Ok (length (flows w)), setFlows (flows w ++ [fs]) w).
Proof.
  intros Hkey Htk Hb Htb Hst. destruct (storedFlow_inv _ _ _ Hst) as (l & Hl & Hfs).
  unfold start. rewrite Hkey, Htk.
  erewrite bind_ok.
  2: { erewrite bind_ok; [|by eapply getFlowIdByIdempotencyKey_bound].
       cbn beta iota. by eapply get_spec_some. }
  reflexivity.
Qed.

Lemma truthy_startId uuid options : truthy uuid = true -> truthy (startId uuid options) = true.
Proof.
  intros Hu. unfold startId, strOr. destruct (so_flowId options) as [s|]; [|done].
  by destruct (truthy s) eqn:Hs.
Qed.

(** X24. [start] is idempotent under a key: after a first [start] with a
    fresh, non-empty key, a second [start] with that key, whatever its other
    options, returns a snapshot of the flow the first one created; it
    creates no flow, binds nothing and invokes no entry action. *)
Theorem start_idempotent uuid options uuid' options' key w :
  let id := startId uuid options in
  so_idempotencyKey options = Some key -> truthy key = true ->
  idempotencyKeys w !! key = None -> truthy uuid = true ->
  mapGet id (states w) = None ->
  (forall c0, so_context options = Some c0 -> is_Some (contexts w !! c0)) ->
  storeValid w ->
  so_idempotencyKey options' = Some key ->
  exists a w1 fs b,
    start config uuid options w = (Ok a, w1) /\
    storedFlow w1 id = Some fs /\ flowId fs = id /\
    idempotencyKeys w1 !! key = Some id /\
    start config uuid' options' w1 = (Ok b, setFlows (flows w1 ++ [fs]) w1) /\
    b = length (flows w1).
Proof.
  intros id Hkey Htk Hfresh Hu Hnew Hctx Hvalid Hkey'.
  assert (Hfresh' : forall k, so_idempotencyKey options = Some k ->
                              idempotencyKeys w !! k = None).
  { intros k Hk. rewrite Hkey in Hk. by injection Hk as <-. }
  destruct (start_run uuid options w Hfresh' Hnew Hctx)
    as (w1 & failed & ctx' & E & Hf & Hs & _ & _ & Hk & _).
  fold id in E, Hf, Hs, Hk.
  set (fs := {| flowId := id |}) in Hf.
  destruct (start_stored w w1 id fs Hf Hs Hvalid) as (Ha & Hst & _).
  assert (Hbound : idempotencyKeys w1 !! key = Some id).
  { rewrite Hk, Hkey, Htk. apply lookup_insert_eq. }
  exists (length (flows w)), w1, fs, (length (flows w1)).
  split; [done|]. split; [done|]. split; [done|]. split; [done|]. split; [|done].
  eapply start_replay; try done. by apply truthy_startId.
Qed.

End Start.

(** ** The middleware chain *)

Lemma setCells_cells w : setCells (cells w) w = w.
Proof. by destruct w. Qed.

Lemma setCells_setCells c c' w : setCells c (setCells c' w) = setCells c w.
Proof. done. Qed.

Lemma HeapApart_flows : HeapApart flowsH.
Proof. done. Qed.
Lemma HeapApart_contexts : HeapApart contextsH.
Proof. done. Qed.
Lemma HeapApart_histories : HeapApart historiesH.
Proof. done. Qed.
Lemma HeapApart_compensations : HeapApart compensationsH.
Proof. done. Qed.

Lemma CellFree_ret {A} (a : A) : CellFree (ret a).
Proof. done. Qed.

Lemma CellFree_throw {A} e : CellFree (@throw World A e).
Proof. done. Qed.

Lemma CellFree_crash {A} : CellFree (@crash World A).
Proof. done. Qed.

Lemma CellFree_bind {A B} (m : M World A) (k : A -> M World B) :
  CellFree m -> (forall a, CellFree (k a)) -> CellFree (bind m k).
Proof.
  intros Hm Hk c w. unfold bind. rewrite Hm.
  destruct (m w) as [[a|e|] w1]; cbn; [apply Hk|done|done].
Qed.

Lemma CellFree_catch {A} (m : M World A) (h : string -> M World A) :
  CellFree m -> (forall e, CellFree (h e)) -> CellFree (catch m h).
Proof.
  intros Hm Hh c w. unfold catch. rewrite Hm.
  destruct (m w) as [[a|e|] w1]; cbn; [done|apply Hh|done].
Qed.

Lemma CellFree_load {A} (h : Heap A) l : HeapApart h -> CellFree (load h l).
Proof.
  intros [Hget _] c w. unfold load. rewrite Hget. by destruct (_ !! l).
Qed.

Lemma CellFree_store {A} (h : Heap A) l x : HeapApart h -> CellFree (store h l x).
Proof.
  intros [Hget Hset] c w. unfold store. rewrite Hget.
  destruct (_ !! l); [|done]. cbn. by rewrite Hset.
Qed.

Lemma CellFree_alloc {A} (h : Heap A) x : HeapApart h -> CellFree (alloc h x).
Proof. intros [Hget Hset] c w. unfold alloc. by rewrite Hget, Hset. Qed.

Lemma CellFree_update {A} (h : Heap A) l f : HeapApart h -> CellFree (update h l f).
Proof.
  intros Hh. apply CellFree_bind; [by apply CellFree_load|].
  intros x. by apply CellFree_store.
Qed.

Lemma CellFree_clock : CellFree (gets clock).
Proof. done. Qed.

Lemma CellFree_emitW e : CellFree (emitW e).
Proof. done. Qed.

Lemma CellFree_onContext {A} c (m : M SMState A) : CellFree (onContext c m).
Proof.
  intros cs w. unfold onContext. cbn.
  destruct (contexts w !! c); [|done]. by destruct (m _).
Qed.

Lemma CellFree_get id : CellFree (Storage.get id).
Proof.
  unfold Storage.get. apply CellFree_bind; [done|]. intros [l|]; [|done].
  apply CellFree_bind; [apply CellFree_load, HeapApart_flows|]. intros fs.
  apply CellFree_bind; [apply CellFree_alloc, HeapApart_flows|]. done.
Qed.

Lemma CellFree_save l : CellFree (save l).
Proof.
  unfold save. apply CellFree_bind; [apply CellFree_load, HeapApart_flows|]. intros fs.
  apply CellFree_bind; [apply CellFree_alloc, HeapApart_flows|]. done.
Qed.

Lemma CellFree_forEach {A} (f : A -> M World unit) xs :
  (forall x, CellFree (f x)) -> CellFree (forEach f xs).
Proof.
  intros Hf. induction xs; simpl; [done|].
  apply CellFree_bind; [apply Hf|]. by intros.
Qed.

Lemma CellFree_mapM {A B} (f : A -> M World B) xs :
  (forall x, CellFree (f x)) -> CellFree (mapM f xs).
Proof.
  intros Hf. induction xs; simpl; [done|].
  apply CellFree_bind; [apply Hf|]. intros. apply CellFree_bind; [done|]. done.
Qed.

Lemma CellFree_mapiM {A B} (f : nat -> A -> M World B) xs : forall i,
  (forall i x, CellFree (f i x)) -> CellFree (mapiM f i xs).
Proof.
  induction xs; intros i Hf; simpl; [done|].
  apply CellFree_bind; [apply Hf|]. intros.
  apply CellFree_bind; [by apply IHxs|]. done.
Qed.

Ltac cellfree :=
  repeat first
    [ match goal with H : forall _, _ |- CellFree _ => apply H end
    | apply CellFree_ret | apply CellFree_throw | apply CellFree_crash
    | apply CellFree_clock | apply CellFree_emitW | apply CellFree_onContext
    | apply CellFree_save | apply CellFree_get
    | apply CellFree_load; done | apply CellFree_store; done
    | apply CellFree_alloc; done | apply CellFree_update; done
    | apply CellFree_bind; [|intros ?]
    | apply CellFree_catch; [|intros ?]
    | apply CellFree_forEach; intros ?
    | apply CellFree_mapM; intros ?
    | apply CellFree_mapiM; intros ? ?
    | match goal with
      | |- CellFree (match ?x with _ => _ end) => destruct x
      | |- CellFree (if ?x then _ else _) => destruct x
      end ].

Section Middleware.
Variable config : StateMachineConfig.

Lemma CellFree_markFailed l msg : CellFree (markFailed l msg).
Proof. unfold markFailed. cellfree. Qed.

Lemma CellFree_compensationsOf fs : CellFree (compensationsOf fs).
Proof. unfold compensationsOf. cellfree. Qed.

Lemma CellFree_mergedRegion ts i x : CellFree (mergedRegion ts i x).
Proof. unfold mergedRegion. cellfree. Qed.

Lemma CellFree_compensate l msg : CellFree (compensate l msg).
Proof.
  unfold compensate, runCompensation.
  pose proof CellFree_markFailed. pose proof CellFree_compensationsOf. cellfree.
Qed.

Lemma CellFree_executeParallelTransition l options :
  CellFree (executeParallelTransition config l options).
Proof.
  unfold executeParallelTransition, mergeBroadcast, regionTransition.
  pose proof CellFree_mergedRegion. cellfree.
Qed.

Lemma CellFree_executeCore flowId options :
  CellFree (executeCore config flowId options).
Proof.
  unfold executeCore, coreTry, coreCatch, isFlowComplete.
  pose proof CellFree_compensate. pose proof CellFree_executeParallelTransition.
  cellfree.
Qed.

End Middleware.

Section Chain.
Variable config : StateMachineConfig.
Variable wrappers : list Wrapper.
Variable context : MiddlewareContext.
Variable flowId : string.
Variable options : FlowExecuteOptions.

Hypothesis wrappers_free :
  forall wrapper, wrapper ∈ wrappers ->
    CellFree (beforeNext wrapper context) /\
    forall result, CellFree (afterNext wrapper context result).

Lemma CellFree_onion rest core :
  (forall wrapper, wrapper ∈ rest -> wrapper ∈ wrappers) ->
  CellFree core -> CellFree (onion rest context core).
Proof.
  intros Hsub Hcore. induction rest as [|wrapper rest IH]; simpl; [done|].
  destruct (wrappers_free wrapper) as [Hb Ha]; [apply Hsub; left|].
  unfold around. apply CellFree_bind; [done|]. intros _.
  apply CellFree_bind; [|done].
  apply IH. intros wr Hwr. apply Hsub. by right.
Qed.

Lemma dispatch_unfold middlewares fuel index :
  dispatch config middlewares fuel index context flowId options =
  (i <- load cellsH index ;;
   if (length middlewares <=? i)%nat then executeCore config flowId options
   else
     match fuel with
     | O => crash
     | S fuel' =>
         store cellsH index (S i) ;;
         match middlewares !! i with
         | Some middleware =>
             middleware context
               (dispatch config middlewares fuel' index context flowId options)
         | None => crash
         end
     end).
Proof. by destruct fuel. Qed.

Lemma dispatch_onion rest : forall passed fuel index w,
  wrappers = passed ++ rest ->
  cells w !! index = Some (length passed) ->
  (length rest <= fuel)%nat ->
  exists cells',
    dispatch config (map around wrappers) fuel index context flowId options w =
      ((onion rest context (executeCore config flowId options) w).1,
       setCells cells' (onion rest context (executeCore config flowId options) w).2).
Proof.
  induction rest as [|wrapper rest IH]; intros passed fuel index w Hall Hcell Hfuel.
  - rewrite dispatch_unfold. unfold bind at 1, load. cbn [cellsOf cellsH].
    rewrite Hcell. rewrite length_map, Hall, app_nil_r, Nat.leb_refl. simpl.
    exists (cells (executeCore config flowId options w).2).
    rewrite setCells_cells. by destruct (executeCore _ _ _ _).
  - rewrite dispatch_unfold. unfold bind at 1, load. cbn [cellsOf cellsH].
    rewrite Hcell.
    assert (Hlen : (length (map around wrappers) <=? length passed)%nat = false).
    { apply Nat.leb_gt. rewrite length_map, Hall, length_app. simpl. lia. }
    rewrite Hlen. destruct fuel as [|fuel]; [simpl in Hfuel; lia|].
    unfold bind at 1, store. cbn [cellsOf cellsH withCells]. rewrite Hcell.
    assert (Hmw : map around wrappers !! length passed = Some (around wrapper)).
    { rewrite list_lookup_fmap, Hall, list_lookup_middle; done. }
    unfold Middleware in Hmw |- *. rewrite Hmw.
    destruct (wrappers_free wrapper) as [Hb Ha].
    { rewrite Hall. apply elem_of_app. right. left. }
    set (c := <[index := S (length passed)]> (cells w)).
    simpl onion. unfold around at 1 3 4. unfold bind at 1 3 5.
    rewrite (Hb c w).
    destruct (beforeNext wrapper context w) as [[[]|e|] wb] eqn:Hbefore; cbn;
      [|by exists c|by exists c].
    destruct (IH (passed ++ [wrapper]) fuel index (setCells c wb)) as [cells' Hnext].
    { by rewrite <- app_assoc. }
    { cbn. unfold c. rewrite list_lookup_insert_eq.
      - by rewrite length_app, Nat.add_1_r.
      - by eapply lookup_lt_Some. }
    { simpl in Hfuel. lia. }
    unfold Middleware in Hnext. unfold bind. rewrite Hnext.
    rewrite (CellFree_onion rest (executeCore config flowId options)).
    + destruct (onion rest context _ wb) as [[result|e|] wn]; cbn;
        [|by exists cells'|by exists cells'].
      exists cells'. apply (Ha result cells' wn).
    + intros wr Hwr. rewrite Hall. apply elem_of_app. right. by right.
    + apply CellFree_executeCore.
Qed.

End Chain.

Section Onion.
Variable config : StateMachineConfig.

(** X25. The middleware chain nests.  With middlewares that each do
    something, await [next] once and then do something with its result, and
    that leave the chain's own counter alone, [execute] (no key) runs them as
    an onion: the first one registered outermost, the core execution
    innermost, on the snapshot taken when the chain was built.  So the
    parts before [next] run in the order of registration, the parts after it
    in reverse order, and when a part before [next] raises, neither the
    middlewares behind it nor the transition are run. *)
Theorem middlewares_nest wrappers id options w l fs :
  let context := {| mc_flowId := id; mc_event := o_event options;
                    mc_flowState := length (flows w); mc_options := options;
                    mc_startTime := clock w |} in
  let chain := onion wrappers context (executeCore config id options) in
  let w0 := setFlows (flows w ++ [fs]) w in
  mapGet id (states w) = Some l -> flows w !! l = Some fs ->
  o_idempotencyKey options = None -> wrappers <> [] ->
  (forall wrapper, wrapper ∈ wrappers ->
     CellFree (beforeNext wrapper context) /\
     forall result, CellFree (afterNext wrapper context result)) ->
  exists cells',
    execute config (map around wrappers) id options w =
      ((chain w0).1, setCells cells' (chain w0).2).
Proof.
  intros context chain w0 Hl Hfs Hkey Hne Hfree.
  unfold execute, idempotencyGuard. rewrite Hkey.
  unfold bind at 1. cbn [ret].
  assert (Hpos : (0 <? length (map around wrappers))%nat = true).
  { apply Nat.ltb_lt. rewrite length_map. destruct wrappers; [done|simpl; lia]. }
  rewrite Hpos. unfold executeWithMiddleware.
  unfold bind at 1. unfold Storage.get, bind, gets, load, alloc. cbn.
  rewrite Hl. cbn. rewrite Hfs. cbn.
  fold context. fold w0.
  destruct (dispatch_onion config wrappers context id options Hfree wrappers []
              (length (map around wrappers)) (length (cells w))
              (setCells (cells w ++ [0%nat]) w0)) as [cells' Hrun].
  { done. }
  { cbn. by rewrite list_lookup_middle. }
  { by rewrite length_map. }
  exists cells'.
  etransitivity; [exact Hrun|].
  rewrite (CellFree_onion wrappers context Hfree wrappers (executeCore config id options)).
  - done.
  - done.
  - apply CellFree_executeCore.
Qed.

End Onion.

(** ** Broadcasts on a parallel flow *)

Lemma written_same c w ctx :
  contexts w !! c = Some ctx ->
  written c {| sm_context := ctx; sm_clock := clock w; sm_trace := trace w |} w = w.
Proof. intros Hc. unfold written. cbn. rewrite list_insert_id by done. by destruct w. Qed.

Lemma written_written c s1 s2 w : written c s2 (written c s1 w) = written c s2 w.
Proof. unfold written. cbn. by rewrite list_insert_insert_eq. Qed.

Section Broadcast.
Variable config : StateMachineConfig.








End Broadcast.

Section BroadcastCore.
Variable config : StateMachineConfig.








End BroadcastCore.

(** ** Keys bound by a call that raised *)

Section KeyBound.
Variable config : StateMachineConfig.
Variable middlewares : list Middleware.

(** C10 (amended). [execute] binds a fresh, non-empty idempotency key before
    it loads the flow.  When the flow does not exist the call raises NotFound
    with the key bound; a later call with that key raises NotFound again as
    long as the flow is missing, and once a flow with that id has been
    started it returns the no-op success carrying the current state of that
    flow, the event never applied.  When the flow exists and is not active
    (and no middleware is installed) the call raises NotActive with the key
    bound and the stored flow untouched, and every later call with that key
    returns the no-op success carrying the flow's current state, whatever
    event it names.  With middlewares that leave key bindings and stored
    flows in place, whatever the first call on an existing flow does, the
    key is bound after it and every later call with that key returns the
    no-op success.  In general, in any store where the key is bound to the
    flow id and the flow is stored, a call with the key returns the no-op
    success. *)
Theorem key_bound_before_checks flowId options K w :
  o_idempotencyKey options = Some K -> truthy K = true -> truthy flowId = true ->
  getFlowIdByIdempotencyKey K w = (Ok None, w) ->
  (mapGet flowId (states w) = None ->
   exists w1,
     execute config middlewares flowId options w =
       (Throw ("Flow with ID " +:+ dq +:+ flowId +:+ dq +:+ " not found"), w1) /\
     idempotencyKeys w1 !! K = Some flowId /\
     (forall options', o_idempotencyKey options' = Some K ->
        execute config middlewares flowId options' w1 =
          (Throw ("Flow with ID " +:+ dq +:+ flowId +:+ dq +:+ " not found"), w1)) /\
     (forall uuid startOptions,
        so_flowId startOptions = Some flowId ->
        so_idempotencyKey startOptions = None ->
        (forall c0, so_context startOptions = Some c0 -> is_Some (contexts w !! c0)) ->
        exists a w2 fs,
          start config uuid startOptions w1 = (Ok a, w2) /\
          storedFlow w2 flowId = Some fs /\
          currentState fs = initialCurrentState config /\
          idempotencyKeys w2 !! K = Some flowId /\
          forall options', o_idempotencyKey options' = Some K ->
            exists snapshot w3,
              execute config middlewares flowId options' w2 =
                (Ok (noopResult options' snapshot (currentState fs)), w3) /\
              flows w3 !! snapshot = Some fs /\
              storedFlow w3 flowId = Some fs)) /\
  (forall l fs,
     mapGet flowId (states w) = Some l -> flows w !! l = Some fs ->
     status fs <> Active -> middlewares = [] ->
     exists w1,
       execute config middlewares flowId options w =
         (Throw ("Flow is not active. Current status: " +:+ statusName (status fs)), w1) /\
       idempotencyKeys w1 !! K = Some flowId /\
       storedFlow w1 flowId = Some fs /\
       flowView w1 flowId = flowView w flowId /\
       forall options', o_idempotencyKey options' = Some K ->
         exists snapshot w2,
           execute config middlewares flowId options' w1 =
             (Ok (noopResult options' snapshot (currentState fs)), w2) /\
           flows w2 !! snapshot = Some fs /\
           flowView w2 flowId = flowView w flowId) /\
  (MiddlewareFrame middlewares -> is_Some (storedFlow w flowId) ->
   let w1 := (execute config middlewares flowId options w).2 in
   exists bound fs1,
     idempotencyKeys w1 !! K = Some bound /\ truthy bound = true /\
     storedFlow w1 flowId = Some fs1 /\
     forall options', o_idempotencyKey options' = Some K ->
       exists snapshot w2,
         execute config middlewares flowId options' w1 =
           (Ok (noopResult options' snapshot (currentState fs1)), w2)) /\
  (forall w' l fs options',
     idempotencyKeys w' !! K = Some flowId ->
     mapGet flowId (states w') = Some l -> flows w' !! l = Some fs ->
     o_idempotencyKey options' = Some K ->
     exists snapshot w'',
       execute config middlewares flowId options' w' =
         (Ok (noopResult options' snapshot (currentState fs)), w'') /\
       flows w'' !! snapshot = Some fs /\
       storedFlow w'' flowId = Some fs).
Proof.
  intros HK HtK Htf Hfresh.
  assert (Hreplay : forall w' l fs options',
     idempotencyKeys w' !! K = Some flowId ->
     mapGet flowId (states w') = Some l -> flows w' !! l = Some fs ->
     o_idempotencyKey options' = Some K ->
     exists snapshot w'',
       execute config middlewares flowId options' w' =
         (Ok (noopResult options' snapshot (currentState fs)), w'') /\
       flows w'' !! snapshot = Some fs /\
       storedFlow w'' flowId = Some fs).
  { intros w' l fs options' Hb Hl Hfs HK'. eexists _, _. split; [|split].
    - by eapply (execute_replay config middlewares flowId options' K flowId l fs).
    - cbn. apply lookup_snoc.
    - unfold storedFlow. cbn. rewrite Hl. cbn.
      apply lookup_app_l_Some. done. }
  split; [|split; [|split]]; [| | |exact Hreplay].
  - intros Hnone. eexists. split; [|split; [|split]].
    + erewrite execute_fresh by done.
      destruct (0 <? length middlewares)%nat.
      * by apply executeWithMiddleware_notFound.
      * by apply executeCore_notFound.
    + cbn. by rewrite lookup_insert_eq.
    + intros options' HK'. unfold execute, idempotencyGuard. rewrite HK', HtK.
      erewrite bind_ok.
      2: { erewrite bind_ok.
           2: { apply (getFlowIdByIdempotencyKey_bound K flowId); [|done].
                cbn. by rewrite lookup_insert_eq. }
           cbn beta iota. erewrite bind_ok; [|by apply get_spec_none]. reflexivity. }
      cbn beta iota.
      destruct (0 <? length middlewares)%nat.
      * by apply executeWithMiddleware_notFound.
      * by apply executeCore_notFound.
    + intros uuid startOptions Hid Hnokey Hctx.
      set (w1 := setIdempotencyKeys (<[K:=flowId]> (idempotencyKeys w)) w).
      assert (startId uuid startOptions = flowId) as Hsid.
      { unfold startId, strOr. by rewrite Hid, Htf. }
      destruct (start_run config uuid startOptions w1)
        as (w2 & failed & ctx' & E & Hf & Hs & _ & _ & Hk & _).
      { intros key Hkey. by rewrite Hnokey in Hkey. }
      { by rewrite Hsid. }
      { exact Hctx. }
      rewrite Hsid, Hnokey in *. cbn zeta in E, Hf.
      match type of Hf with _ = _ ++ [?x; _] => set (fs := x) in * end.
      assert (mapGet flowId (states w2) = Some (S (length (flows w1)))) as Hl.
      { rewrite Hs. apply mapGet_mapSet_eq. }
      assert (flows w2 !! S (length (flows w1)) = Some fs) as Hfs.
      { rewrite Hf. change (flows w1 ++ [fs; fs]) with (flows w1 ++ [fs] ++ [fs]).
        rewrite app_assoc. apply lookup_snoc_at. rewrite length_app. cbn. lia. }
      assert (idempotencyKeys w2 !! K = Some flowId) as Hb.
      { rewrite Hk. cbn. by rewrite lookup_insert_eq. }
      exists (length (flows w1)), w2, fs. split; [exact E|]. split.
      { unfold storedFlow. rewrite Hl. cbn. exact Hfs. }
      split; [done|]. split; [done|].
      intros options' HK'. by eapply Hreplay.
  - intros l fs Hl Hfs Hst Hmw.
    pose proof (lookup_lt_Some _ _ _ Hfs) as Hlt.
    eexists. split; [|split; [|split; [|split]]].
    + erewrite execute_fresh by done.
      replace (0 <? length middlewares)%nat with false by (by rewrite Hmw).
      by eapply executeCore_notActive.
    + cbn. by rewrite lookup_insert_eq.
    + unfold storedFlow. cbn. rewrite Hl. cbn. by rewrite lookup_app_l.
    + unfold flowView, storedFlow. cbn. rewrite Hl. cbn. by rewrite lookup_app_l.
    + intros options' HK'. eexists _, _. split; [|split].
      * eapply (execute_replay _ _ _ _ K flowId l fs); try done.
        -- cbn. by rewrite lookup_insert_eq.
        -- cbn. by rewrite lookup_app_l.
      * cbn. apply lookup_snoc.
      * unfold flowView, storedFlow. cbn. rewrite Hl. cbn.
        by rewrite !lookup_app_l by (rewrite ?length_app; cbn; lia).
  - intros Hmw Hex.
    destruct (execute_binds config middlewares flowId options K w HK HtK Htf Hmw Hex)
      as [(bound & Hb & Htb) [fs1 Hfs1]].
    cbn zeta. exists bound, fs1. split; [done|]. split; [done|]. split; [done|].
    intros options' HK'. pose proof Hfs1 as Hst. unfold storedFlow in Hst.
    destruct (mapGet flowId (states _)) as [l1|] eqn:Hl1; [|done]. cbn in Hst.
    eexists _, _. by eapply execute_replay.
Qed.

End KeyBound.

End FlowEngineProperties.

(** ** The statements on concrete flows *)

Module Scenarios.
Import StateMachine Storage FlowEngine Examples.
Import Reasoning StateMachineFacts StorageFacts FlowEngineFacts.
Import StateMachineProperties StorageProperties FlowEngineProperties.

(** C8: the claim as stated fails for a flow in a single state and a list of
    requested states. *)
Lemma list_filter_counterexample :
  (exists l w',
     list_ (Some (currentStateOnly (Multi ["pending"; "approved"]))) pendingWorld
       = (Ok [l], w') /\
     flows w' !! l = Some pendingFlow) /\
  ~ (forall t, t ∈ ["pending"; "approved"] -> t ∈ activeStates (currentState pendingFlow)).
Proof.
  split.
  - eexists _, _. split; [vm_compute; reflexivity|reflexivity].
  - intros H. specialize (H "approved"). cbn in H.
    assert (Hin : "approved" ∈ ["pending"; "approved"]) by (right; left).
    apply H in Hin. apply list_elem_of_singleton in Hin. discriminate.
Qed.

(** C9. [getPossibleTransitions] on a flow in the single state [pending],
    which has two transitions on [APPROVE]: the event is returned twice. *)
Theorem possible_transitions_duplicates :
  exists w',
    getPossibleTransitions approvalConfig "f1" pendingWorld
      = (Ok ["APPROVE"; "APPROVE"], w') /\
    ~ NoDup ["APPROVE"; "APPROVE"].
Proof.
  eexists. split; [vm_compute; reflexivity|].
  intros H. apply NoDup_cons in H as [H _]. apply H. by left.
Qed.

(** C7: a write into the context of a snapshot shows in a later read. *)
Lemma snapshot_context_shared_counterexample :
  exists w',
    readMutateRead "f1" "amount" (VNum 1) pendingWorld
      = (Ok (Some {[ "amount" := VNum 15000 ]}, Some {[ "amount" := VNum 1 ]}), w') /\
    ({[ "amount" := VNum 15000 ]} : Context) <> {[ "amount" := VNum 1 ]}.
Proof.
  eexists. split; [vm_compute; reflexivity|].
  intros H. apply (f_equal (fun c : Context => c !! "amount")) in H.
  rewrite !lookup_singleton_eq in H. discriminate.
Qed.

(** C5: with [delayMs: 0] the delay scheduled after attempt 0 is not
    [0 * (0 + 1)] but 1000 ms, and the clock is 1000 ms further. *)
Lemma zero_delay_counterexample :
  let run := executeTransition (retryConfig zeroDelay) "calling" "CALL" freshState in
  delayMs zeroDelay = Some (num 0) /\
  backoff zeroDelay = Some Linear /\
  maxAttempts zeroDelay = Some 1 /\
  delaysOf (sm_trace run.2) = [num 1000] /\
  sm_clock run.2 = sm_clock freshState + 1000 /\
  num 1000 <> times (num 0) (num (0 + 1)).
Proof.
  cbv zeta. split; [reflexivity|]. split; [reflexivity|]. split; [reflexivity|].
  split; [vm_compute; reflexivity|]. split; [vm_compute; reflexivity|].
  vm_compute. discriminate.
Qed.


(** C3: with the empty string as key, two calls are not one. *)
Lemma empty_key_counterexample :
  let options := optionsFor "GO" (Some EmptyString) in
  let once := (execute stepsConfig [] "f1" options stepsWorld).2 in
  let twice := (repeatExecute stepsConfig [] "f1" options 2 stepsWorld).2 in
  (v_currentState <$> flowView once "f1") = Some (Single "b") /\
  (v_currentState <$> flowView twice "f1") = Some (Single "c") /\
  (length ∘ v_history <$> flowView once "f1") = Some 1%nat /\
  (length ∘ v_history <$> flowView twice "f1") = Some 2%nat /\
  flowView twice "f1" <> flowView once "f1".
Proof.
  cbv zeta. split; [vm_compute; reflexivity|]. split; [vm_compute; reflexivity|].
  split; [vm_compute; reflexivity|]. split; [vm_compute; reflexivity|].
  intros H. apply (f_equal (fmap v_currentState)) in H. vm_compute in H. discriminate.
Qed.

(** C10: after a call that raised NotFound, the same call raises again. *)
Lemma not_found_replay_counterexample :
  let options := optionsFor "GO" (Some "k1") in
  let rs := (repeatExecute stepsConfig [] "ghost" options 2 emptyWorld).1 in
  let w2 := (repeatExecute stepsConfig [] "ghost" options 2 emptyWorld).2 in
  idempotencyKeys w2 !! "k1" = Some "ghost" /\
  rs = [Throw ("Flow with ID " +:+ dq +:+ "ghost" +:+ dq +:+ " not found");
        Throw ("Flow with ID " +:+ dq +:+ "ghost" +:+ dq +:+ " not found")] /\
  ~ (exists current, isNoop options current (default Crash (rs !! 1%nat))).
Proof.
  cbv zeta. split; [vm_compute; reflexivity|]. split; [vm_compute; reflexivity|].
  intros (current & res & H & _). vm_compute in H. discriminate.
Qed.

(** The pass-through middleware leaves key bindings and stored flows in
    place. *)
Lemma passThrough_frame : MiddlewareFrame [passThrough].
Proof.
  intros mw Hmw%list_elem_of_singleton context next Hnext. subst mw.
  unfold passThrough. apply Frame_bind; [done|]. intros. apply Frame_ret.
Qed.

(** C1 on a flow with two recorded compensations, the first of which
    fails: the second runs, then the first. *)
Lemma compensate_contract_witness :
  flows sagaWorld !! 0%nat = Some sagaFlow /\
  exists w' tr,
    compensate 0%nat "payment failed" sagaWorld = (Ok true, w') /\
    trace w' = trace sagaWorld ++ tr /\
    compensatedIn tr = [undo "u2" false; undo "u1" true].
Proof.
  split; [reflexivity|].
  destruct (compensate_contract 0%nat "payment failed" sagaWorld sagaFlow ∅
              [undo "u1" true; undo "u2" false])
    as (b & w' & tr & E & _ & Htr & Hb & Hinv & _); [reflexivity..|].
  exists w', tr. rewrite E, Hb. auto.
Defined.

(** C2 on an event the current state has no transition for. *)
Lemma executeTransition_failure_keeps_state_witness :
  exists r s',
    executeTransition approvalConfig "pending" "REJECT" freshState = (Ok r, s') /\
    fromState r = Single "pending" /\ toState r = Single "pending".
Proof.
  destruct (executeTransition_failure_keeps_state approvalConfig "pending" "REJECT" freshState)
    as (r & s' & E & _ & H).
  exists r, s'. split; [exact E|].
  assert (Hs : success r = false).
  { vm_compute in E. by injection E as <- _. }
  destruct (H Hs) as (? & ? & _). auto.
Defined.

(** C3 on a flow in state [a], with the key [k1] and one middleware. *)
Lemma execute_idempotent_witness :
  let options := optionsFor "GO" (Some "k1") in
  let (r1, w1) := execute stepsConfig [passThrough] "f1" options stepsWorld in
  let (rs, wn) := repeatExecute stepsConfig [passThrough] "f1" options 2 w1 in
  length rs = 2%nat /\ flowView wn "f1" = flowView w1 "f1".
Proof.
  intros options.
  pose proof (execute_idempotent stepsConfig [passThrough] "f1" options "k1" stepsWorld 2
                eq_refl eq_refl eq_refl passThrough_frame (mk_is_Some _ _ eq_refl)) as H.
  destruct (execute stepsConfig [passThrough] "f1" options stepsWorld) as [r1 w1].
  destruct (repeatExecute stepsConfig [passThrough] "f1" options 2 w1) as [rs wn].
  split; [exact (proj1 H)|exact (proj1 (proj2 H))].
Defined.

(** C4 on two regions: the first has a transition for the event that
    nothing can keep from being taken, the second has no candidate for it. *)
Lemma broadcast_dispatch_witness :
  exists res w',
    executeParallelTransition regionsConfig 0%nat (optionsFor "EVENT_A" None) regionsWorld
      = (Ok res, w') /\
    success res = true /\
    fromState res = Multi ["a"; "x"] /\
    toState res = Multi ["b"; "x"].
Proof.
  destruct (broadcast_dispatch regionsConfig 0%nat (optionsFor "EVENT_A" None)
              regionsWorld regionsFlow ["a"; "x"] ∅)
    as (ts & s' & res & ns & _ & _ & Hts & E & Hfrom & Hto & Hlen & Hkeep & Hmove
        & Hsucc & _);
    [reflexivity..|].
  destruct (Hts 0%nat "a" eq_refl) as (ta & Ha & _ & _ & Hyes).
  destruct (Hyes (transitionTo "EVENT_A" "b")) as [Hsa Htoa].
  { split; [eexists; split; [vm_compute; reflexivity|reflexivity]|].
    split; [exists [], []; split; [vm_compute; reflexivity|]|].
    { intros u Hu. by apply elem_of_nil in Hu. }
    do 3 (split; [reflexivity|]). split; [vm_compute; discriminate|].
    eexists. split; [vm_compute; reflexivity|]. by split. }
  destruct (Hts 1%nat "x" eq_refl) as (tx & Hx & _ & Hno & _).
  assert (Hsx : success tx = false).
  { apply Hno. intros t Ht.
    assert (getTransitions regionsConfig "x" = [transitionTo "EVENT_X" "y"]) as Hg
      by (vm_compute; reflexivity).
    rewrite Hg in Ht. apply list_elem_of_singleton in Ht as ->. discriminate. }
  pose proof (Hmove 0%nat ta "b" Ha Hsa Htoa) as H0.
  pose proof (Hkeep 1%nat "x" (Some tx) eq_refl Hx Hsx) as H1.
  exists res, (written (context regionsFlow) s' regionsWorld).
  split; [exact E|]. split.
  { apply Hsucc. exists (Some ta). split; [by eapply list_elem_of_lookup_2|exact Hsa]. }
  split; [exact Hfrom|]. rewrite Hto. f_equal.
  destruct ns as [|n0 [|n1 [|n2 ns]]]; simpl in Hlen; try discriminate Hlen.
  simpl in H0, H1. by injection H0 as ->; injection H1 as ->.
Defined.

(** X28 on an action that always fails, retried twice with exponential
    backoff from 10 ms: three attempts, delays of 10 and 20 ms, then the
    failure. *)
Lemma retry_schedule_witness :
  exists res s',
    executeTransition (retryConfig exponentialTwice) "calling" "CALL" freshState
      = (Ok res, s') /\
    success res = false /\
    delaysOf (sm_trace s') = [num 10; num 20].
Proof.
  destruct (retry_schedule (retryConfig exponentialTwice) "calling" "CALL" freshState
              (atomic "calling" [retried exponentialTwice]) (retried exponentialTwice)
              freshState)
    as (res & s' & k & attempts & handler & E & Htr & Hk & _ & Hdel & _ & _ & Hfail
        & _ & Hfailing);
    [reflexivity|reflexivity|cbn; lia|].
  assert (Hs : success res = false).
  { apply Hfailing. right. left. exists failing. split; [reflexivity|].
    intros c. by exists "unavailable". }
  exists res, s'. split; [exact E|]. split; [exact Hs|].
  destruct (Hfail Hs) as [Hkm _]. cbn in Hkm.
  assert (k = 2%nat) as -> by lia.
  rewrite Htr. simpl. exact Hdel.
Defined.


(** C7 on a store holding one flow. *)
Lemma get_save_shallow_copy_witness :
  exists a w1,
    Storage.get "f1" pendingWorld = (Ok (Some a), w1) /\
    flows w1 !! a = Some pendingFlow.
Proof.
  assert (Hvalid : storeValid pendingWorld).
  { repeat constructor. by eexists. }
  destruct (get_save_shallow_copy pendingWorld "f1" 0%nat pendingFlow eq_refl eq_refl eq_refl Hvalid)
    as (a & w1 & E & _ & Ha & _).
  exists a, w1. auto.
Defined.

(** C8 on a flow in state [pending] and a list of two requested states. *)
Lemma currentState_filter_witness :
  currentStateMatches (Multi ["pending"; "approved"]) pendingFlow = true.
Proof.
  apply (proj1 (currentState_filter (Multi ["pending"; "approved"])) pendingFlow).
  cbn. left.
Defined.

Lemma storeValid_worldWith fs ctx recorded : storeValid (worldWith fs ctx recorded).
Proof. repeat constructor. by eexists. Qed.

Lemma storeValid_emptyWorld : storeValid emptyWorld.
Proof. constructor. Qed.

(** X2 on the order approval: the target of its first transition is declared. *)
Lemma validated_targets_declared_witness :
  validate_ approvalConfig tt = (Ok tt, tt) /\
  is_Some (stateMap approvalConfig !! "approved").
Proof.
  assert (Hv : validate_ approvalConfig tt = (Ok tt, tt)) by (vm_compute; reflexivity).
  split; [exact Hv|].
  apply (validated_targets_declared approvalConfig tt "pending"
           (atomic "pending" [approveSmall; approveLarge]) approveSmall Hv).
  - reflexivity.
  - reflexivity.
  - assert (getTransitions approvalConfig "pending" = [approveSmall; approveLarge]) as ->
      by (vm_compute; reflexivity).
    by left.
Defined.

(** X3 on the first of three steps. *)
Lemma executeTransition_success_target_witness :
  exists t, t ∈ getTransitions stepsConfig "a" /\ t_to t = "b".
Proof.
  destruct (executeTransition stepsConfig "a" "GO" freshState) as [r s'] eqn:E.
  pose proof E as E'. vm_compute in E'. injection E' as <- <-.
  destruct (executeTransition_success_target stepsConfig "a" "GO" freshState _ _ E eq_refl)
    as (t & Hin & _ & _ & _ & Hres).
  exists t. split; [exact Hin|]. by injection Hres as <-.
Defined.

(** X4 on a review that needs a reviewer. *)
Lemma validation_rejects_witness :
  exists s',
    executeTransition reviewConfig "draft" "SUBMIT" freshState =
      (Ok (failure "draft" "SUBMIT" "reviewer is required"), s').
Proof.
  destruct (validation_rejects reviewConfig "draft" "SUBMIT" freshState
              (atomic "draft" [transitionTo "SUBMIT" "review"])
              (transitionTo "SUBMIT" "review") freshState reviewNode needsReviewer
              ∅ (VRBool false))
    as (s' & E & _); try reflexivity.
  - discriminate.
  - exists s'. exact E.
Defined.

(** X6 on a store holding one flow. *)
Lemma save_inserts_or_overwrites_witness :
  exists w', save 0%nat pendingWorld = (Ok tt, w') /\ size w' = (Ok 1%nat, w').
Proof.
  destruct (save_inserts_or_overwrites 0%nat pendingFlow pendingWorld eq_refl
              (storeValid_worldWith _ _ _))
    as (w' & copy & E & _ & _ & _ & _ & _ & Hsize & _).
  exists w'. split; [exact E|exact Hsize].
Defined.

(** X8 on a store holding one flow whose context has the amount asked for. *)
Lemma queryByContext_submap_witness :
  exists ls w',
    queryByContext {[ "amount" := VNum 15000 ]} pendingWorld = (Ok ls, w') /\
    length ls = 1%nat.
Proof.
  destruct (queryByContext_submap {[ "amount" := VNum 15000 ]} pendingWorld
              (storeValid_worldWith _ _ _))
    as (_ & ls & w' & E & Hall & _).
  { change (storedList pendingWorld) with [pendingFlow]. repeat constructor. by eexists. }
  exists ls, w'. split; [exact E|].
  apply Forall2_length in Hall. rewrite Hall. vm_compute. reflexivity.
Defined.

(** X11 on an active flow. *)
Lemma pause_resume_round_trip_witness :
  exists a w1 b w2,
    pause "f1" stepsWorld = (Ok a, w1) /\
    resume "f1" w1 = (Ok b, w2) /\
    flowView w2 "f1" = flowView stepsWorld "f1".
Proof.
  destruct (pause_resume_round_trip stepsConfig "f1" stepsWorld stepsFlow
              eq_refl eq_refl eq_refl (storeValid_worldWith _ _ _))
    as (a & w1 & b & w2 & E1 & _ & _ & E2 & _ & Hview & _).
  exists a, w1, b, w2. auto.
Defined.

(** X12 on a paused flow. *)
Lemma lifecycle_guards_witness :
  pause "f1" pausedWorld =
    (Throw "Cannot pause flow. Current status: paused",
     setFlows (flows pausedWorld ++ [pausedFlow]) pausedWorld).
Proof.
  apply (proj1 (lifecycle_guards stepsConfig "f1" pausedWorld 0%nat pausedFlow
                  eq_refl eq_refl)).
  discriminate.
Defined.

(** X13 on an empty store. *)
Lemma missing_flow_not_found_witness :
  pause "ghost" emptyWorld =
    (Throw ("Flow with ID " +:+ dq +:+ "ghost" +:+ dq +:+ " not found"), emptyWorld).
Proof.
  exact (proj1 (missing_flow_not_found stepsConfig [] "ghost" emptyWorld eq_refl)).
Defined.

(** X14 on an active flow. *)
Lemma cancel_marks_failed_witness :
  exists a w1,
    cancel "f1" false stepsWorld = (Ok a, w1) /\
    (status <$> storedFlow w1 "f1") = Some Failed.
Proof.
  destruct (cancel_marks_failed stepsConfig "f1" stepsWorld stepsFlow
              eq_refl eq_refl ltac:(discriminate) (storeValid_worldWith _ _ _))
    as (a & w1 & E & Hst & _).
  exists a, w1. split; [exact E|]. by rewrite Hst.
Defined.

(** X15 on the first of three steps. *)
Lemma execute_success_commits_witness :
  exists r w1,
    execute stepsConfig [] "f1" (optionsFor "GO" None) stepsWorld = (Ok r, w1) /\
    (v_currentState <$> flowView w1 "f1") = Some (Single "b") /\
    (length ∘ v_history <$> flowView w1 "f1") = Some 1%nat.
Proof.
  destruct (executeTransition stepsConfig "a" "GO" freshState) as [r s'] eqn:E.
  pose proof E as E'. vm_compute in E'. injection E' as <- <-.
  destruct (execute_success_commits stepsConfig "f1" (optionsFor "GO" None) stepsWorld
              stepsFlow "a" ∅ [] _ _ eq_refl eq_refl eq_refl eq_refl eq_refl eq_refl
              eq_refl (storeValid_worldWith _ _ _) E eq_refl)
    as (a & w1 & Hexec & Hview & _).
  eexists _, w1. split; [exact Hexec|]. rewrite Hview. split; reflexivity.
Defined.

(** X16 on a flow with two recorded compensations, in a state the machine
    does not know. *)
Lemma execute_failure_fails_flow_witness :
  exists r w1 tr,
    execute stepsConfig [] "f1" (optionsFor "GO" None) sagaWorld = (Ok r, w1) /\
    res_compensated r = Some true /\
    compensatedIn tr = [undo "u2" false; undo "u1" true] /\
    (v_status <$> flowView w1 "f1") = Some Failed.
Proof.
  destruct (executeTransition stepsConfig "step3" "GO" freshState) as [r s'] eqn:E.
  pose proof E as E'. vm_compute in E'. injection E' as <- <-.
  destruct (execute_failure_fails_flow stepsConfig "f1" (optionsFor "GO" None) sagaWorld
              sagaFlow "step3" ∅ [] [undo "u1" true; undo "u2" false] _ _
              eq_refl eq_refl eq_refl eq_refl eq_refl eq_refl eq_refl eq_refl
              (storeValid_worldWith _ _ _) E eq_refl)
    as (a & w1 & tr & Hexec & _ & Hview & _ & _ & Hcomp & _).
  eexists _, w1, tr. split; [exact Hexec|]. split; [reflexivity|].
  split; [exact Hcomp|]. by rewrite Hview.
Defined.

(** X17 on a flow with two recorded compensations. *)
Lemma cancel_runs_compensations_witness :
  exists a w1 tr,
    cancel "f1" true sagaWorld = (Ok a, w1) /\
    trace w1 = trace sagaWorld ++ tr /\
    compensatedIn tr = [undo "u2" false; undo "u1" true].
Proof.
  destruct (cancel_runs_compensations "f1" sagaWorld sagaFlow ∅ []
              [undo "u1" true; undo "u2" false]
              eq_refl eq_refl ltac:(discriminate) eq_refl eq_refl eq_refl
              (storeValid_worldWith _ _ _))
    as (a & w1 & tr & E & _ & _ & _ & Htr & Hcomp & _).
  exists a, w1, tr. auto.
Defined.

(** X18 on a flow with nothing recorded yet. *)
Lemma recordCompensation_appends_witness :
  exists w1 fs1,
    recordCompensation "f1" (comp_action (undo "u1" false)) None pendingWorld
      = (Ok tt, w1) /\
    storedFlow w1 "f1" = Some fs1 /\
    recordedOn w1 fs1 [{| comp_state := "pending";
                          comp_action := comp_action (undo "u1" false);
                          comp_timestamp := 0;
                          comp_description := None |}].
Proof.
  destruct (recordCompensation_appends "f1" (comp_action (undo "u1" false)) None
              pendingWorld pendingFlow [] eq_refl eq_refl eq_refl
              (storeValid_worldWith _ _ _))
    as (w1 & fs1 & E & Hst & Hrec & _).
  exists w1, fs1. auto.
Defined.

(** X19 on two regions, the event aimed at the second one by a target that
    starts with a no-break space. *)
Lemma target_region_dispatch_witness :
  let target := String "194"%char (String "160"%char "1") in
  exists result w',
    executeParallelTransition regionsConfig 0%nat (regionOptions "EVENT_X" target)
      regionsWorld = (Ok result, w') /\
    success result = true /\
    fromState result = Multi ["a"; "x"] /\
    toState result = Multi ["a"; "y"].
Proof.
  intros target.
  destruct (proj2 (target_region_dispatch regionsConfig 0%nat
                     (regionOptions "EVENT_X" target) regionsWorld regionsFlow
                     ["a"; "x"] ∅ target eq_refl eq_refl eq_refl eq_refl)
              1%nat "x" eq_refl eq_refl)
    as (res & s' & to & result & newStates & Hrun & Hto & E & _ & Hsucc).
  vm_compute in Hrun. injection Hrun as <- <-.
  destruct (Hsucc eq_refl) as (-> & Hlen & Hnew & Hold).
  simpl in Hto. injection Hto as <-.
  eexists _, _. split; [exact E|]. split; [reflexivity|]. split; [reflexivity|].
  simpl. f_equal.
  pose proof (Hold 0%nat ltac:(lia)) as H0.
  destruct newStates as [|n0 [|n1 [|n2 ns]]]; simpl in Hlen; try discriminate Hlen.
  simpl in H0, Hnew. by injection H0 as ->; injection Hnew as ->.
Defined.

(** The delay after the third attempt of a linear backoff from
    9007199254740991 ms is the product rounded to a double; a delay of a
    millisecond and a half is kept, and the timer runs for one millisecond. *)
Lemma backoff_delay_rounds :
  backoffDelay Linear (num 9007199254740991) 2 = num 27021597764222972 /\
  truncate (backoffDelay Linear (num 9007199254740991) 2) = 27021597764222972 /\
  27021597764222972 <> 9007199254740991 * (2 + 1) /\
  timerDuration (backoffDelay Exponential (times (num 3) (pow2 (-2))) 1) = 1 /\
  timerDuration (backoffDelay Exponential (times (num 3) (pow2 (-2))) 2) = 3.
Proof.
  split; [vm_compute; reflexivity|]. split; [vm_compute; reflexivity|].
  split; [lia|]. split; vm_compute; reflexivity.
Qed.

(** X20 on two regions. *)
Lemma possible_transitions_parallel_witness :
  exists events w',
    getPossibleTransitions regionsConfig "f1" regionsWorld = (Ok events, w') /\
    NoDup events.
Proof.
  destruct (possible_transitions_parallel regionsConfig "f1" regionsWorld regionsFlow
              ["a"; "x"] eq_refl eq_refl)
    as (events & w' & E & Hnd & _).
  exists events, w'. auto.
Defined.

(** X21 on an empty store. *)
Lemma start_creates_flow_witness :
  exists a w' fs,
    start (onboardingConfig false) "uuid-1" (startOptions None (Some "k1")) emptyWorld
      = (Ok a, w') /\
    storedFlow w' "uuid-1" = Some fs /\
    currentState fs = Single "invited" /\
    idempotencyKeys w' !! "k1" = Some "uuid-1".
Proof.
  destruct (start_creates_flow (onboardingConfig false) "uuid-1"
              (startOptions None (Some "k1")) emptyWorld)
    as (a & w' & fs & E & _ & Hst & _ & _ & _ & Hcur & Hrest).
  - intros key _. apply lookup_empty.
  - reflexivity.
  - intros c0 [=].
  - apply storeValid_emptyWorld.
  - exists a, w', fs. split; [exact E|]. split; [exact Hst|]. split; [exact Hcur|].
    destruct Hrest as (_ & _ & _ & _ & _ & _ & _ & _ & _ & _ & _ & _ & _ & Hkey & _).
    by apply Hkey.
Defined.

(** X22 on an entry action that fails. *)
Lemma start_entry_outcome_witness :
  exists a w' fs,
    start (onboardingConfig true) "uuid-1" (startOptions None None) emptyWorld
      = (Ok a, w') /\
    storedFlow w' "uuid-1" = Some fs /\
    status fs = Failed /\
    trace w' = [EEntry "invited"].
Proof.
  destruct (start_entry_outcome (onboardingConfig true) "uuid-1"
              (startOptions None None) emptyWorld "invited" (welcome true))
    as (a & w' & fs & E & Hst & _ & Htr & _ & Hstatus).
  - intros key [=].
  - reflexivity.
  - intros c0 [=].
  - apply storeValid_emptyWorld.
  - reflexivity.
  - reflexivity.
  - exists a, w', fs. split; [exact E|]. split; [exact Hst|]. split; [exact Hstatus|].
    exact Htr.
Defined.

(** X23 on a flow id that is taken. *)
Lemma start_rejects_existing_id_witness :
  start stepsConfig "uuid-1" (startOptions (Some "f1") None) stepsWorld =
    (Throw ("Flow with ID " +:+ dq +:+ "f1" +:+ dq +:+ " already exists"), stepsWorld).
Proof.
  apply (start_rejects_existing_id stepsConfig "uuid-1" (startOptions (Some "f1") None)
           stepsWorld).
  - intros key [=].
  - by eexists.
Defined.

(** X24 on an empty store: the second call creates nothing. *)
Lemma start_idempotent_witness :
  exists a w1 fs b,
    start stepsConfig "uuid-1" (startOptions None (Some "k1")) emptyWorld = (Ok a, w1) /\
    start stepsConfig "uuid-2" (startOptions None (Some "k1")) w1
      = (Ok b, setFlows (flows w1 ++ [fs]) w1) /\
    flowId fs = "uuid-1".
Proof.
  destruct (start_idempotent stepsConfig "uuid-1" (startOptions None (Some "k1"))
              "uuid-2" (startOptions None (Some "k1")) "k1" emptyWorld
              eq_refl eq_refl (lookup_empty _) eq_refl eq_refl
              ltac:(intros c0 [=]) storeValid_emptyWorld eq_refl)
    as (a & w1 & fs & b & E1 & _ & Hid & _ & E2 & _).
  exists a, w1, fs, b. auto.
Defined.

(** X25 on the first of three steps, behind a gate and a logger: the gate
    lets the event through, the logger writes around the transition. *)
Lemma middlewares_nest_witness :
  exists cells' r w1,
    execute stepsConfig (map around [only "GO"; logged "audit"]) "f1"
      (optionsFor "GO" None) stepsWorld = (Ok r, setCells cells' w1) /\
    trace w1 = [EConsoleError "audit" "GO"; EConsoleError "audit" "done"] /\
    (currentState <$> storedFlow w1 "f1") = Some (Single "b").
Proof.
  destruct (middlewares_nest stepsConfig [only "GO"; logged "audit"] "f1"
              (optionsFor "GO" None) stepsWorld 0%nat stepsFlow
              eq_refl eq_refl eq_refl ltac:(discriminate))
    as [cells' E].
  { intros wrapper Hin. apply elem_of_cons in Hin as [->|Hin].
    - split; [done|]. by intros.
    - apply list_elem_of_singleton in Hin as ->. split; [done|]. by intros. }
  destruct (onion [only "GO"; logged "audit"] _ _ _) as [[r|e|] w1] eqn:Hchain in E;
    vm_compute in Hchain; [|discriminate|discriminate].
  injection Hchain as <- <-.
  eexists cells', _, _. split; [exact E|]. split; reflexivity.
Defined.

(** Two regions that meet on the context: the guard of the second region
    is evaluated when its transition is started, before the action of the
    first region has run, so the second region stays. *)
Lemma racing_regions :
  exists s',
    regionTransitions racingConfig "GO" ["a"; "x"] freshState =
      (Ok [Some {| success := true; fromState := Single "a"; toState := Single "b";
                   event := "GO"; StateMachine.error := None |};
           Some (failure "x" "GO"
                   ("No valid transition for event " +:+ dq +:+ "GO" +:+ dq
                    +:+ " from state " +:+ dq +:+ "x" +:+ dq))], s') /\
    sm_context s' = {[ "flag" := VBool true ]} /\
    sm_trace s' = [EAction "GO" "b"].
Proof. eexists. split; [vm_compute; reflexivity|]. split; reflexivity. Qed.



(** C10 on a paused flow, and on a flow that is started only after the call
    that bound the key. *)
Lemma key_bound_before_checks_witness :
  let options := optionsFor "GO" (Some "k1") in
  (exists w1,
     execute stepsConfig [] "f1" options pausedWorld
       = (Throw "Flow is not active. Current status: paused", w1) /\
     idempotencyKeys w1 !! "k1" = Some "f1" /\
     exists snapshot w2,
       execute stepsConfig [] "f1" options w1
         = (Ok (noopResult options snapshot (Single "a")), w2)) /\
  (exists w1 a w2,
     execute stepsConfig [] "ghost" options emptyWorld
       = (Throw ("Flow with ID " +:+ dq +:+ "ghost" +:+ dq +:+ " not found"), w1) /\
     execute stepsConfig [] "ghost" options w1
       = (Throw ("Flow with ID " +:+ dq +:+ "ghost" +:+ dq +:+ " not found"), w1) /\
     start stepsConfig "uuid-1" (startOptions (Some "ghost") None) w1 = (Ok a, w2) /\
     exists snapshot w3,
       execute stepsConfig [] "ghost" options w2
         = (Ok (noopResult options snapshot (Single "a")), w3)).
Proof.
  intros options. split.
  - destruct (proj1 (proj2 (key_bound_before_checks stepsConfig [] "f1" options "k1"
                              pausedWorld eq_refl eq_refl eq_refl eq_refl))
                0%nat pausedFlow eq_refl eq_refl ltac:(discriminate) eq_refl)
      as (w1 & E & HK & _ & _ & Hreplay).
    exists w1. split; [exact E|]. split; [exact HK|].
    destruct (Hreplay options eq_refl) as (snapshot & w2 & E2 & _).
    exists snapshot, w2. exact E2.
  - destruct (proj1 (key_bound_before_checks stepsConfig [] "ghost" options "k1"
                       emptyWorld eq_refl eq_refl eq_refl eq_refl) eq_refl)
      as (w1 & E & _ & Hagain & Hstart).
    destruct (Hstart "uuid-1" (startOptions (Some "ghost") None) eq_refl eq_refl)
      as (a & w2 & fs & Es & _ & Hcur & _ & Hreplay).
    { intros c0 Hc0. discriminate Hc0. }
    exists w1, a, w2. split; [exact E|]. split; [exact (Hagain options eq_refl)|].
    split; [exact Es|].
    destruct (Hreplay options eq_refl) as (snapshot & w3 & E3 & _).
    exists snapshot, w3. rewrite E3, Hcur. reflexivity.
Defined.

End Scenarios.
